(** * ESP32-S3 MIDI controller: the sampling pipeline of [main/main.c]

    The firmware reads three potentiometers, smooths each reading with an
    exponential moving average held in a C [float], maps the result to a
    7-bit controller value and writes a MIDI Control Change packet when
    that value differs from the one computed last.

    The pipeline is written once over the operations of C's [float]
    ([FloatOps]).  It is run on IEEE-754 binary32, the arithmetic of the
    target, modelled with the standard library's [SpecFloat]; and, for the
    statements that speak of exact arithmetic, on the rationals. *)

From Stdlib Require Import ZArith QArith Qround Qpower Qabs Lia Lqa Bool List.
From Stdlib Require Import Floats.SpecFloat.
From stdpp Require Import base list vector.

Local Open Scope Z_scope.

(** ** Arithmetic of [float] *)

Class FloatOps (F : Type) := {
  fl_lit : Q -> F;            (* a literal such as [0.25f] *)
  fl_of_int : Z -> F;         (* the conversion of an [int] operand *)
  fl_add : F -> F -> F;
  fl_sub : F -> F -> F;
  fl_mul : F -> F -> F;
  fl_div : F -> F -> F;
  fl_to_u8 : F -> Z           (* the cast [(uint8_t)x] *)
}.

(** IEEE-754 binary32: 24 bits of precision, infinities at exponent 128. *)
Module B32.

Definition prec : Z := 24.
Definition emax : Z := 128.

Definition add := SFadd prec emax.
Definition sub := SFsub prec emax.
Definition mul := SFmul prec emax.
Definition div := SFdiv prec emax.

(** [(float)n]: the integer rounded to nearest, ties to even. *)
Definition of_int (n : Z) : spec_float := binary_normalize prec emax n 0 false.

(** The literals of the program are quotients of two small integers
    ([0.25f] is 1/4); one correctly rounded division gives their value. *)
Definition lit (q : Q) : spec_float :=
  div (of_int (Qnum q)) (of_int (Zpos (Qden q))).

(** The integer part of a float, rounding toward zero. *)
Definition trunc (x : spec_float) : Z :=
  match x with
  | S754_finite s m e =>
      let a := match e with
               | Zneg p => Zpos m / 2 ^ Zpos p
               | _ => Zpos m * 2 ^ e
               end in
      if s then - a else a
  | _ => 0
  end.

(** [(uint8_t)x] discards the fraction.  C defines the conversion only
    when the integer part fits the type; outside that range (and for
    infinities and NaN) the model keeps the low eight bits. *)
Definition to_u8 (x : spec_float) : Z := trunc x mod 256.

End B32.

#[export] Instance binary32 : FloatOps spec_float := {|
  fl_lit := B32.lit;
  fl_of_int := B32.of_int;
  fl_add := B32.add;
  fl_sub := B32.sub;
  fl_mul := B32.mul;
  fl_div := B32.div;
  fl_to_u8 := B32.to_u8
|}.

(** Exact arithmetic on the rationals; the cast truncates toward zero. *)
#[export] Instance rational : FloatOps Q := {|
  fl_lit := fun q => q;
  fl_of_int := inject_Z;
  fl_add := Qplus;
  fl_sub := Qminus;
  fl_mul := Qmult;
  fl_div := Qdiv;
  fl_to_u8 := fun x => Z.quot (Qnum x) (Zpos (Qden x)) mod 256
|}.

(** ** The program *)

(** [adc_channel_t] of the ADC driver; the program names three of the ten
    channels of unit 1. *)
Inductive adc_channel_t :=
  | ADC_CHANNEL_0 | ADC_CHANNEL_1 | ADC_CHANNEL_2 | ADC_CHANNEL_3
  | ADC_CHANNEL_4 | ADC_CHANNEL_5 | ADC_CHANNEL_6 | ADC_CHANNEL_7
  | ADC_CHANNEL_8 | ADC_CHANNEL_9.

Definition ADC_CHANNEL1 := ADC_CHANNEL_9.
Definition ADC_CHANNEL2 := ADC_CHANNEL_8.
Definition ADC_CHANNEL3 := ADC_CHANNEL_2.

(** The attenuations, widths and units of the ADC driver. *)
Inductive adc_atten_t :=
  | ADC_ATTEN_DB_0 | ADC_ATTEN_DB_2_5 | ADC_ATTEN_DB_6 | ADC_ATTEN_DB_11.

Inductive adc_bits_width_t :=
  | ADC_WIDTH_BIT_9 | ADC_WIDTH_BIT_10 | ADC_WIDTH_BIT_11 | ADC_WIDTH_BIT_12.

Inductive adc_unit_t := ADC_UNIT_1 | ADC_UNIT_2.

Definition ADC_UNIT := ADC_UNIT_1.
Definition ADC_ATTEN := ADC_ATTEN_DB_11.

(** A call made to the ADC driver while it is set up. *)
Inductive adc_call :=
  | adc1_config_width (width : adc_bits_width_t)
  | adc1_config_channel_atten (channel : adc_channel_t) (atten : adc_atten_t)
  | esp_adc_cal_characterize (unit : adc_unit_t) (atten : adc_atten_t)
      (width : adc_bits_width_t) (default_vref : Z).

Definition MIDI_CC_CHANNEL : Z := 0.
Definition MIDI_CC1 : Z := 1.
Definition MIDI_CC2 : Z := 2.
Definition MIDI_CC3 : Z := 3.
Definition CC_MESSAGE : Z := 0xB0.

(** A value stored in a [uint8_t]. *)
Definition u8 (x : Z) : Z := x mod 256.

(** One call [tud_midi_stream_write(cable_num, buffer, bufsize)]: the
    cable and the [bufsize] bytes handed over. *)
Record stream_write := {
  cable_num : Z;
  buffer : list Z
}.

(** What the surroundings answer during one pass of the loop: the raw
    reading of each ADC channel and whether the USB MIDI interface is
    mounted. *)
Record world := {
  adc1_get_raw : adc_channel_t -> Z;
  tud_midi_mounted : bool
}.

(** The Control Change message for controller [cc] with value [v], on
    cable 0. *)
Definition control_change (cc v : Z) : stream_write :=
  {| cable_num := 0; buffer := [0xB0; cc; v] |}.

(** The readings of a pass are those of a 12-bit converter. *)
Definition in_range (w : world) : Prop :=
  forall c, 0 <= adc1_get_raw w c <= 4095.

(** A pass during which every channel reads [raw]. *)
Definition steady (raw : Z) (mounted : bool) : world :=
  {| adc1_get_raw := fun _ => raw; tud_midi_mounted := mounted |}.

Section Pipeline.

Context {F : Type} `{FloatOps F}.

Definition ALPHA : F := fl_lit (1 # 4).

Record analog_input_t := {
  channel : adc_channel_t;
  filtered_value : F;
  last_midi_value : Z;
  cc_number : Z
}.

Definition analog_inputs : vec analog_input_t 3 :=
  [# {| channel := ADC_CHANNEL1; filtered_value := fl_lit 0;
        last_midi_value := 0; cc_number := MIDI_CC1 |};
     {| channel := ADC_CHANNEL2; filtered_value := fl_lit 0;
        last_midi_value := 0; cc_number := MIDI_CC2 |};
     {| channel := ADC_CHANNEL3; filtered_value := fl_lit 0;
        last_midi_value := 0; cc_number := MIDI_CC3 |} ].

Definition send_midi_cc (w : world) (cc_number value : Z) : list stream_write :=
  if tud_midi_mounted w then
    let msg := [u8 (Z.lor CC_MESSAGE MIDI_CC_CHANNEL); cc_number; value] in
    [ {| cable_num := 0; buffer := firstn 3 msg |} ]
  else [].

(** The smoothing assignment of the loop body. *)
Definition filter (raw_value : Z) (filtered : F) : F :=
  fl_add (fl_mul ALPHA (fl_of_int raw_value))
         (fl_mul (fl_sub (fl_lit 1) ALPHA) filtered).

(** The conversion to the MIDI range. *)
Definition to_midi (filtered : F) : Z :=
  fl_to_u8 (fl_mul (fl_div filtered (fl_lit 4095)) (fl_lit 127)).

(** The body of the [for] loop of [process_analog_inputs], on the entry
    it works on. *)
Definition process_input (w : world) (a : analog_input_t)
  : analog_input_t * list stream_write :=
  let raw_value := adc1_get_raw w (channel a) in
  let a1 := {| channel := channel a;
               filtered_value := filter raw_value (filtered_value a);
               last_midi_value := last_midi_value a;
               cc_number := cc_number a |} in
  let midi_value := to_midi (filtered_value a1) in
  if negb (midi_value =? last_midi_value a1) then
    ({| channel := channel a1;
        filtered_value := filtered_value a1;
        last_midi_value := midi_value;
        cc_number := cc_number a1 |},
     send_midi_cc w (cc_number a1) midi_value)
  else (a1, []).

(** One iteration [i] of the loop on the global array; the writes are
    appended to those made so far. *)
Definition loop_body (w : world) (acc : vec analog_input_t 3 * list stream_write)
    (i : fin 3) : vec analog_input_t 3 * list stream_write :=
  let (inputs, out) := acc in
  let (a, msgs) := process_input w (inputs !!! i) in
  (vinsert i a inputs, out ++ msgs).

Definition process_analog_inputs (w : world) (inputs : vec analog_input_t 3)
  : vec analog_input_t 3 * list stream_write :=
  foldl (loop_body w) (inputs, []) [0%fin; 1%fin; 2%fin].

(** [midi_controller_task] calls [process_analog_inputs] forever; a run
    over finitely many passes, one [world] per pass, returns the array
    and the writes of each pass. *)
Fixpoint midi_controller_task (ws : list world) (inputs : vec analog_input_t 3)
  : vec analog_input_t 3 * list (list stream_write) :=
  match ws with
  | [] => (inputs, [])
  | w :: ws' =>
      let (inputs1, out) := process_analog_inputs w inputs in
      let (inputs2, outs) := midi_controller_task ws' inputs1 in
      (inputs2, out :: outs)
  end.

(** *** The passes as seen from one entry *)

(** The value [midi_value] takes in the iteration working on [a]. *)
Definition midi_value_of (w : world) (a : analog_input_t) : Z :=
  to_midi (filter (adc1_get_raw w (channel a)) (filtered_value a)).

(** The writes made by iteration [i] of a pass over [inputs]. *)
Definition sent_by (w : world) (inputs : vec analog_input_t 3) (i : fin 3)
  : list stream_write :=
  snd (process_input w (inputs !!! i)).

(** The passes of a run on one entry: its final state and, pass by pass,
    the value computed and the writes made. *)
Fixpoint run_input (ws : list world) (a : analog_input_t)
  : analog_input_t * list (Z * list stream_write) :=
  match ws with
  | [] => (a, [])
  | w :: ws' =>
      let (a1, out) := process_input w a in
      let (a2, tr) := run_input ws' a1 in
      (a2, (midi_value_of w a, out) :: tr)
  end.

(** The filter fed the raw samples [raws] in turn. *)
Definition filter_run (raws : list Z) (filtered : F) : F :=
  fold_left (fun f raw => filter raw f) raws filtered.

(** [filtered_value] after [n] passes reading [raw], from the initial
    state of the program. *)
Definition cold_start (raw : Z) (n : nat) : F :=
  filter_run (repeat raw n) (fl_lit 0).

(** [init_adc]: the driver calls it makes, in order, on the array as it
    stands when the function runs. *)
Definition init_adc (inputs : vec analog_input_t 3) : list adc_call :=
  [adc1_config_width ADC_WIDTH_BIT_12]
  ++ map (fun i : fin 3 => adc1_config_channel_atten (channel (inputs !!! i)) ADC_ATTEN)
       [0%fin; 1%fin; 2%fin]
  ++ [esp_adc_cal_characterize ADC_UNIT ADC_ATTEN ADC_WIDTH_BIT_12 1100].

End Pipeline.

Arguments analog_input_t F : clear implicits.

(** ** Values of binary32 numbers *)

(** The rational a float stands for (0 for infinities and NaN). *)
Definition B2Q (x : spec_float) : Q :=
  match x with
  | S754_finite s m e =>
      let n := if s then Zneg m else Zpos m in
      match e with
      | Zneg p => Qmake n (2 ^ p)%positive
      | _ => inject_Z (n * 2 ^ e)
      end
  | _ => 0%Q
  end.

(** A float the pipeline can hold when fed in-range samples: zero or a
    positive finite number in canonical form. *)
Definition nonneg_valid (x : spec_float) : Prop :=
  match x with
  | S754_zero s => s = false
  | S754_finite s m e => s = false /\ bounded B32.prec B32.emax m e = true
  | _ => False
  end.

(** The value of a non-negative float counted in units of [2 ^ -149],
    the smallest positive binary32 number. *)
Definition units (x : spec_float) : Z :=
  match x with
  | S754_finite false m e => Zpos m * 2 ^ (e + 149)
  | _ => 0
  end.

(** [shr_repr N D r]: the shift record [r] holds the integer part of
    [N / D] and flags that are clear whenever the quotient is exact. *)
Definition shr_repr (N D : Z) (r : shr_record) : Prop :=
  shr_m r = N / D /\ (N mod D = 0 -> shr_r r = false /\ shr_s r = false).

(** The float with mantissa [m] and exponent [e] as [binary_round_aux]
    builds it for a positive sign. *)
Definition mk_float (m e : Z) : spec_float :=
  match m with
  | Z0 => S754_zero false
  | Zpos p =>
      if e <=? B32.emax - B32.prec then S754_finite false p e
      else S754_infinity false
  | Zneg _ => S754_nan
  end.

(** [loc_of N D]: where [N / D] lies between its integer part and the
    next integer, as the rounding functions record it. *)
Definition loc_of (N D : Z) : location :=
  if N mod D =? 0 then loc_Exact else loc_Inexact (2 * (N mod D) ?= D).

(** [shr_exact N D r]: the shift record [r] holds the integer part of
    [N / D], the round bit (the fraction is at least one half) and the
    sticky bit (the fraction is neither zero nor one half). *)
Definition shr_exact (N D : Z) (r : shr_record) : Prop :=
  shr_m r = N / D /\
  shr_r r = (D <=? 2 * (N mod D)) /\
  shr_s r = negb (N mod D =? 0) && negb (2 * (N mod D) =? D).

(** [rounds r X Y]: the float [r] is the result of the rounding step of
    binary32 applied to the positive number [X / Y], counted in units of
    [2 ^ -149], the step being given the integer part [N / D] of a
    scaled copy of that number and the position of the rest. *)
Definition rounds (r : spec_float) (X Y : Z) : Prop :=
  exists mx ex N D c,
    r = binary_round_aux B32.prec B32.emax false mx ex (loc_of N D) /\
    0 <= N /\ 0 < D /\ mx = N / D /\
    ex <= fexp B32.prec B32.emax (Zdigits2 mx + ex) /\
    149 <= c /\ 0 <= ex + c /\ 0 < Y /\ 0 < X /\
    X * D * 2 ^ (c - 149) = N * 2 ^ (ex + c) * Y.

(** * Facts about binary32 arithmetic *)

(** ** Powers of two and binary digits *)

Lemma pow2_pos k : 0 <= k -> 0 < 2 ^ k.
Proof. intros; apply Z.pow_pos_nonneg; lia. Qed.

Lemma pow2_add a b : 0 <= a -> 0 <= b -> 2 ^ (a + b) = 2 ^ a * 2 ^ b.
Proof. intros; apply Z.pow_add_r; assumption. Qed.

Lemma pow2_le a b : 0 <= a <= b -> 2 ^ a <= 2 ^ b.
Proof. intros; apply Z.pow_le_mono_r; lia. Qed.

Lemma pow2_lt a b : 0 <= a < b -> 2 ^ a < 2 ^ b.
Proof. intros; apply Z.pow_lt_mono_r; lia. Qed.

Lemma pow2_succ a : 0 <= a -> 2 ^ (a + 1) = 2 * 2 ^ a.
Proof. intros; rewrite pow2_add by lia; change (2 ^ 1) with 2; lia. Qed.

Lemma pow2_le_inv a b : 0 <= a -> 0 <= b -> 2 ^ a < 2 ^ b -> a < b.
Proof. intros Ha Hb Hlt. apply (Z.pow_lt_mono_r_iff 2); lia. Qed.

Lemma digits2_pos_bounds p :
  2 ^ (Zpos (digits2_pos p) - 1) <= Zpos p < 2 ^ Zpos (digits2_pos p).
Proof.
  induction p as [p IH | p IH |]; cbn [digits2_pos].
  - rewrite Pos2Z.inj_succ. unfold Z.succ.
    replace (Zpos (digits2_pos p) + 1 - 1) with (Zpos (digits2_pos p) - 1 + 1) by lia.
    rewrite !pow2_succ by lia. lia.
  - rewrite Pos2Z.inj_succ. unfold Z.succ.
    replace (Zpos (digits2_pos p) + 1 - 1) with (Zpos (digits2_pos p) - 1 + 1) by lia.
    rewrite !pow2_succ by lia. lia.
  - cbn. lia.
Qed.

Lemma Zdigits2_bounds m :
  0 < m -> 0 < Zdigits2 m /\ 2 ^ (Zdigits2 m - 1) <= m < 2 ^ Zdigits2 m.
Proof.
  destruct m as [| p | p]; try lia. intros _. cbn [Zdigits2].
  split; [lia | apply digits2_pos_bounds].
Qed.

Lemma Zdigits2_nonneg m : 0 <= Zdigits2 m.
Proof. destruct m; cbn; lia. Qed.

Lemma Zdigits2_unique m k : 0 < k -> 2 ^ (k - 1) <= m < 2 ^ k -> Zdigits2 m = k.
Proof.
  intros Hk [Hlo Hhi].
  assert (0 < m) by (pose proof (pow2_pos (k - 1)); lia).
  destruct (Zdigits2_bounds m) as (Hd & Hdlo & Hdhi); [assumption |].
  assert (Zdigits2 m - 1 < k) by (apply pow2_le_inv; lia).
  assert (k - 1 < Zdigits2 m) by (apply pow2_le_inv; lia).
  lia.
Qed.

Lemma Zdigits2_le_iff m k : 0 <= m -> 0 <= k -> Zdigits2 m <= k <-> m < 2 ^ k.
Proof.
  intros Hm Hk. destruct (Z.eq_dec m 0) as [-> | Hne].
  - cbn. pose proof (pow2_pos k). lia.
  - destruct (Zdigits2_bounds m) as (Hd & Hlo & Hhi); [lia |]. split.
    + intros Hle. pose proof (pow2_le (Zdigits2 m) k). lia.
    + intros Hlt. assert (Zdigits2 m - 1 < k) by (apply pow2_le_inv; lia). lia.
Qed.

Lemma Zdigits2_mono a b : 0 <= a <= b -> Zdigits2 a <= Zdigits2 b.
Proof.
  intros [Ha Hab]. apply Zdigits2_le_iff; [lia | apply Zdigits2_nonneg |].
  destruct (Z.eq_dec b 0) as [-> | Hne]; [cbn; lia |].
  destruct (Zdigits2_bounds b); lia.
Qed.

Lemma Zdigits2_mul_pow2 m n :
  0 < m -> 0 <= n -> Zdigits2 (m * 2 ^ n) = Zdigits2 m + n.
Proof.
  intros Hm Hn. destruct (Zdigits2_bounds m) as (Hd & Hlo & Hhi); [lia |].
  pose proof (pow2_pos n Hn).
  apply Zdigits2_unique; [lia |].
  replace (Zdigits2 m + n - 1) with (Zdigits2 m - 1 + n) by lia.
  rewrite !pow2_add by lia. nia.
Qed.

Lemma Zdigits2_div_pow2 m n :
  0 <= m -> 0 <= n -> Zdigits2 (m / 2 ^ n) = Z.max 0 (Zdigits2 m - n).
Proof.
  intros Hm Hn. pose proof (pow2_pos n Hn) as Hp.
  destruct (Z.eq_dec m 0) as [-> | Hne].
  { rewrite Z.div_0_l by lia. cbn. lia. }
  destruct (Zdigits2_bounds m) as (Hd & Hlo & Hhi); [lia |].
  destruct (Z_lt_le_dec n (Zdigits2 m)) as [Hlt | Hge].
  - rewrite Z.max_r by lia. apply Zdigits2_unique; [lia |]. split.
    + apply Z.div_le_lower_bound; [lia |].
      rewrite <- pow2_add by lia.
      replace (n + (Zdigits2 m - n - 1)) with (Zdigits2 m - 1) by lia. lia.
    + apply Z.div_lt_upper_bound; [lia |].
      rewrite <- pow2_add by lia.
      replace (n + (Zdigits2 m - n)) with (Zdigits2 m) by lia. lia.
  - rewrite Z.max_l by lia.
    rewrite Z.div_small; [reflexivity |].
    pose proof (pow2_le (Zdigits2 m) n). lia.
Qed.

Lemma Zdigits2_succ m :
  0 <= m ->
  Zdigits2 (m + 1) <= Zdigits2 m + 1 /\
  (Zdigits2 (m + 1) = Zdigits2 m + 1 -> m + 1 = 2 ^ Zdigits2 m).
Proof.
  intros Hm. pose proof (Zdigits2_nonneg m) as Hd.
  assert (Hhi : m < 2 ^ Zdigits2 m) by (apply Zdigits2_le_iff; lia).
  destruct (Zdigits2_bounds (m + 1)) as (Hd1 & Hlo1 & Hhi1); [lia |].
  split.
  - apply Zdigits2_le_iff; [lia | lia |]. rewrite pow2_succ by lia. lia.
  - intros E. rewrite E in Hlo1.
    replace (Zdigits2 m + 1 - 1) with (Zdigits2 m) in Hlo1 by lia. lia.
Qed.


Lemma iter_pos_invariant {A} (f : A -> A) (P : Z -> A -> Prop) :
  (forall k x, 0 <= k -> P k x -> P (k + 1) (f x)) ->
  forall p k x, 0 <= k -> P k x -> P (k + Zpos p) (SpecFloat.iter_pos f p x).
Proof.
  intros Hstep. induction p as [p IH | p IH |]; intros k x Hk HP; cbn [SpecFloat.iter_pos].
  - replace (k + Zpos p~1) with (k + 1 + Zpos p + Zpos p) by lia.
    apply IH; [lia |]. apply IH; [lia |]. apply Hstep; assumption.
  - replace (k + Zpos p~0) with (k + Zpos p + Zpos p) by lia.
    apply IH; [lia |]. apply IH; assumption.
  - apply Hstep; assumption.
Qed.

Lemma shr_1_fields r :
  0 <= shr_m r ->
  shr_m (shr_1 r) = shr_m r / 2 /\
  shr_r (shr_1 r) = Z.odd (shr_m r) /\
  shr_s (shr_1 r) = shr_r r || shr_s r.
Proof.
  destruct r as [m rb sb]; cbn [shr_m shr_r shr_s]; intros Hm.
  rewrite <- Z.div2_div.
  destruct m as [| [p | p |] | p]; try lia; cbn; auto.
Qed.

Lemma shr_1_repr N D r :
  0 <= N -> 0 < D -> shr_repr N D r -> shr_repr N (D * 2) (shr_1 r).
Proof.
  intros HN HD [Hm Hex].
  assert (0 <= shr_m r) as Hpos by (rewrite Hm; apply Z.div_pos; lia).
  destruct (shr_1_fields r Hpos) as (Em & Er & Es).
  split.
  - rewrite Em, Hm. apply Z.div_div; lia.
  - intros Hmod.
    assert (N mod D = 0 /\ Z.odd (N / D) = false) as [HmodD Hodd].
    { apply Z.mod_divide in Hmod; [| lia]. destruct Hmod as [k Hk].
      subst N. split.
      - apply Z.mod_divide; [lia |]. exists (k * 2). lia.
      - replace (k * (D * 2)) with ((2 * k) * D) by lia.
        rewrite Z.div_mul by lia. apply Z.odd_even. }
    destruct (Hex HmodD) as [Hr Hs].
    rewrite Er, Es, Hm, Hodd, Hr, Hs. auto.
Qed.

Lemma shr_repr_shr N D r e n :
  0 <= N -> 0 < D -> shr_repr N D r ->
  shr_repr N (D * 2 ^ Z.max 0 n) (fst (shr r e n)) /\
  snd (shr r e n) = e + Z.max 0 n.
Proof.
  intros HN HD Hr. destruct n as [| p | p]; cbn [shr fst snd].
  - rewrite Z.max_l by lia. change (2 ^ 0) with 1. rewrite Z.mul_1_r. split; [assumption | lia].
  - rewrite Z.max_r by lia. split; [| reflexivity].
    pose proof (iter_pos_invariant shr_1
      (fun k x => shr_repr N (D * 2 ^ k) x)) as Hit.
    change (Zpos p) with (0 + Zpos p). apply Hit; [| lia |].
    + intros k x Hk Hx. rewrite pow2_succ by lia.
      replace (D * (2 * 2 ^ k)) with (D * 2 ^ k * 2) by lia.
      apply shr_1_repr; [lia | | assumption].
      pose proof (pow2_pos k Hk). nia.
    + change (2 ^ 0) with 1. rewrite Z.mul_1_r. assumption.
  - rewrite Z.max_l by lia. change (2 ^ 0) with 1. rewrite Z.mul_1_r. split; [assumption | lia].
Qed.

Lemma shr_record_of_loc_repr N D l :
  (N mod D = 0 -> l = loc_Exact) -> shr_repr N D (shr_record_of_loc (N / D) l).
Proof.
  intros Hl. split.
  - destruct l as [| []]; reflexivity.
  - intros Hmod. rewrite (Hl Hmod). cbn. auto.
Qed.

Lemma round_nearest_even_repr N D r :
  shr_repr N D r ->
  let m1 := round_nearest_even (shr_m r) (loc_of_shr_record r) in
  N / D <= m1 <= N / D + 1 /\ (N mod D = 0 -> m1 = N / D).
Proof.
  intros [Hm Hex]. destruct r as [m rb sb]; cbn [shr_m shr_r shr_s] in *.
  subst m. split.
  - destruct rb, sb; cbn; try lia; destruct (Z.even (N / D)); lia.
  - intros Hmod. destruct (Hex Hmod) as [Hr Hs]. subst rb sb. reflexivity.
Qed.

(** ** One rounding step of binary32 *)

Lemma fexp_eq e : fexp B32.prec B32.emax e = Z.max (e - 24) (-149).
Proof. reflexivity. Qed.


Lemma binary_round_aux_char mx ex lx N D :
  0 <= N -> 0 < D -> mx = N / D -> (N mod D = 0 -> lx = loc_Exact) ->
  (ex <= fexp B32.prec B32.emax (Zdigits2 mx + ex) \/ N mod D = 0) ->
  let e1 := Z.max ex (fexp B32.prec B32.emax (Zdigits2 mx + ex)) in
  let T := D * 2 ^ (e1 - ex) in
  exists m1 m2 e2,
    binary_round_aux B32.prec B32.emax false mx ex lx = mk_float m2 e2 /\
    (N / T <= m1 <= N / T + 1) /\ (N mod T = 0 -> m1 = N / T) /\
    e1 <= e2 /\ 0 <= m2 /\ m1 = m2 * 2 ^ (e2 - e1) /\
    fexp B32.prec B32.emax (Zdigits2 m2 + e2) <= e2 /\
    (ex <= fexp B32.prec B32.emax (Zdigits2 mx + ex) ->
     fexp B32.prec B32.emax (Zdigits2 m2 + e2) = e2).
Proof.
  intros HN HD Hmx Hlx Hn. cbv zeta.
  pose proof (fexp_eq (Zdigits2 mx + ex)) as Hfx.
  unfold binary_round_aux, shr_fexp.
  remember (fexp B32.prec B32.emax (Zdigits2 mx + ex)) as fx eqn:Efx. clear Efx.
  remember (Z.max ex fx) as e1 eqn:He1.
  remember (D * 2 ^ (e1 - ex)) as T eqn:ET.
  assert (Hmx0 : 0 <= mx) by (subst mx; apply Z.div_pos; lia).
  assert (Hs : 0 <= e1 - ex) by lia.
  pose proof (pow2_pos _ Hs) as Hps.
  pose proof (Zdigits2_nonneg mx) as Hdmx.
  (* first shift *)
  pose proof (shr_repr_shr N D (shr_record_of_loc mx lx) ex (fx - ex) HN HD) as H1.
  rewrite Hmx in H1 at 1. specialize (H1 (shr_record_of_loc_repr N D lx Hlx)).
  replace (Z.max 0 (fx - ex)) with (e1 - ex) in H1 by lia.
  rewrite <- ET in H1. destruct H1 as [Hr1 He1'].
  destruct (shr (shr_record_of_loc mx lx) ex _) as [r1 e1'].
  cbn [fst snd] in Hr1, He1'.
  assert (Ee1 : e1' = e1) by lia. clear He1'. subst e1'.
  pose proof (round_nearest_even_repr _ _ _ Hr1) as Hrne. cbn zeta in Hrne.
  remember (round_nearest_even (shr_m r1) (loc_of_shr_record r1)) as m1 eqn:Em1.
  clear Em1. destruct Hrne as [Hbr Hexact].
  (* the floor mantissa and its digits *)
  assert (Efloor : N / T = mx / 2 ^ (e1 - ex)).
  { rewrite ET, Hmx. symmetry. apply Z.div_div; lia. }
  assert (Hfloor0 : 0 <= N / T) by (rewrite Efloor; apply Z.div_pos; lia).
  pose proof (Zdigits2_div_pow2 mx (e1 - ex) Hmx0 Hs) as Hdfl. rewrite <- Efloor in Hdfl.
  assert (Hm1 : m1 = N / T \/ m1 = N / T + 1 /\ N mod T <> 0).
  { destruct (Z.eq_dec (N mod T) 0) as [E | E]; [left; auto |].
    destruct (Z.eq_dec m1 (N / T)); [left; assumption | right; split; [lia | assumption]]. }
  assert (HnT : N mod T <> 0 -> ex <= fx).
  { intros HT. destruct (Z_le_gt_dec ex fx); [assumption | exfalso].
    destruct Hn as [Hn | Hn]; [lia |]. apply HT. rewrite ET.
    replace (e1 - ex) with 0 by lia. change (2 ^ 0) with 1. now rewrite Z.mul_1_r. }
  pose proof (Zdigits2_succ (N / T) Hfloor0) as [Hsucc1 Hsucc2].
  assert (Hm10 : 0 <= m1) by lia.
  (* second shift *)
  pose proof (fexp_eq (Zdigits2 m1 + e1)) as Hf1.
  remember (fexp B32.prec B32.emax (Zdigits2 m1 + e1)) as f1 eqn:Ef1. clear Ef1.
  pose proof (shr_repr_shr m1 1 (shr_record_of_loc m1 loc_Exact) e1
                (f1 - e1) Hm10 ltac:(lia)) as H2.
  assert (Hr0 : shr_repr m1 1 (shr_record_of_loc m1 loc_Exact)).
  { pose proof (shr_record_of_loc_repr m1 1 loc_Exact) as Hx.
    rewrite Z.div_1_r in Hx. apply Hx. reflexivity. }
  specialize (H2 Hr0). destruct H2 as [[Hm2 _] He2].
  destruct (shr (shr_record_of_loc m1 loc_Exact) e1 _) as [r2 e2].
  cbn [fst snd] in Hm2, He2. rewrite Z.mul_1_l in Hm2.
  remember (shr_m r2) as m2 eqn:Em2.
  assert (Hn2 : f1 - e1 <= 0 \/
                f1 - e1 = 1 /\ m1 = 2 ^ Zdigits2 (N / T) /\ 1 <= Zdigits2 (N / T)
                  /\ Zdigits2 m1 = Zdigits2 (N / T) + 1).
  { destruct Hm1 as [E | [E HT]].
    - left. rewrite E in Hf1. lia.
    - specialize (HnT HT). rewrite E in Hf1.
      destruct (Z.eq_dec (Zdigits2 (N / T + 1)) (Zdigits2 (N / T) + 1)) as [Ed | Ed].
      + destruct (Z_le_gt_dec (f1 - e1) 0); [left; assumption | right].
        rewrite E. rewrite (Hsucc2 Ed) at 1. rewrite Ed in Hf1. lia.
      + left.
        assert (Zdigits2 (N / T + 1) = Zdigits2 (N / T)) as Ed'.
        { pose proof (Zdigits2_mono (N / T) (N / T + 1)). lia. }
        rewrite Ed' in Hf1. lia. }
  exists m1, m2, e2.
  assert (Hd2 : f1 - e1 <= 0 /\ m2 = m1 /\ e2 = e1 \/
                f1 - e1 = 1 /\ m1 = m2 * 2 /\ 0 < m2 /\
                Zdigits2 m2 + 1 = Zdigits2 m1 /\ e2 = e1 + 1).
  { destruct Hn2 as [Hle | (E1 & Ep & Hk & Ed)].
    - left. rewrite Z.max_l in * by lia. change (2 ^ 0) with 1 in Hm2.
      rewrite Z.div_1_r in Hm2. lia.
    - right. rewrite E1 in *. rewrite Z.max_r in * by lia. change (2 ^ 1) with 2 in Hm2.
      replace (Zdigits2 (N / T)) with (Zdigits2 (N / T) - 1 + 1) in Ep by lia.
      rewrite pow2_succ in Ep by lia.
      pose proof (pow2_pos (Zdigits2 (N / T) - 1) ltac:(lia)) as Hpp.
      assert (Em : m2 = 2 ^ (Zdigits2 (N / T) - 1)).
      { rewrite Hm2, Ep, Z.mul_comm. apply Z.div_mul. lia. }
      split; [reflexivity |]. split; [lia |]. split; [lia |]. split; [| lia].
      rewrite Ed. assert (Zdigits2 m2 = Zdigits2 (N / T)); [| lia].
      apply Zdigits2_unique; [lia |].
      replace (Zdigits2 (N / T)) with (Zdigits2 (N / T) - 1 + 1) at 2 by lia.
      rewrite pow2_succ by lia. lia. }
  pose proof (fexp_eq (Zdigits2 m2 + e2)) as Hf2.
  remember (fexp B32.prec B32.emax (Zdigits2 m2 + e2)) as f2 eqn:Ef2. clear Ef2.
  split; [| split; [assumption | split; [assumption |]]].
  { unfold mk_float. subst m2. destruct (shr_m r2); reflexivity. }
  clear He2 Hm2 Em2.
  destruct Hd2 as [(Hle & E2 & Ee) | (E1 & E2 & Hpos & Ed & Ee)].
  - subst m2 e2. replace (e1 - e1) with 0 by lia. change (2 ^ 0) with 1.
    split; [lia |]. split; [lia |]. split; [lia |]. split; [lia |].
    intros Hnn.
    assert (Zdigits2 (N / T) <= Zdigits2 m1).
    { destruct Hm1 as [E | [E _]]; rewrite E; [lia |].
      apply Zdigits2_mono; lia. }
    lia.
  - rewrite Ee. replace (e1 + 1 - e1) with 1 by lia. change (2 ^ 1) with 2.
    split; [lia |]. split; [lia |]. split; [lia |]. split; [lia |].
    intros _. lia.
Qed.

(** ** Comparing dyadic numbers

    [m * 2 ^ (e + c)] is the number [m * 2 ^ e] counted in units of
    [2 ^ (- c)]; the offset [c] is any that makes the exponents in sight
    non-negative. *)

Lemma le_scale a b k : 0 <= k -> a * 2 ^ k <= b * 2 ^ k <-> a <= b.
Proof. intros Hk. pose proof (pow2_pos k Hk). split; nia. Qed.

Lemma lt_scale a b k : 0 <= k -> a * 2 ^ k < b * 2 ^ k <-> a < b.
Proof. intros Hk. pose proof (pow2_pos k Hk). split; nia. Qed.

Lemma magnitude_lt m e K E c :
  0 < m -> 0 <= K -> Zdigits2 K + E < Zdigits2 m + e ->
  0 <= e + c -> 0 <= E + c ->
  K * 2 ^ (E + c) < m * 2 ^ (e + c).
Proof.
  intros Hm HK Hlt He HE.
  destruct (Zdigits2_bounds m Hm) as (Hd & Hlo & _).
  pose proof (Zdigits2_nonneg K) as HdK.
  assert (HKhi : K < 2 ^ Zdigits2 K) by (apply Zdigits2_le_iff; lia).
  pose proof (pow2_pos (E + c) HE) as HpE.
  pose proof (pow2_pos (e + c) He) as Hpe.
  assert (Hmid : 2 ^ (Zdigits2 K + (E + c)) <= 2 ^ (Zdigits2 m - 1 + (e + c)))
    by (apply pow2_le; lia).
  rewrite (pow2_add (Zdigits2 K)), (pow2_add (Zdigits2 m - 1)) in Hmid by lia.
  apply Z.lt_le_trans with (2 ^ Zdigits2 K * 2 ^ (E + c)).
  - apply Z.mul_lt_mono_pos_r; assumption.
  - apply Z.le_trans with (2 ^ (Zdigits2 m - 1) * 2 ^ (e + c)); [assumption |].
    apply Z.mul_le_mono_nonneg_r; lia.
Qed.

Lemma canonical_exponent_le m e K E c :
  0 < m -> 0 < K ->
  fexp B32.prec B32.emax (Zdigits2 m + e) = e ->
  fexp B32.prec B32.emax (Zdigits2 K + E) = E ->
  0 <= e + c -> 0 <= E + c ->
  m * 2 ^ (e + c) <= K * 2 ^ (E + c) -> e <= E.
Proof.
  intros Hm HK Cm CK He HE Hle. rewrite fexp_eq in Cm, CK.
  destruct (Z_le_gt_dec e E) as [| Hgt]; [assumption | exfalso].
  assert (Zdigits2 K + E < Zdigits2 m + e) as Hlt by lia.
  pose proof (magnitude_lt m e K E c Hm ltac:(lia) Hlt He HE). lia.
Qed.

Lemma canonical_unique m e K E :
  0 < m -> 0 < K ->
  fexp B32.prec B32.emax (Zdigits2 m + e) = e ->
  fexp B32.prec B32.emax (Zdigits2 K + E) = E ->
  m * 2 ^ (e + 149) = K * 2 ^ (E + 149) -> m = K /\ e = E.
Proof.
  intros Hm HK Cm CK Heq.
  assert (-149 <= e /\ -149 <= E) as [He HE] by (rewrite fexp_eq in Cm, CK; lia).
  assert (e <= E) by (apply (canonical_exponent_le m e K E 149); lia).
  assert (E <= e) by (apply (canonical_exponent_le K E m e 149); lia).
  assert (e = E) by lia. subst E. split; [| reflexivity].
  pose proof (pow2_pos (e + 149) ltac:(lia)). nia.
Qed.

Lemma ceil_le N T K m1 :
  0 < T -> N <= K * T ->
  m1 <= N / T + 1 -> (N mod T = 0 -> m1 = N / T) -> m1 <= K.
Proof.
  intros HT Hle Hm1 Hex.
  pose proof (Z.div_mod N T ltac:(lia)) as Hdm.
  pose proof (Z.mod_pos_bound N T HT) as Hmod.
  destruct (Z.eq_dec (N mod T) 0) as [E | E].
  - rewrite (Hex E). rewrite E in Hdm. nia.
  - assert (N / T < K) by nia. lia.
Qed.

Lemma floor_ge N T K m1 :
  0 < T -> K * T <= N -> N / T <= m1 -> K <= m1.
Proof.
  intros HT Hle Hm1.
  assert (K <= N / T) by (apply Z.div_le_lower_bound; lia). lia.
Qed.

(** The result of one rounding lies between the canonical numbers that
    enclose the exact value. *)
Lemma binary_round_aux_faithful mx ex lx N D :
  0 <= N -> 0 < D -> mx = N / D -> (N mod D = 0 -> lx = loc_Exact) ->
  ex <= fexp B32.prec B32.emax (Zdigits2 mx + ex) ->
  exists m e,
    binary_round_aux B32.prec B32.emax false mx ex lx = mk_float m e /\
    0 <= m /\ ex <= e /\
    fexp B32.prec B32.emax (Zdigits2 m + e) = e /\
    (forall K E c,
        0 < K -> fexp B32.prec B32.emax (Zdigits2 K + E) = E ->
        0 <= ex + c -> 0 <= E + c ->
        N * 2 ^ (ex + c) <= K * 2 ^ (E + c) * D ->
        m * 2 ^ (e + c) <= K * 2 ^ (E + c)) /\
    (forall K E c,
        0 < K -> fexp B32.prec B32.emax (Zdigits2 K + E) = E ->
        0 <= ex + c -> 0 <= E + c ->
        K * 2 ^ (E + c) * D <= N * 2 ^ (ex + c) ->
        K * 2 ^ (E + c) <= m * 2 ^ (e + c)).
Proof.
  intros HN HD Hmx Hlx Hn.
  destruct (binary_round_aux_char mx ex lx N D HN HD Hmx Hlx (or_introl Hn))
    as (m1 & m2 & e2 & Hres & Hbr & Hexact & He12 & Hm20 & Hm12 & _ & Hcan).
  specialize (Hcan Hn).
  pose proof (fexp_eq (Zdigits2 mx + ex)) as Hfx.
  remember (fexp B32.prec B32.emax (Zdigits2 mx + ex)) as fx eqn:Efx. clear Efx.
  rewrite Z.max_r in * by lia.
  remember (D * 2 ^ (fx - ex)) as T eqn:ET.
  assert (Hmx0 : 0 <= mx) by (subst mx; apply Z.div_pos; lia).
  pose proof (Zdigits2_nonneg mx) as Hdmx.
  pose proof (pow2_pos (fx - ex) ltac:(lia)) as HpS.
  assert (HT : 0 < T) by nia.
  assert (Hval : forall c, 0 <= ex + c ->
            m2 * 2 ^ (e2 + c) = m1 * 2 ^ (fx - ex) * 2 ^ (ex + c)).
  { intros c Hc. rewrite Hm12.
    replace (e2 + c) with ((e2 - fx) + ((fx - ex) + (ex + c))) by lia.
    rewrite (pow2_add (e2 - fx)), (pow2_add (fx - ex)) by lia. ring. }
  assert (HmxN : mx * D <= N).
  { subst mx. pose proof (Z.div_mod N D ltac:(lia)).
    pose proof (Z.mod_pos_bound N D HD). nia. }
  (* a canonical number below the binade of the input is smaller than it *)
  assert (Hbig : forall K E c, 0 < K -> fexp B32.prec B32.emax (Zdigits2 K + E) = E ->
            0 <= ex + c -> 0 <= E + c -> E < fx ->
            0 < mx /\ K * 2 ^ (E + c) * D < mx * 2 ^ (ex + c) * D /\
            fx = Zdigits2 mx + ex - 24).
  { intros K E c HK CK Hc HEc Hlt. rewrite fexp_eq in CK.
    pose proof (Zdigits2_nonneg K).
    assert (0 < mx).
    { destruct (Z.eq_dec mx 0) as [E0 | E0]; [| lia]. rewrite E0 in Hfx. cbn in Hfx. lia. }
    split; [assumption |]. split; [| lia].
    assert (K * 2 ^ (E + c) < mx * 2 ^ (ex + c)); [| nia].
    apply magnitude_lt; lia. }
  exists m2, e2. split; [assumption |]. split; [assumption |]. split; [lia |].
  split; [assumption |]. split.
  - intros K E c HK CK Hc HEc Hle. rewrite (Hval c Hc).
    destruct (Z_le_gt_dec fx E) as [HfE | HfE].
    + replace (E + c) with ((E - fx) + ((fx - ex) + (ex + c))) in * by lia.
      rewrite (pow2_add (E - fx)), (pow2_add (fx - ex)) in * by lia.
      pose proof (pow2_pos (E - fx) ltac:(lia)) as HpU.
      pose proof (pow2_pos (ex + c) Hc) as HpA.
      assert (m1 <= K * 2 ^ (E - fx)); [| nia].
      apply (ceil_le N T); [assumption | | lia | assumption].
      subst T. nia.
    + exfalso. destruct (Hbig K E c HK CK Hc HEc ltac:(lia)) as (_ & Hlt & _).
      pose proof (pow2_pos (ex + c) Hc). nia.
  - intros K E c HK CK Hc HEc Hle. rewrite (Hval c Hc).
    destruct (Z_le_gt_dec fx E) as [HfE | HfE].
    + replace (E + c) with ((E - fx) + ((fx - ex) + (ex + c))) in * by lia.
      rewrite (pow2_add (E - fx)), (pow2_add (fx - ex)) in * by lia.
      pose proof (pow2_pos (E - fx) ltac:(lia)) as HpU.
      pose proof (pow2_pos (ex + c) Hc) as HpA.
      assert (K * 2 ^ (E - fx) <= m1); [| nia].
      apply (floor_ge N T); [assumption | | lia].
      subst T. nia.
    + destruct (Hbig K E c HK CK Hc HEc ltac:(lia)) as (Hmxp & _ & Efx).
      (* the floor mantissa has all 24 digits *)
      assert (Efl : N / T = mx / 2 ^ (fx - ex)).
      { rewrite ET, Hmx. symmetry. apply Z.div_div; lia. }
      pose proof (Zdigits2_div_pow2 mx (fx - ex) Hmx0 ltac:(lia)) as Hdfl.
      rewrite <- Efl in Hdfl. rewrite Z.max_r in Hdfl by lia.
      assert (Hd1 : Zdigits2 (N / T) <= Zdigits2 m1).
      { apply Zdigits2_mono. split; [| lia]. rewrite Efl. apply Z.div_pos; lia. }
      assert (Hlt : K * 2 ^ (E + c) < m1 * 2 ^ (fx + c)).
      { apply magnitude_lt; try lia.
        - assert (0 < N / T); [| lia].
          destruct (Z.eq_dec (N / T) 0) as [E0 | E0].
          + rewrite E0 in Hdfl. cbn in Hdfl. lia.
          + rewrite Efl in *. pose proof (Z.div_pos mx (2 ^ (fx - ex)) Hmx0 HpS). lia.
        - rewrite fexp_eq in CK. lia. }
      replace (fx + c) with ((fx - ex) + (ex + c)) in Hlt by lia.
      rewrite (pow2_add (fx - ex)) in Hlt by lia. lia.
Qed.

(** ** Non-negative binary32 numbers and their values *)



Lemma bounded_iff m e :
  bounded B32.prec B32.emax m e = true <->
  fexp B32.prec B32.emax (Zdigits2 (Zpos m) + e) = e /\ e <= 104.
Proof.
  unfold bounded, canonical_mantissa. rewrite andb_true_iff, Z.eqb_eq, Z.leb_le.
  reflexivity.
Qed.

Lemma nonneg_valid_finite m e :
  nonneg_valid (S754_finite false m e) <->
  fexp B32.prec B32.emax (Zdigits2 (Zpos m) + e) = e /\ e <= 104.
Proof.
  cbn. rewrite bounded_iff. intuition.
Qed.

Lemma nonneg_valid_cases x :
  nonneg_valid x ->
  x = S754_zero false \/
  exists m e, x = S754_finite false m e /\
    fexp B32.prec B32.emax (Zdigits2 (Zpos m) + e) = e /\ -149 <= e <= 104.
Proof.
  destruct x as [s | s | | s m e]; cbn; try contradiction.
  - intros ->. left; reflexivity.
  - intros [-> Hb]. right. exists m, e. apply bounded_iff in Hb.
    destruct Hb as [Hc He]. pose proof Hc as Hc'. rewrite fexp_eq in Hc'.
    repeat split; try assumption; lia.
Qed.

Lemma units_nonneg x : 0 <= units x.
Proof.
  destruct x as [s | s | | [|] m e]; cbn [units]; lia.
Qed.

Lemma units_finite_pos m e :
  -149 <= e -> 0 < units (S754_finite false m e).
Proof.
  intros He. cbn [units]. pose proof (pow2_pos (e + 149) ltac:(lia)).
  apply Z.mul_pos_pos; lia.
Qed.

(** [mk_float] on a canonical mantissa and exponent. *)
Lemma mk_float_valid m e :
  0 <= m -> fexp B32.prec B32.emax (Zdigits2 m + e) = e -> e <= 104 ->
  nonneg_valid (mk_float m e) /\ units (mk_float m e) = m * 2 ^ (e + 149).
Proof.
  intros Hm Hc He. destruct m as [| p | p]; try lia; cbn [mk_float].
  - cbn. auto.
  - change (B32.emax - B32.prec) with 104.
    destruct (Z.leb_spec e 104); [| lia].
    split; [apply nonneg_valid_finite; auto | reflexivity].
Qed.

(** Every number [K * 2 ^ E] with fewer than 25 digits and an exponent in
    range is a binary32 number. *)
Lemma representable K E :
  0 <= K < 2 ^ 24 -> -149 <= E <= 104 ->
  exists x, nonneg_valid x /\ units x = K * 2 ^ (E + 149).
Proof.
  intros [HK0 HK] HE. destruct (Z.eq_dec K 0) as [-> | Hne].
  { exists (S754_zero false). cbn. auto. }
  assert (Hd : Zdigits2 K <= 24) by (apply Zdigits2_le_iff; lia).
  destruct (Zdigits2_bounds K ltac:(lia)) as (Hd0 & _).
  set (j := Z.min (24 - Zdigits2 K) (E + 149)).
  assert (Hj : 0 <= j) by (unfold j; lia).
  pose proof (pow2_pos j Hj) as Hpj.
  exists (mk_float (K * 2 ^ j) (E - j)).
  assert (Hdig : Zdigits2 (K * 2 ^ j) = Zdigits2 K + j)
    by (apply Zdigits2_mul_pow2; lia).
  destruct (mk_float_valid (K * 2 ^ j) (E - j)) as [Hv Hu].
  - nia.
  - rewrite fexp_eq, Hdig. unfold j. lia.
  - lia.
  - split; [assumption |]. rewrite Hu.
    replace (E + 149) with (j + (E - j + 149)) by lia.
    rewrite (pow2_add j) by (unfold j; lia). ring.
Qed.

Lemma Zdigits2_mul_ge a b :
  0 < a -> 0 < b -> Zdigits2 a + Zdigits2 b - 1 <= Zdigits2 (a * b).
Proof.
  intros Ha Hb.
  destruct (Zdigits2_bounds a Ha) as (Hda & Hlo & _).
  destruct (Zdigits2_bounds b Hb) as (Hdb & Hlob & _).
  destruct (Z_le_gt_dec (Zdigits2 a + Zdigits2 b - 1) (Zdigits2 (a * b)))
    as [| Hgt]; [assumption | exfalso].
  assert (Hlt : a * b < 2 ^ (Zdigits2 a + Zdigits2 b - 2)).
  { pose proof (Zdigits2_nonneg (a * b)).
    apply Zdigits2_le_iff; nia. }
  replace (Zdigits2 a + Zdigits2 b - 2) with ((Zdigits2 a - 1) + (Zdigits2 b - 1)) in Hlt by lia.
  rewrite (pow2_add (Zdigits2 a - 1)) in Hlt by lia.
  pose proof (pow2_pos (Zdigits2 a - 1)). pose proof (pow2_pos (Zdigits2 b - 1)). nia.
Qed.

(** One rounding, stated on values: [X / Y] is the exact result in units
    of [2 ^ -149]; the rounded result stays below every binary32 number
    above the exact result and above every one below it. *)
Lemma round_faithful_units mx ex lx N D X Y c :
  0 <= N -> 0 < D -> mx = N / D -> (N mod D = 0 -> lx = loc_Exact) ->
  ex <= fexp B32.prec B32.emax (Zdigits2 mx + ex) ->
  149 <= c -> 0 <= ex + c -> 0 < Y -> 0 < X ->
  X * D * 2 ^ (c - 149) = N * 2 ^ (ex + c) * Y ->
  forall U, nonneg_valid U -> X <= units U * Y ->
    nonneg_valid (binary_round_aux B32.prec B32.emax false mx ex lx) /\
    units (binary_round_aux B32.prec B32.emax false mx ex lx) <= units U /\
    (forall L, nonneg_valid L -> units L * Y <= X ->
       units L <= units (binary_round_aux B32.prec B32.emax false mx ex lx)).
Proof.
  intros HN HD Hmx Hlx Hn Hc Hexc HY HX HXY U HU HXU.
  destruct (binary_round_aux_faithful mx ex lx N D HN HD Hmx Hlx Hn)
    as (m & e & Hres & Hm0 & Hee & Hcan & Hub & Hlb).
  rewrite Hres.
  pose proof (pow2_pos (c - 149) ltac:(lia)) as HpC.
  assert (He149 : -149 <= e) by (rewrite fexp_eq in Hcan; lia).
  assert (Hsplit : forall k z, -149 <= z ->
            k * 2 ^ (z + c) = k * 2 ^ (z + 149) * 2 ^ (c - 149)).
  { intros k z Hz. replace (z + c) with ((z + 149) + (c - 149)) by lia.
    rewrite (pow2_add (z + 149)) by lia. ring. }
  (* the two bounds in units *)
  assert (HubU : forall K E, nonneg_valid (S754_finite false K E) ->
            X <= Zpos K * 2 ^ (E + 149) * Y -> m * 2 ^ (e + 149) <= Zpos K * 2 ^ (E + 149)).
  { intros K E HKE HXK. apply nonneg_valid_finite in HKE. destruct HKE as [CK HE].
    assert (-149 <= E) by (rewrite fexp_eq in CK; lia).
    apply (le_scale _ _ (c - 149)); [lia |].
    rewrite <- !Hsplit by lia. apply Hub; try lia; try assumption.
    rewrite (Hsplit _ E) by lia.
    assert (N * 2 ^ (ex + c) * Y <= Z.pos K * 2 ^ (E + 149) * 2 ^ (c - 149) * D * Y); [| nia].
    rewrite <- HXY. nia. }
  assert (HlbU : forall K E, nonneg_valid (S754_finite false K E) ->
            Zpos K * 2 ^ (E + 149) * Y <= X -> Zpos K * 2 ^ (E + 149) <= m * 2 ^ (e + 149)).
  { intros K E HKE HXK. apply nonneg_valid_finite in HKE. destruct HKE as [CK HE].
    assert (-149 <= E) by (rewrite fexp_eq in CK; lia).
    apply (le_scale _ _ (c - 149)); [lia |].
    rewrite <- !Hsplit by lia. apply Hlb; try lia; try assumption.
    rewrite (Hsplit _ E) by lia.
    assert (Z.pos K * 2 ^ (E + 149) * 2 ^ (c - 149) * D * Y <= N * 2 ^ (ex + c) * Y); [| nia].
    rewrite <- HXY. nia. }
  destruct (nonneg_valid_cases U HU) as [-> | (K & E & -> & CU & HE)].
  { exfalso. cbn [units] in HXU. lia. }
  assert (HUv : nonneg_valid (S754_finite false K E)) by (apply nonneg_valid_finite; split; [assumption | lia]).
  pose proof (HubU K E HUv HXU) as HleU.
  destruct (Z.eq_dec m 0) as [-> | Hmne].
  { cbn [mk_float]. cbn [units nonneg_valid]. repeat split; try lia.
    intros L HL HLle.
    destruct (nonneg_valid_cases L HL) as [-> | (KL & EL & -> & CL & HEL)];
      [cbn; lia | exfalso].
    pose proof (HlbU KL EL HL HLle) as Hcontra.
    pose proof (pow2_pos (EL + 149) ltac:(lia)). nia. }
  assert (HeE : e <= E).
  { apply (canonical_exponent_le m e (Zpos K) E 149); try lia; assumption. }
  destruct (mk_float_valid m e Hm0 Hcan ltac:(lia)) as [Hv Hu].
  rewrite Hu. split; [assumption |]. split; [exact HleU |].
  intros L HL HLle.
  destruct (nonneg_valid_cases L HL) as [-> | (KL & EL & -> & CL & HEL)].
  { cbn [units]. pose proof (pow2_pos (e + 149) ltac:(lia)). nia. }
  exact (HlbU KL EL HL HLle).
Qed.

(** *** Multiplication *)

Lemma mul_faithful x y U :
  nonneg_valid x -> nonneg_valid y -> nonneg_valid U ->
  units x * units y <= units U * 2 ^ 149 ->
  nonneg_valid (B32.mul x y) /\
  units (B32.mul x y) <= units U /\
  (forall L, nonneg_valid L -> units L * 2 ^ 149 <= units x * units y ->
             units L <= units (B32.mul x y)).
Proof.
  intros Hx Hy HU Hle.
  pose proof (units_nonneg U) as HU0.
  assert (Hzero : forall z, z = S754_zero false ->
            nonneg_valid z /\ units z <= units U /\
            (forall L, nonneg_valid L -> units L * 2 ^ 149 <= 0 -> units L <= units z)).
  { intros z ->. cbn [nonneg_valid units]. repeat split; lia. }
  destruct (nonneg_valid_cases x Hx) as [-> | (mx & ex & -> & Cx & Hex)].
  { destruct (nonneg_valid_cases y Hy) as [-> | (my & ey & -> & _)];
      cbn [B32.mul SFmul xorb]; apply Hzero; reflexivity. }
  destruct (nonneg_valid_cases y Hy) as [-> | (my & ey & -> & Cy & Hey)].
  { cbn [B32.mul SFmul xorb]. rewrite Z.mul_0_r. apply Hzero; reflexivity. }
  unfold B32.mul; cbn [SFmul xorb].
  pose proof (Zdigits2_mul_ge (Zpos mx) (Zpos my) ltac:(lia) ltac:(lia)) as Hdig.
  destruct (Zdigits2_bounds (Zpos mx) ltac:(lia)) as (Hdx & _).
  destruct (Zdigits2_bounds (Zpos my) ltac:(lia)) as (Hdy & _).
  pose proof (units_finite_pos mx ex ltac:(lia)) as Hux.
  pose proof (units_finite_pos my ey ltac:(lia)) as Huy.
  assert (H3 : Zpos (mx * my) = Zpos (mx * my) / 1) by (now rewrite Z.div_1_r).
  assert (H5 : ex + ey <= fexp B32.prec B32.emax (Zdigits2 (Zpos (mx * my)) + (ex + ey))).
  { rewrite fexp_eq in *. rewrite Pos2Z.inj_mul. lia. }
  assert (H8 : 0 < 2 ^ 149) by (apply pow2_pos; lia).
  assert (H9 : 0 < units (S754_finite false mx ex) * units (S754_finite false my ey))
    by (apply Z.mul_pos_pos; assumption).
  assert (H10 : units (S754_finite false mx ex) * units (S754_finite false my ey)
                * 1 * 2 ^ (298 - 149)
                = Zpos (mx * my) * 2 ^ (ex + ey + 298) * 2 ^ 149).
  { cbn [units]. rewrite Pos2Z.inj_mul. change (298 - 149) with 149.
    replace (ex + ey + 298) with ((ex + 149) + (ey + 149)) by lia.
    rewrite (pow2_add (ex + 149)) by lia. ring. }
  assert (H1 : 0 <= Zpos (mx * my)) by lia.
  assert (H7 : 0 <= ex + ey + 298) by lia.
  exact (round_faithful_units _ _ _ _ 1 _ _ 298 H1 Z.lt_0_1 H3
           (fun _ => eq_refl) H5 ltac:(lia) H7 H8 H9 H10 U HU Hle).
Qed.

(** *** Conversion from integers and addition *)

Lemma iter_xO m d : Zpos (Pos.iter xO m d) = Zpos m * 2 ^ Zpos d.
Proof.
  induction d as [| d IH] using Pos.peano_ind.
  - cbn [Pos.iter]. change (2 ^ 1) with 2. lia.
  - rewrite Pos.iter_succ, Pos2Z.inj_xO, IH, Pos2Z.inj_succ.
    unfold Z.succ. rewrite pow2_succ by lia. ring.
Qed.

Lemma shl_align_spec mx ex ex' :
  snd (shl_align mx ex ex') = Z.min ex ex' /\
  Zpos (fst (shl_align mx ex ex')) = Zpos mx * 2 ^ (ex - Z.min ex ex').
Proof.
  unfold shl_align. destruct (ex' - ex) as [| p | p] eqn:E; cbn [fst snd].
  - rewrite Z.min_l by lia. rewrite Z.sub_diag. change (2 ^ 0) with 1. lia.
  - rewrite Z.min_l by lia. rewrite Z.sub_diag. change (2 ^ 0) with 1. lia.
  - rewrite Z.min_r by lia. split; [reflexivity |].
    rewrite iter_xO. replace (ex - ex') with (Zpos p) by lia. reflexivity.
Qed.

Lemma binary_round_units m e U :
  -149 <= e -> nonneg_valid U -> Zpos m * 2 ^ (e + 149) <= units U ->
  nonneg_valid (binary_round B32.prec B32.emax false m e) /\
  units (binary_round B32.prec B32.emax false m e) <= units U /\
  (forall L, nonneg_valid L -> units L <= Zpos m * 2 ^ (e + 149) ->
     units L <= units (binary_round B32.prec B32.emax false m e)).
Proof.
  intros He HU Hle. unfold binary_round.
  pose proof (fexp_eq (Zpos (digits2_pos m) + e)) as Hf.
  remember (fexp B32.prec B32.emax (Zpos (digits2_pos m) + e)) as f eqn:Ef. clear Ef.
  destruct (shl_align_spec m e f) as [Hez Hmz].
  destruct (shl_align m e f) as [mz ez]. cbn [fst snd] in Hez, Hmz.
  destruct (Zdigits2_bounds (Zpos m) ltac:(lia)) as (Hd & _).
  change (Zpos (digits2_pos m)) with (Zdigits2 (Zpos m)) in Hf.
  assert (H3 : Zpos mz = Zpos mz / 1) by (now rewrite Z.div_1_r).
  assert (H5 : ez <= fexp B32.prec B32.emax (Zdigits2 (Zpos mz) + ez)).
  { rewrite fexp_eq, Hmz, Zdigits2_mul_pow2 by lia. lia. }
  assert (H7 : 0 <= ez + 149) by lia.
  assert (H9 : 0 < Zpos m * 2 ^ (e + 149)).
  { pose proof (pow2_pos (e + 149) ltac:(lia)). apply Z.mul_pos_pos; lia. }
  assert (H10 : Zpos m * 2 ^ (e + 149) * 1 * 2 ^ (149 - 149)
                = Zpos mz * 2 ^ (ez + 149) * 1).
  { rewrite Hmz. change (2 ^ (149 - 149)) with 1.
    replace (e + 149) with ((e - Z.min e f) + (ez + 149)) by lia.
    rewrite (pow2_add (e - Z.min e f)) by lia. ring. }
  assert (H11 : Zpos m * 2 ^ (e + 149) <= units U * 1) by lia.
  destruct (round_faithful_units _ _ loc_Exact _ 1 _ 1 149 (Pos2Z.is_nonneg mz) Z.lt_0_1 H3
              (fun _ => eq_refl) H5 (Z.le_refl _) H7 Z.lt_0_1 H9 H10 U HU H11)
    as (Hv & Hu & Hl).
  split; [assumption |]. split; [assumption |].
  intros L HL HLle. apply Hl; [assumption | lia].
Qed.

Lemma of_int_units n U :
  0 <= n -> nonneg_valid U -> n * 2 ^ 149 <= units U ->
  nonneg_valid (B32.of_int n) /\
  units (B32.of_int n) <= units U /\
  (forall L, nonneg_valid L -> units L <= n * 2 ^ 149 -> units L <= units (B32.of_int n)).
Proof.
  intros Hn HU Hle. unfold B32.of_int, binary_normalize.
  destruct n as [| p | p]; try lia.
  - cbn [nonneg_valid units]. pose proof (units_nonneg U). repeat split; lia.
  - apply binary_round_units; try assumption; lia.
Qed.

Lemma add_faithful x y U :
  nonneg_valid x -> nonneg_valid y -> nonneg_valid U ->
  units x + units y <= units U ->
  nonneg_valid (B32.add x y) /\
  units (B32.add x y) <= units U /\
  (forall L, nonneg_valid L -> units L <= units x + units y ->
             units L <= units (B32.add x y)).
Proof.
  intros Hx Hy HU Hle.
  destruct (nonneg_valid_cases x Hx) as [-> | (mx & ex & -> & Cx & Hex)].
  { assert (E : B32.add (S754_zero false) y = y).
    { destruct (nonneg_valid_cases y Hy) as [-> | (my & ey & -> & _)]; reflexivity. }
    rewrite E. cbn [units] in *. split; [assumption |]. split; [lia |].
    intros L _ ?. lia. }
  destruct (nonneg_valid_cases y Hy) as [-> | (my & ey & -> & Cy & Hey)].
  { unfold B32.add; cbn [SFadd]. cbn [units] in *. split; [assumption |].
    split; [lia |]. intros L _ ?. lia. }
  unfold B32.add; cbn [SFadd cond_Zopp].
  destruct (shl_align_spec mx ex (Z.min ex ey)) as [_ Ha].
  destruct (shl_align_spec my ey (Z.min ex ey)) as [_ Hb].
  destruct (shl_align mx ex (Z.min ex ey)) as [a ea].
  destruct (shl_align my ey (Z.min ex ey)) as [b eb].
  cbn [fst snd] in *. cbn [Z.add binary_normalize].
  assert (Hsum : Zpos (a + b) * 2 ^ (Z.min ex ey + 149)
                 = units (S754_finite false mx ex) + units (S754_finite false my ey)).
  { cbn [units]. rewrite Pos2Z.inj_add, Ha, Hb.
    replace (Z.min ex (Z.min ex ey)) with (Z.min ex ey) by lia.
    replace (Z.min ey (Z.min ex ey)) with (Z.min ex ey) by lia.
    replace (ex + 149) with ((ex - Z.min ex ey) + (Z.min ex ey + 149)) by lia.
    replace (ey + 149) with ((ey - Z.min ex ey) + (Z.min ex ey + 149)) by lia.
    rewrite (pow2_add (ex - Z.min ex ey)), (pow2_add (ey - Z.min ex ey)) by lia.
    ring. }
  rewrite <- Hsum in *.
  apply binary_round_units; try assumption; lia.
Qed.

(** *** Division *)

Lemma new_location_exact nb : new_location nb 0 = loc_Exact.
Proof.
  unfold new_location, new_location_even, new_location_odd.
  destruct (Z.even nb); reflexivity.
Qed.

Lemma Zdigits2_div_ge a b s :
  0 < a -> 0 < b -> 0 <= s ->
  Zdigits2 a + s - Zdigits2 b <= Zdigits2 (a * 2 ^ s / b).
Proof.
  intros Ha Hb Hs.
  destruct (Zdigits2_bounds a Ha) as (Hda & Hlo & _).
  destruct (Zdigits2_bounds b Hb) as (Hdb & _ & Hhi).
  pose proof (pow2_pos s Hs) as Hps.
  pose proof (Zdigits2_nonneg (a * 2 ^ s / b)) as Hq.
  destruct (Z_le_gt_dec (Zdigits2 a + s - Zdigits2 b) 0) as [| Hpos]; [lia |].
  destruct (Z_le_gt_dec (Zdigits2 a + s - Zdigits2 b) (Zdigits2 (a * 2 ^ s / b)))
    as [| Hgt]; [assumption | exfalso].
  assert (Hlt : a * 2 ^ s / b < 2 ^ (Zdigits2 a + s - Zdigits2 b - 1)).
  { apply Zdigits2_le_iff; try lia. apply Z.div_pos; nia. }
  assert (Hge : 2 ^ (Zdigits2 a + s - Zdigits2 b - 1) <= a * 2 ^ s / b); [| lia].
  apply Z.div_le_lower_bound; [lia |].
  apply Z.le_trans with (2 ^ Zdigits2 b * 2 ^ (Zdigits2 a + s - Zdigits2 b - 1)).
  - apply Z.mul_le_mono_nonneg_r; [| lia].
    pose proof (pow2_pos (Zdigits2 a + s - Zdigits2 b - 1)). lia.
  - rewrite <- pow2_add by lia.
    replace (Zdigits2 b + (Zdigits2 a + s - Zdigits2 b - 1)) with ((Zdigits2 a - 1) + s) by lia.
    rewrite pow2_add by lia. apply Z.mul_le_mono_nonneg_r; lia.
Qed.

Lemma div_faithful x y U :
  nonneg_valid x -> nonneg_valid y -> 0 < units y -> nonneg_valid U ->
  units x * 2 ^ 149 <= units U * units y ->
  nonneg_valid (B32.div x y) /\
  units (B32.div x y) <= units U /\
  (forall L, nonneg_valid L -> units L * units y <= units x * 2 ^ 149 ->
             units L <= units (B32.div x y)).
Proof.
  intros Hx Hy Hy0 HU Hle.
  destruct (nonneg_valid_cases y Hy) as [-> | (my & ey & -> & Cy & Hey)];
    [cbn in Hy0; lia |].
  destruct (nonneg_valid_cases x Hx) as [-> | (mx & ex & -> & Cx & Hex)].
  { unfold B32.div; cbn [SFdiv xorb]. cbn [nonneg_valid units] in *.
    pose proof (units_nonneg U). split; [reflexivity |]. split; [lia |].
    intros L _ HL. pose proof (units_nonneg L). nia. }
  unfold B32.div; cbn [SFdiv xorb]. unfold SFdiv_core_binary.
  pose proof (fexp_eq (Zdigits2 (Zpos mx) + ex - (Zdigits2 (Zpos my) + ey))) as Hf.
  remember (fexp B32.prec B32.emax (Zdigits2 (Zpos mx) + ex - (Zdigits2 (Zpos my) + ey)))
    as f eqn:Ef. clear Ef.
  remember (Z.min f (ex - ey)) as e' eqn:Ee'.
  remember (ex - ey - e') as s eqn:Es.
  assert (Hs : 0 <= s) by lia.
  pose proof (pow2_pos s Hs) as Hps.
  assert (Hm' : match s with
                | Z0 => Zpos mx
                | Zpos _ => Z.shiftl (Zpos mx) s
                | Zneg _ => 0
                end = Zpos mx * 2 ^ s).
  { destruct s as [| p | p]; [change (2 ^ 0) with 1; lia | | lia].
    apply Z.shiftl_mul_pow2. lia. }
  rewrite Hm'.
  pose proof (Z.div_eucl_eq (Zpos mx * 2 ^ s) (Zpos my) ltac:(lia)) as Heu.
  pose proof (Z.mod_pos_bound (Zpos mx * 2 ^ s) (Zpos my) ltac:(lia)) as Hmod.
  assert (Eq : fst (Z.div_eucl (Zpos mx * 2 ^ s) (Zpos my)) = Zpos mx * 2 ^ s / Zpos my)
    by reflexivity.
  assert (Er : snd (Z.div_eucl (Zpos mx * 2 ^ s) (Zpos my)) = (Zpos mx * 2 ^ s) mod Zpos my)
    by reflexivity.
  destruct (Z.div_eucl (Zpos mx * 2 ^ s) (Zpos my)) as [q r].
  cbn [fst snd] in Eq, Er.
  destruct (Zdigits2_bounds (Zpos mx) ltac:(lia)) as (Hdx & _).
  destruct (Zdigits2_bounds (Zpos my) ltac:(lia)) as (Hdy & _).
  pose proof (Zdigits2_div_ge (Zpos mx) (Zpos my) s ltac:(lia) ltac:(lia) Hs) as Hdq.
  rewrite <- Eq in Hdq.
  assert (H1 : 0 <= Zpos mx * 2 ^ s) by nia.
  assert (H4 : (Zpos mx * 2 ^ s) mod Zpos my = 0 -> new_location (Zpos my) r = loc_Exact).
  { intros E0. rewrite Er, E0. apply new_location_exact. }
  assert (H5 : e' <= fexp B32.prec B32.emax (Zdigits2 q + e')).
  { rewrite fexp_eq. lia. }
  assert (H7 : 0 <= e' + 253) by lia.
  pose proof (units_finite_pos mx ex ltac:(lia)) as Hux.
  assert (H8 : 0 < units (S754_finite false mx ex) * 2 ^ 149).
  { apply Z.mul_pos_pos; [assumption | apply pow2_pos; lia]. }
  assert (H10 : units (S754_finite false mx ex) * 2 ^ 149 * Zpos my * 2 ^ (253 - 149)
                = Zpos mx * 2 ^ s * 2 ^ (e' + 253) * units (S754_finite false my ey)).
  { cbn [units]. change (253 - 149) with 104.
    transitivity (Zpos mx * Zpos my * 2 ^ (ex + 402)).
    - replace (ex + 402) with (((ex + 149) + 149) + 104) by lia.
      rewrite (pow2_add (ex + 149 + 149)), (pow2_add (ex + 149)) by lia. ring.
    - replace (ex + 402) with ((s + (e' + 253)) + (ey + 149)) by lia.
      rewrite (pow2_add (s + (e' + 253))), (pow2_add s) by lia. ring. }
  exact (round_faithful_units _ _ _ _ _ _ _ 253 H1 (Pos2Z.is_pos my) Eq H4 H5
           ltac:(lia) H7 Hy0 H8 H10 U HU Hle).
Qed.

(** *** Truncation *)

Lemma trunc_units x :
  nonneg_valid x ->
  B32.trunc x * 2 ^ 149 <= units x < (B32.trunc x + 1) * 2 ^ 149.
Proof.
  intros Hx.
  destruct (nonneg_valid_cases x Hx) as [-> | (m & e & -> & _ & He)].
  { cbn. lia. }
  cbn [B32.trunc units].
  destruct e as [| p | p].
  - change (2 ^ 0) with 1. lia.
  - rewrite (pow2_add (Zpos p)) by lia. pose proof (pow2_pos 149). nia.
  - pose proof (pow2_pos (Zpos p) ltac:(lia)) as Hp.
    pose proof (pow2_pos (Zneg p + 149) ltac:(lia)) as Hq.
    assert (E : 2 ^ 149 = 2 ^ Zpos p * 2 ^ (Zneg p + 149)).
    { rewrite <- pow2_add by lia. f_equal. lia. }
    rewrite E.
    pose proof (Z.div_mod (Zpos m) (2 ^ Zpos p) ltac:(lia)) as Hdm.
    pose proof (Z.mod_pos_bound (Zpos m) (2 ^ Zpos p) Hp) as Hmod.
    remember (Zpos m / 2 ^ Zpos p) as t. remember (Zpos m mod 2 ^ Zpos p) as u.
    remember (2 ^ Zpos p) as P. remember (2 ^ (Zneg p + 149)) as Q.
    split; nia.
Qed.

(** * What one pass does to each entry

    Iteration [i] reads and writes entry [i] only, so a pass is the loop
    body applied to each entry in turn. *)

Section Passes.

Context {F : Type} `{FloatOps F}.

Lemma process_input_fields w (a : analog_input_t F) :
  let a' := fst (process_input w a) in
  channel a' = channel a /\ cc_number a' = cc_number a /\
  filtered_value a' = filter (adc1_get_raw w (channel a)) (filtered_value a) /\
  last_midi_value a' = midi_value_of w a.
Proof.
  unfold process_input, midi_value_of; cbn.
  destruct (Z.eqb_spec
    (to_midi (filter (adc1_get_raw w (channel a)) (filtered_value a)))
    (last_midi_value a)) as [e | n]; cbn; auto.
Qed.

Lemma process_input_writes w (a : analog_input_t F) :
  snd (process_input w a) =
    if negb (midi_value_of w a =? last_midi_value a)
    then send_midi_cc w (cc_number a) (midi_value_of w a) else [].
Proof.
  unfold process_input, midi_value_of; cbn.
  destruct (_ =? _); reflexivity.
Qed.

Lemma process_analog_inputs_unfold w (inputs : vec (analog_input_t F) 3) :
  process_analog_inputs w inputs =
    (vmap (fun a => fst (process_input w a)) inputs,
     sent_by w inputs 0%fin ++ sent_by w inputs 1%fin ++ sent_by w inputs 2%fin).
Proof.
  inv_vec inputs; intros a b c.
  unfold process_analog_inputs, sent_by; cbn -[process_input].
  destruct (process_input w a) as [a' oa]; cbn -[process_input].
  destruct (process_input w b) as [b' ob]; cbn -[process_input].
  destruct (process_input w c) as [c' oc]; cbn.
  rewrite <- ?app_assoc; reflexivity.
Qed.

Lemma process_analog_inputs_entry w (inputs : vec (analog_input_t F) 3) i :
  fst (process_analog_inputs w inputs) !!! i = fst (process_input w (inputs !!! i)).
Proof. rewrite process_analog_inputs_unfold; cbn [fst]. now rewrite vlookup_map. Qed.

Lemma midi_controller_task_cons w ws (inputs : vec (analog_input_t F) 3) :
  midi_controller_task (w :: ws) inputs =
    (fst (midi_controller_task ws (fst (process_analog_inputs w inputs))),
     snd (process_analog_inputs w inputs)
       :: snd (midi_controller_task ws (fst (process_analog_inputs w inputs)))).
Proof.
  cbn [midi_controller_task].
  destruct (process_analog_inputs w inputs) as [inputs1 out]; cbn [fst snd].
  destruct (midi_controller_task ws inputs1); reflexivity.
Qed.

Lemma run_input_cons w ws (a : analog_input_t F) :
  run_input (w :: ws) a =
    (fst (run_input ws (fst (process_input w a))),
     (midi_value_of w a, snd (process_input w a))
       :: snd (run_input ws (fst (process_input w a)))).
Proof.
  cbn [run_input].
  destruct (process_input w a) as [a1 out]; cbn [fst snd].
  destruct (run_input ws a1); reflexivity.
Qed.

Lemma midi_controller_task_entry ws (inputs : vec (analog_input_t F) 3) i :
  fst (midi_controller_task ws inputs) !!! i = fst (run_input ws (inputs !!! i)).
Proof.
  revert inputs; induction ws as [| w ws IH]; intros inputs; [reflexivity |].
  rewrite midi_controller_task_cons, run_input_cons; cbn [fst].
  now rewrite IH, process_analog_inputs_entry.
Qed.

End Passes.

(** * The pipeline on binary32 *)

(** The constants of the program as binary32 numbers: 0.25, 0.75, 4095
    and 127. *)
Lemma filter_binary32 raw (f : spec_float) :
  filter raw f =
  B32.add (B32.mul (S754_finite false 8388608 (-25)) (B32.of_int raw))
          (B32.mul (S754_finite false 12582912 (-24)) f).
Proof. reflexivity. Qed.

Lemma to_midi_binary32 (f : spec_float) :
  to_midi f =
  B32.to_u8 (B32.mul (B32.div f (S754_finite false 16773120 (-12)))
                     (S754_finite false 16646144 (-17))).
Proof. reflexivity. Qed.

Lemma constants_valid :
  nonneg_valid (S754_finite false 8388608 (-25)) /\
  nonneg_valid (S754_finite false 12582912 (-24)) /\
  nonneg_valid (S754_finite false 16773120 (-12)) /\
  nonneg_valid (S754_finite false 16646144 (-17)) /\
  nonneg_valid (S754_finite false 8388608 (-23)).
Proof. repeat split; reflexivity. Qed.

Lemma constants_units :
  units (S754_finite false 8388608 (-25)) = 2 ^ 147 /\
  units (S754_finite false 12582912 (-24)) = 3 * 2 ^ 147 /\
  units (S754_finite false 16773120 (-12)) = 4095 * 2 ^ 149 /\
  units (S754_finite false 16646144 (-17)) = 127 * 2 ^ 149 /\
  units (S754_finite false 8388608 (-23)) = 2 ^ 149.
Proof. repeat split; reflexivity. Qed.

Lemma pow2_149 : 2 ^ 149 = 4 * 2 ^ 147.
Proof. reflexivity. Qed.

Lemma of_int_exact n :
  0 <= n < 2 ^ 24 ->
  nonneg_valid (B32.of_int n) /\ units (B32.of_int n) = n * 2 ^ 149.
Proof.
  intros Hn. destruct (representable n 0 Hn ltac:(lia)) as (V & HV & HuV).
  change (0 + 149) with 149 in HuV.
  destruct (of_int_units n V ltac:(lia) HV ltac:(lia)) as (Hv & Hle & Hge).
  specialize (Hge V HV ltac:(lia)). split; [assumption | lia].
Qed.

Lemma mul_exact x y V :
  nonneg_valid x -> nonneg_valid y -> nonneg_valid V ->
  units x * units y = units V * 2 ^ 149 ->
  nonneg_valid (B32.mul x y) /\ units (B32.mul x y) = units V.
Proof.
  intros Hx Hy HV E.
  destruct (mul_faithful x y V Hx Hy HV ltac:(lia)) as (Hv & Hle & Hge).
  specialize (Hge V HV ltac:(lia)). split; [assumption | lia].
Qed.

(** [ALPHA * raw_value] is exact. *)
Lemma quarter_exact raw :
  0 <= raw < 2 ^ 24 ->
  nonneg_valid (B32.mul (S754_finite false 8388608 (-25)) (B32.of_int raw)) /\
  units (B32.mul (S754_finite false 8388608 (-25)) (B32.of_int raw)) = raw * 2 ^ 147.
Proof.
  intros Hraw. destruct (of_int_exact raw Hraw) as [Hr Hur].
  destruct (representable raw (-2) Hraw ltac:(lia)) as (V & HV & HuV).
  change (-2 + 149) with 147 in HuV. rewrite <- HuV.
  apply mul_exact; try assumption; [apply constants_valid |].
  destruct constants_units as (-> & _). rewrite Hur, HuV. lia.
Qed.

(** [(1.0f - ALPHA) * filtered_value] lies between the binary32 numbers
    around three quarters of [filtered_value]. *)
Lemma three_quarters_faithful f U :
  nonneg_valid f -> nonneg_valid U -> 3 * units f <= 4 * units U ->
  nonneg_valid (B32.mul (S754_finite false 12582912 (-24)) f) /\
  units (B32.mul (S754_finite false 12582912 (-24)) f) <= units U /\
  (forall L, nonneg_valid L -> 4 * units L <= 3 * units f ->
     units L <= units (B32.mul (S754_finite false 12582912 (-24)) f)).
Proof.
  intros Hf HU Hle.
  destruct constants_valid as (_ & Hc & _). destruct constants_units as (_ & Ec & _).
  destruct (mul_faithful _ f U Hc Hf HU) as (Hv & Hub & Hlb).
  - rewrite Ec, pow2_149. lia.
  - split; [assumption |]. split; [assumption |].
    intros L HL HLle. apply Hlb; [assumption |]. rewrite Ec, pow2_149. lia.
Qed.

(** A float at most 4095 has an exponent of at most -12. *)
Lemma small_exponent m e :
  nonneg_valid (S754_finite false m e) ->
  units (S754_finite false m e) <= 4095 * 2 ^ 149 ->
  -149 <= e <= -12 /\ Zpos m < 2 ^ 24.
Proof.
  intros Hv Hle. apply nonneg_valid_finite in Hv. destruct Hv as [Hc He].
  assert (-149 <= e) by (rewrite fexp_eq in Hc; lia).
  assert (e <= -12).
  { assert (C4095 : fexp B32.prec B32.emax (Zdigits2 16773120 + -12) = -12) by reflexivity.
    assert (Hle' : Zpos m * 2 ^ (e + 149) <= 16773120 * 2 ^ (-12 + 149)).
    { cbn [units] in Hle. change (16773120 * 2 ^ (-12 + 149)) with (4095 * 2 ^ 149).
      exact Hle. }
    exact (canonical_exponent_le (Zpos m) e 16773120 (-12) 149 ltac:(lia) ltac:(lia)
             Hc C4095 ltac:(lia) ltac:(lia) Hle'). }
  split; [lia |]. apply Zdigits2_le_iff; try lia. rewrite fexp_eq in Hc. lia.
Qed.

(** Boundedness of one filter step. *)
Lemma filter_in_range raw (f : spec_float) :
  0 <= raw <= 4095 -> nonneg_valid f -> units f <= 4095 * 2 ^ 149 ->
  nonneg_valid (filter raw f) /\ units (filter raw f) <= 4095 * 2 ^ 149.
Proof.
  intros Hraw Hf Hle. rewrite filter_binary32.
  destruct (quarter_exact raw ltac:(lia)) as [Ha Hua].
  destruct (representable 12285 (-2) ltac:(lia) ltac:(lia)) as (Ub & HUb & HuUb).
  change (-2 + 149) with 147 in HuUb.
  destruct (three_quarters_faithful f Ub Hf HUb ltac:(lia)) as (Hb & Hub & _).
  destruct constants_valid as (_ & _ & Hc & _). destruct constants_units as (_ & _ & Ec & _).
  destruct (add_faithful _ _ _ Ha Hb Hc) as (Hv & Hu & _).
  - rewrite Ec, Hua, pow2_149. lia.
  - split; [assumption |]. now rewrite Ec in Hu.
Qed.

(** One filter step moves the stored value toward the sample, never
    past it and never away from it. *)
Lemma filter_toward v (f : spec_float) :
  0 <= v <= 4095 -> nonneg_valid f -> units f <= 4095 * 2 ^ 149 ->
  (units f <= v * 2 ^ 149 ->
     units f <= units (filter v f) <= v * 2 ^ 149) /\
  (v * 2 ^ 149 <= units f ->
     v * 2 ^ 149 <= units (filter v f) <= units f).
Proof.
  intros Hv Hf Hle. rewrite filter_binary32.
  destruct (quarter_exact v ltac:(lia)) as [Ha Hua].
  remember (B32.mul (S754_finite false 8388608 (-25)) (B32.of_int v)) as a eqn:Ea.
  clear Ea.
  (* the stored value as [m * P], with [P] dividing [2 ^ 147] *)
  assert (Hdec : exists m P Q, units f = m * P /\ 0 <= m < 2 ^ 24 /\ 0 < P /\ 0 < Q /\
             P * Q = 2 ^ 147 /\
             (forall K, 0 <= K < 2 ^ 24 ->
                exists x, nonneg_valid x /\ units x = K * P)).
  { destruct (nonneg_valid_cases f Hf) as [-> | (m & e & -> & _ & _)].
    - exists 0, (2 ^ 147), 1. cbn [units].
      repeat split; try lia.
      intros K HK. apply (representable K (-2)); lia.
    - destruct (small_exponent m e Hf Hle) as [He Hm].
      exists (Zpos m), (2 ^ (e + 149)), (2 ^ (- e - 2)).
      pose proof (pow2_pos (e + 149) ltac:(lia)). pose proof (pow2_pos (- e - 2) ltac:(lia)).
      cbn [units]. repeat split; try lia.
      + rewrite <- pow2_add by lia. f_equal. lia.
      + intros K HK. apply (representable K e); lia. }
  destruct Hdec as (m & P & Q & Euf & Hm & HP & HQ & EPQ & Hrepr).
  assert (HKl : 0 <= (3 * m) / 4 < 2 ^ 24 /\ 4 * ((3 * m) / 4) <= 3 * m < 4 * ((3 * m) / 4) + 4).
  { change (2 ^ 24) with 16777216 in *. clear - Hm.
    Z.to_euclidean_division_equations. lia. }
  assert (HKu : 0 <= (3 * m + 3) / 4 < 2 ^ 24 /\
                3 * m <= 4 * ((3 * m + 3) / 4) <= 3 * m + 3).
  { change (2 ^ 24) with 16777216 in *. clear - Hm.
    Z.to_euclidean_division_equations. lia. }
  destruct HKl as [HKl HLq]. destruct HKu as [HKu HUq].
  destruct (Hrepr _ HKl) as (Lb & HLb & HuLb).
  destruct (Hrepr _ HKu) as (Ub & HUb & HuUb).
  destruct (three_quarters_faithful f Ub Hf HUb) as (Hb & Hub & Hlb).
  { rewrite Euf, HuUb. nia. }
  specialize (Hlb Lb HLb). rewrite Euf, HuLb in Hlb. specialize (Hlb ltac:(nia)).
  rewrite HuUb in Hub.
  remember (B32.mul (S754_finite false 12582912 (-24)) f) as b eqn:Eb.
  destruct (representable v 0 ltac:(lia) ltac:(lia)) as (V & HV & HuV).
  change (0 + 149) with 149 in HuV.
  assert (E149 : 2 ^ 149 = 4 * (P * Q)) by (rewrite EPQ; reflexivity).
  split.
  - intros Hfv.
    (* three quarters of [f] is at most three quarters of [v] *)
    destruct (representable (3 * v) (-2) ltac:(lia) ltac:(lia)) as (V3 & HV3 & HuV3).
    change (-2 + 149) with 147 in HuV3.
    destruct (three_quarters_faithful f V3 Hf HV3) as (_ & Hub3 & _).
    { rewrite HuV3, pow2_149 in *. lia. }
    rewrite <- Eb in Hub3.
    destruct (add_faithful a b V Ha Hb HV) as (_ & Hu & Hl).
    { rewrite HuV, Hua, pow2_149. lia. }
    split; [| lia].
    apply Hl; [assumption |].
    rewrite Hua, Euf, <- EPQ. rewrite Euf, E149 in Hfv.
    assert (m <= 4 * (v * Q)) by nia.
    assert (m - (3 * m) / 4 <= v * Q) by lia.
    nia.
  - intros Hfv.
    destruct (representable (3 * v) (-2) ltac:(lia) ltac:(lia)) as (V3 & HV3 & HuV3).
    change (-2 + 149) with 147 in HuV3.
    rewrite Euf, E149 in Hfv.
    assert (4 * (v * Q) <= m) by nia.
    assert (Hsum : units a + units b <= units f).
    { rewrite Hua, Euf, <- EPQ. assert (v * Q + (3 * m + 3) / 4 <= m) by lia. nia. }
    destruct (add_faithful a b f Ha Hb Hf Hsum) as (_ & Hu & Hl).
    split; [| assumption].
    rewrite <- HuV. apply Hl; [assumption |].
    rewrite HuV, Hua.
    destruct (three_quarters_faithful f Ub Hf HUb) as (_ & _ & Hlb3).
    { rewrite Euf, HuUb. nia. }
    specialize (Hlb3 V3 HV3). rewrite <- Eb in Hlb3.
    rewrite HuV3, Euf in Hlb3. specialize (Hlb3 ltac:(rewrite <- EPQ; nia)).
    rewrite pow2_149. lia.
Qed.

(** The conversion to the MIDI range of a value in [0, 4095]. *)
Lemma to_midi_in_range (f : spec_float) :
  nonneg_valid f -> units f <= 4095 * 2 ^ 149 ->
  0 <= to_midi f <= 127 /\
  to_midi f = B32.trunc (B32.mul (B32.div f (S754_finite false 16773120 (-12)))
                                 (S754_finite false 16646144 (-17))).
Proof.
  intros Hf Hle. rewrite to_midi_binary32.
  destruct constants_valid as (_ & _ & H4095 & H127 & H1).
  destruct constants_units as (_ & _ & E4095 & E127 & E1).
  destruct (div_faithful f _ _ Hf H4095 ltac:(rewrite E4095; lia) H1) as (Hy1 & Hu1 & _).
  { rewrite E4095, E1. nia. }
  rewrite E1 in Hu1.
  destruct (mul_faithful _ _ _ Hy1 H127 H127) as (Hy2 & Hu2 & _).
  { rewrite E127. pose proof (units_nonneg (B32.div f (S754_finite false 16773120 (-12)))).
    nia. }
  rewrite E127 in Hu2.
  pose proof (trunc_units _ Hy2) as Ht.
  pose proof (units_nonneg (B32.mul (B32.div f (S754_finite false 16773120 (-12)))
                                   (S754_finite false 16646144 (-17)))) as H0.
  assert (0 <= B32.trunc (B32.mul (B32.div f (S754_finite false 16773120 (-12)))
                                  (S754_finite false 16646144 (-17))) <= 127) as Hr by lia.
  unfold B32.to_u8. rewrite Z.mod_small by lia. split; [exact Hr | reflexivity].
Qed.

(** ** Values as rationals *)

Lemma B2Q_units x :
  nonneg_valid x -> (B2Q x == Qmake (units x) (2 ^ 149)%positive)%Q.
Proof.
  intros Hx. destruct (nonneg_valid_cases x Hx) as [-> | (m & e & -> & _ & He)].
  { reflexivity. }
  cbn [B2Q units]. unfold Qeq. destruct e as [| p | p]; cbn [Qnum Qden inject_Z].
  - change (2 ^ 0) with 1. change (0 + 149) with 149. lia.
  - rewrite (pow2_add (Zpos p)) by lia. lia.
  - rewrite !Pos2Z.inj_pow.
    replace 149 with (Zpos p + (Zneg p + 149)) at 1 by lia.
    rewrite (pow2_add (Zpos p)) by lia. ring.
Qed.

Lemma B2Q_le x y :
  nonneg_valid x -> nonneg_valid y -> (B2Q x <= B2Q y)%Q <-> units x <= units y.
Proof.
  intros Hx Hy. rewrite (B2Q_units x Hx), (B2Q_units y Hy).
  unfold Qle; cbn [Qnum Qden]. lia.
Qed.


Lemma B2Q_le_Z x n :
  nonneg_valid x -> (B2Q x <= inject_Z n)%Q <-> units x <= n * 2 ^ 149.
Proof.
  intros Hx. rewrite (B2Q_units x Hx).
  unfold Qle; cbn [Qnum Qden inject_Z].
  change (Zpos (2 ^ 149)%positive) with (2 ^ 149). lia.
Qed.

Lemma B2Q_ge_Z x n :
  nonneg_valid x -> (inject_Z n <= B2Q x)%Q <-> n * 2 ^ 149 <= units x.
Proof.
  intros Hx. rewrite (B2Q_units x Hx).
  unfold Qle; cbn [Qnum Qden inject_Z].
  change (Zpos (2 ^ 149)%positive) with (2 ^ 149). lia.
Qed.

Lemma B2Q_lt_Z x n :
  nonneg_valid x -> (B2Q x < inject_Z n)%Q <-> units x < n * 2 ^ 149.
Proof.
  intros Hx. rewrite (B2Q_units x Hx).
  unfold Qlt; cbn [Qnum Qden inject_Z].
  change (Zpos (2 ^ 149)%positive) with (2 ^ 149). lia.
Qed.

(** Two valid non-negative floats of equal value are the same float. *)
Lemma nonneg_valid_unique x y :
  nonneg_valid x -> nonneg_valid y -> units x = units y -> x = y.
Proof.
  intros Hx Hy E.
  destruct (nonneg_valid_cases x Hx) as [-> | (mx & ex & -> & Cx & Hex)];
    destruct (nonneg_valid_cases y Hy) as [-> | (my & ey & -> & Cy & Hey)].
  - reflexivity.
  - pose proof (units_finite_pos my ey ltac:(lia)). cbn [units] in *. lia.
  - pose proof (units_finite_pos mx ex ltac:(lia)). cbn [units] in *. lia.
  - cbn [units] in E.
    destruct (canonical_unique (Zpos mx) ex (Zpos my) ey) as [Em Ee];
      try assumption; try lia.
    congruence.
Qed.

(** * Properties of the control flow

    These hold for every arithmetic: they follow from the shape of the
    loop alone. *)


(** A pass that computes for an entry the value the pass before computed
    writes nothing for that entry. *)
Lemma same_value_sends_nothing {F : Type} `{FloatOps F}
    (w1 w2 : world) (inputs : vec (analog_input_t F) 3) (i : fin 3) :
  midi_value_of w2 (fst (process_analog_inputs w1 inputs) !!! i)
    = midi_value_of w1 (inputs !!! i) ->
  sent_by w2 (fst (process_analog_inputs w1 inputs)) i = [].
Proof.
  intros Hsame. unfold sent_by. rewrite process_input_writes, Hsame.
  rewrite process_analog_inputs_entry.
  destruct (process_input_fields w1 (inputs !!! i)) as (_ & _ & _ & ->).
  now rewrite Z.eqb_refl.
Qed.

(** C8. Iteration [A] of the loop changes entry [A] only, and of that
    entry only [filtered_value] and [last_midi_value]: every other entry
    [B] is left as it was, and after a whole pass the new state of [B] is
    the loop body applied to the old state of [B], whatever the other
    channels read. *)
Theorem C8_channel_independence {F : Type} `{FloatOps F}
    (w : world) (inputs : vec (analog_input_t F) 3) (out : list stream_write)
    (A B : fin 3) :
  A <> B ->
  fst (loop_body w (inputs, out) A) !!! B = inputs !!! B /\
  channel (fst (loop_body w (inputs, out) A) !!! A) = channel (inputs !!! A) /\
  cc_number (fst (loop_body w (inputs, out) A) !!! A) = cc_number (inputs !!! A) /\
  fst (process_analog_inputs w inputs) !!! B = fst (process_input w (inputs !!! B)).
Proof.
  intros Hne. unfold loop_body.
  pose proof (process_input_fields w (inputs !!! A)) as Hf.
  destruct (process_input w (inputs !!! A)) as [a msgs]. cbn [fst] in *.
  split; [apply vlookup_insert_ne; assumption |].
  rewrite vlookup_insert.
  split; [tauto |]. split; [tauto |]. apply process_analog_inputs_entry.
Qed.

Lemma C8_witness :
  (0%fin : fin 3) <> 1%fin /\
  fst (loop_body (steady 4095 true) (@analog_inputs spec_float _, []) 0%fin) !!! 1%fin
    = @analog_inputs spec_float _ !!! 1%fin.
Proof.
  assert (Hne : (0%fin : fin 3) <> 1%fin) by discriminate.
  split; [exact Hne |].
  exact (proj1 (C8_channel_independence (steady 4095 true) analog_inputs [] 0%fin 1%fin Hne)).
Defined.




(** While an entry that starts with [last_midi_value = 0] keeps computing
    0, nothing is written for it. *)
Lemma zero_values_send_nothing {F : Type} `{FloatOps F} ws (a : analog_input_t F) :
  last_midi_value a = 0 ->
  Forall (fun p => fst p = 0) (snd (run_input ws a)) ->
  Forall (fun p => snd p = []) (snd (run_input ws a)).
Proof.
  revert a; induction ws as [| w ws IH]; intros a Hlast Hall; [constructor |].
  rewrite run_input_cons in *; cbn [snd] in *.
  inversion Hall as [| p tr Hp Htr]; subst. cbn [fst] in Hp.
  constructor.
  - cbn [snd]. rewrite process_input_writes, Hp, Hlast. reflexivity.
  - apply IH; [| assumption].
    destruct (process_input_fields w a) as (_ & _ & _ & ->). exact Hp.
Qed.

Lemma process_input_zero w (a : analog_input_t spec_float) :
  adc1_get_raw w (channel a) = 0 ->
  filtered_value a = S754_zero false -> last_midi_value a = 0 ->
  process_input w a = (a, []).
Proof.
  destruct a as [c f l n]; cbn [channel filtered_value last_midi_value].
  intros Hraw -> ->. unfold process_input; cbn [channel filtered_value last_midi_value cc_number].
  rewrite Hraw.
  replace (filter 0 (S754_zero false)) with (S754_zero false) by (vm_compute; reflexivity).
  replace (to_midi (S754_zero false)) with 0 by (vm_compute; reflexivity).
  reflexivity.
Qed.

(** C9. From the initial state a pass in which the samples are 0 computes
    the value 0 for every entry, which equals [last_midi_value], writes
    nothing and leaves the state as it was; and in any run from the
    initial state an entry writes nothing for as long as the values
    computed for it are 0, so its first message carries a value other
    than 0. *)
Theorem C9_zero_sample_sends_nothing (w : world) (i : fin 3) :
  (forall c, adc1_get_raw w c = 0) ->
  midi_value_of w (@analog_inputs spec_float _ !!! i) = 0 /\
  last_midi_value (@analog_inputs spec_float _ !!! i) = 0 /\
  process_analog_inputs w (@analog_inputs spec_float _) = (analog_inputs, []) /\
  (forall ws,
     Forall (fun p => fst p = 0) (snd (run_input ws (@analog_inputs spec_float _ !!! i))) ->
     Forall (fun p => snd p = []) (snd (run_input ws (@analog_inputs spec_float _ !!! i)))).
Proof.
  intros Hraw.
  assert (Hlast : last_midi_value (@analog_inputs spec_float _ !!! i) = 0).
  { inv_fin i; [reflexivity |]. intros i; inv_fin i; [reflexivity |].
    intros i; inv_fin i; [reflexivity |]. intros i; inv_fin i. }
  assert (Hfilt : filtered_value (@analog_inputs spec_float _ !!! i) = S754_zero false).
  { inv_fin i; [reflexivity |]. intros i; inv_fin i; [reflexivity |].
    intros i; inv_fin i; [reflexivity |]. intros i; inv_fin i. }
  split; [| split; [exact Hlast | split]].
  - unfold midi_value_of. rewrite Hraw, Hfilt. vm_compute. reflexivity.
  - rewrite process_analog_inputs_unfold. unfold sent_by, analog_inputs.
    cbn -[process_input].
    rewrite !process_input_zero by (try apply Hraw; reflexivity).
    reflexivity.
  - intros ws. apply zero_values_send_nothing. exact Hlast.
Qed.

Lemma C9_witness :
  (forall c, adc1_get_raw (steady 0 true) c = 0) /\
  process_analog_inputs (steady 0 true) (@analog_inputs spec_float _) = (analog_inputs, []).
Proof.
  assert (Hraw : forall c, adc1_get_raw (steady 0 true) c = 0) by (intros c; reflexivity).
  split; [exact Hraw |].
  exact (proj1 (proj2 (proj2 (C9_zero_sample_sends_nothing (steady 0 true) 0%fin Hraw)))).
Defined.

(** * Runs under a steady reading *)

Lemma filter_run_app {F : Type} `{FloatOps F} raws1 raws2 (f : F) :
  filter_run (raws1 ++ raws2) f = filter_run raws2 (filter_run raws1 f).
Proof. unfold filter_run. apply fold_left_app. Qed.

Lemma filter_run_snoc {F : Type} `{FloatOps F} v n (f : F) :
  filter_run (repeat v (S n)) f = filter v (filter_run (repeat v n) f).
Proof.
  replace (S n) with (n + 1)%nat by lia.
  rewrite repeat_app, filter_run_app. reflexivity.
Qed.

Lemma filter_run_fixed {F : Type} `{FloatOps F} v n (f : F) :
  filter v f = f -> filter_run (repeat v n) f = f.
Proof.
  intros Hfix. induction n as [| n IH]; [reflexivity |].
  now rewrite filter_run_snoc, IH.
Qed.


(** After each pass [last_midi_value] is the value of the new
    [filtered_value]. *)
Lemma process_input_last {F : Type} `{FloatOps F} w (a : analog_input_t F) :
  last_midi_value (fst (process_input w a))
    = to_midi (filtered_value (fst (process_input w a))).
Proof.
  destruct (process_input_fields w a) as (_ & _ & -> & ->). reflexivity.
Qed.




(** * Boundedness and the format of the messages *)

Lemma filter_run_in_range raws (f : spec_float) :
  Forall (fun raw => 0 <= raw <= 4095) raws ->
  nonneg_valid f -> units f <= 4095 * 2 ^ 149 ->
  nonneg_valid (filter_run raws f) /\ units (filter_run raws f) <= 4095 * 2 ^ 149.
Proof.
  intros Hraws. revert f. induction Hraws as [| raw raws Hraw _ IH]; intros f Hf Hle.
  - cbn. auto.
  - cbn [filter_run fold_left]. destruct (filter_in_range raw f Hraw Hf Hle) as [Hf' Hle'].
    exact (IH _ Hf' Hle').
Qed.

Lemma in_range_values (f : spec_float) :
  nonneg_valid f -> units f <= 4095 * 2 ^ 149 ->
  (0 <= B2Q f <= 4095)%Q.
Proof.
  intros Hf Hle. split.
  - apply (B2Q_ge_Z f 0 Hf). pose proof (units_nonneg f). lia.
  - apply (B2Q_le_Z f 4095 Hf). exact Hle.
Qed.

(** C2. Fed any samples in [0, 4095] from [filtered_value = 0], the
    filter holds after every update a finite binary32 number in
    [0, 4095], and the value computed from it is in [0, 127]. *)
Theorem C2_boundedness (raws : list Z) (k : nat) :
  Forall (fun raw => 0 <= raw <= 4095) raws ->
  nonneg_valid (filter_run (firstn k raws) (fl_lit 0 : spec_float)) /\
  (0 <= B2Q (filter_run (firstn k raws) (fl_lit 0 : spec_float)) <= 4095)%Q /\
  0 <= to_midi (filter_run (firstn k raws) (fl_lit 0 : spec_float)) <= 127.
Proof.
  intros Hraws.
  destruct (filter_run_in_range (firstn k raws) (fl_lit 0)) as [Hv Hle].
  - apply Forall_take. exact Hraws.
  - reflexivity.
  - apply Z.leb_le. vm_compute. reflexivity.
  - split; [exact Hv |]. split; [exact (in_range_values _ Hv Hle) |].
    exact (proj1 (to_midi_in_range _ Hv Hle)).
Qed.

Lemma C2_witness :
  Forall (fun raw => 0 <= raw <= 4095) [4095; 0; 4095] /\
  nonneg_valid (filter_run (firstn 2 [4095; 0; 4095]) (fl_lit 0 : spec_float)).
Proof.
  assert (Hraws : Forall (fun raw => 0 <= raw <= 4095) [4095; 0; 4095])
    by (repeat constructor; lia).
  split; [exact Hraws |].
  exact (proj1 (C2_boundedness [4095; 0; 4095] 2 Hraws)).
Defined.

(** The entries of the array keep valid in-range filter values and their
    controller numbers 1, 2, 3. *)
Lemma initial_entries (i : fin 3) :
  filtered_value (@analog_inputs spec_float _ !!! i) = S754_zero false /\
  last_midi_value (@analog_inputs spec_float _ !!! i) = 0 /\
  cc_number (@analog_inputs spec_float _ !!! i) = Z.of_nat i + 1.
Proof.
  inv_fin i; [repeat split |]. intros i; inv_fin i; [repeat split |].
  intros i; inv_fin i; [repeat split |]. intros i; inv_fin i.
Qed.

Lemma process_input_in_range w (a : analog_input_t spec_float) :
  in_range w ->
  nonneg_valid (filtered_value a) -> units (filtered_value a) <= 4095 * 2 ^ 149 ->
  nonneg_valid (filtered_value (fst (process_input w a))) /\
  units (filtered_value (fst (process_input w a))) <= 4095 * 2 ^ 149 /\
  cc_number (fst (process_input w a)) = cc_number a /\
  0 <= midi_value_of w a <= 127 /\
  (snd (process_input w a) = [] \/
   snd (process_input w a) = [control_change (cc_number a) (midi_value_of w a)]).
Proof.
  intros Hw Hf Hle.
  destruct (process_input_fields w a) as (_ & En & Ef & _).
  destruct (filter_in_range _ _ (Hw (channel a)) Hf Hle) as [Hf' Hle'].
  rewrite Ef. split; [exact Hf' |]. split; [exact Hle' |]. split; [exact En |].
  split; [exact (proj1 (to_midi_in_range _ Hf' Hle')) |].
  rewrite process_input_writes. unfold send_midi_cc.
  destruct (negb _); [| left; reflexivity].
  destruct (tud_midi_mounted w); [right | left]; reflexivity.
Qed.

Lemma run_in_range ws (inputs : vec (analog_input_t spec_float) 3) (i : fin 3) :
  Forall in_range ws ->
  nonneg_valid (filtered_value (inputs !!! i)) ->
  units (filtered_value (inputs !!! i)) <= 4095 * 2 ^ 149 ->
  nonneg_valid (filtered_value (fst (midi_controller_task ws inputs) !!! i)) /\
  units (filtered_value (fst (midi_controller_task ws inputs) !!! i)) <= 4095 * 2 ^ 149 /\
  cc_number (fst (midi_controller_task ws inputs) !!! i) = cc_number (inputs !!! i).
Proof.
  intros Hws. revert inputs. induction Hws as [| w ws Hw _ IH]; intros inputs Hf Hle.
  - cbn. auto.
  - rewrite midi_controller_task_cons; cbn [fst].
    destruct (process_input_in_range w (inputs !!! i) Hw Hf Hle) as (Hf' & Hle' & En & _).
    destruct (IH (fst (process_analog_inputs w inputs))) as (H1 & H2 & H3).
    + rewrite process_analog_inputs_entry. exact Hf'.
    + rewrite process_analog_inputs_entry. exact Hle'.
    + split; [exact H1 |]. split; [exact H2 |].
      rewrite H3, process_analog_inputs_entry. exact En.
Qed.

(** C6. In a run from the initial state with readings in [0, 4095], the
    writes of a pass are those of entries 0, 1, 2 in turn.  Entry [i]
    writes one message when the interface is mounted and the value just
    computed differs from [last_midi_value], and nothing otherwise; the
    message is on cable 0 and has three bytes: the status byte
    [0xB0 | 0], the controller number [i + 1], and the value just
    computed, which is in [0, 127]. *)
Theorem C6_message_format (ws : list world) (w : world) (i : fin 3) :
  Forall in_range ws -> in_range w ->
  let inputs := fst (midi_controller_task ws (@analog_inputs spec_float _)) in
  snd (process_analog_inputs w inputs)
    = sent_by w inputs 0%fin ++ sent_by w inputs 1%fin ++ sent_by w inputs 2%fin /\
  0 <= midi_value_of w (inputs !!! i) <= 127 /\
  sent_by w inputs i
    = (if tud_midi_mounted w
          && negb (midi_value_of w (inputs !!! i) =? last_midi_value (inputs !!! i))
       then [ {| cable_num := 0;
                 buffer := [Z.lor 0xB0 0; Z.of_nat i + 1;
                            midi_value_of w (inputs !!! i)] |} ]
       else []) /\
  length [Z.lor 0xB0 0; Z.of_nat i + 1; midi_value_of w (inputs !!! i)] = 3%nat.
Proof.
  intros Hws Hw inputs.
  split; [rewrite process_analog_inputs_unfold; reflexivity |].
  destruct (initial_entries i) as (E0 & _ & Ecc).
  destruct (run_in_range ws analog_inputs i Hws) as (Hf & Hle & En).
  - rewrite E0. reflexivity.
  - rewrite E0. apply Z.leb_le. vm_compute. reflexivity.
  - fold inputs in Hf, Hle, En.
    destruct (process_input_in_range w (inputs !!! i) Hw Hf Hle)
      as (_ & _ & _ & Hv & _).
    split; [exact Hv |]. split; [| reflexivity].
    unfold sent_by. rewrite process_input_writes. unfold send_midi_cc.
    rewrite En, Ecc.
    destruct (tud_midi_mounted w),
      (negb (midi_value_of w (inputs !!! i) =? last_midi_value (inputs !!! i)));
      reflexivity.
Qed.

Lemma C6_witness :
  Forall in_range [steady 4095 true] /\ in_range (steady 4095 true) /\
  midi_value_of (steady 4095 true)
    (fst (midi_controller_task [steady 4095 true] (@analog_inputs spec_float _))
       !!! 0%fin) = 55 /\
  last_midi_value
    (fst (midi_controller_task [steady 4095 true] (@analog_inputs spec_float _))
       !!! 0%fin) = 31 /\
  sent_by (steady 4095 true)
    (fst (midi_controller_task [steady 4095 true] (@analog_inputs spec_float _))) 0%fin
  = (if tud_midi_mounted (steady 4095 true)
        && negb (midi_value_of (steady 4095 true)
                   (fst (midi_controller_task [steady 4095 true]
                           (@analog_inputs spec_float _)) !!! 0%fin)
                 =? last_midi_value
                      (fst (midi_controller_task [steady 4095 true]
                              (@analog_inputs spec_float _)) !!! 0%fin))
     then [ {| cable_num := 0;
               buffer := [Z.lor 0xB0 0; Z.of_nat (0%fin : fin 3) + 1;
                          midi_value_of (steady 4095 true)
                            (fst (midi_controller_task [steady 4095 true]
                                    (@analog_inputs spec_float _)) !!! 0%fin)] |} ]
     else []).
Proof.
  assert (Hw : in_range (steady 4095 true)) by (intros c; cbn; lia).
  assert (Hws : Forall in_range [steady 4095 true])
    by (constructor; [exact Hw | constructor]).
  split; [exact Hws |]. split; [exact Hw |].
  split; [vm_compute; reflexivity |].
  split; [vm_compute; reflexivity |].
  exact (proj1 (proj2 (proj2
           (C6_message_format [steady 4095 true] (steady 4095 true) 0%fin Hws Hw)))).
Defined.

(** * Full scale from a cold start

    Every channel reads 4095 from the initial state. *)


Lemma cold_start_succ {F : Type} `{FloatOps F} raw n :
  cold_start raw (S n) = filter raw (cold_start raw n).
Proof. unfold cold_start. apply filter_run_snoc. Qed.











(** * How far one rounding can be from the exact result *)

Lemma representable_incl K E :
  0 <= K <= 2 ^ 24 -> -149 <= E <= 103 ->
  exists x, nonneg_valid x /\ units x = K * 2 ^ (E + 149).
Proof.
  intros HK HE. destruct (Z.eq_dec K (2 ^ 24)) as [-> | Hne].
  - destruct (representable (2 ^ 23) (E + 1) ltac:(split; [lia | reflexivity]) ltac:(lia))
      as (x & Hx & Hu).
    exists x. split; [exact Hx |]. rewrite Hu.
    replace (E + 1 + 149) with (1 + (E + 149)) by lia.
    rewrite (pow2_add 1) by lia. change (2 ^ 24) with (2 ^ 23 * 2 ^ 1). ring.
  - apply representable; lia.
Qed.

(** A result that lies between the binary32 numbers around the exact
    value [X / Y] is less than one grid step [2 ^ E] away from it, when
    the exact value is at most [2 ^ (E + 24)]. *)
Lemma faithful_error r X Y E :
  0 < Y -> 0 <= X -> -149 <= E <= 103 ->
  X <= 2 ^ 24 * 2 ^ (E + 149) * Y ->
  (forall U, nonneg_valid U -> X <= units U * Y ->
     nonneg_valid r /\ units r <= units U /\
     (forall L, nonneg_valid L -> units L * Y <= X -> units L <= units r)) ->
  X - 2 ^ (E + 149) * Y < units r * Y < X + 2 ^ (E + 149) * Y.
Proof.
  intros HY HX HE Hmax Hfaith.
  pose proof (pow2_pos (E + 149) ltac:(lia)) as HG.
  remember (2 ^ (E + 149)) as G eqn:EG.
  assert (HGY : 0 < G * Y) by nia.
  pose proof (Z.div_mod X (G * Y) ltac:(lia)) as Hdm.
  pose proof (Z.mod_pos_bound X (G * Y) HGY) as Hmod.
  remember (X / (G * Y)) as KL eqn:EKL. remember (X mod (G * Y)) as R eqn:ER.
  assert (HKL0 : 0 <= KL) by (subst KL; apply Z.div_pos; lia).
  assert (HKLmax : KL <= 2 ^ 24).
  { subst KL. apply Z.div_le_upper_bound; [lia |]. nia. }
  (* the grid number just above the exact value *)
  assert (HKU : exists KU, 0 <= KU <= 2 ^ 24 /\ X <= KU * G * Y /\ KU * G * Y < X + G * Y).
  { destruct (Z.eq_dec R 0) as [ER0 | ER0].
    - exists KL. split; [lia |]. nia.
    - exists (KL + 1). split; [| nia].
      split; [lia |].
      destruct (Z.eq_dec KL (2 ^ 24)) as [Eq | Hne]; [| lia].
      exfalso. nia. }
  destruct HKU as (KU & HKU & HKUlo & HKUhi).
  destruct (representable_incl KU E HKU HE) as (U & HU & HuU). rewrite <- EG in HuU.
  destruct (representable_incl KL E ltac:(lia) HE) as (L & HL & HuL). rewrite <- EG in HuL.
  destruct (Hfaith U HU ltac:(rewrite HuU; lia)) as (_ & Hle & Hge).
  specialize (Hge L HL ltac:(rewrite HuL; nia)).
  rewrite HuU in Hle. rewrite HuL in Hge.
  split; nia.
Qed.

(** The new [filtered_value] is within [2 ^ -11] of
    [0.25 * raw + 0.75 * filtered_value]. *)
Lemma filter_error raw (f : spec_float) :
  0 <= raw <= 4095 -> nonneg_valid f -> units f <= 4095 * 2 ^ 149 ->
  - 2 ^ 140 < 4 * units (filter raw f) - (raw * 2 ^ 149 + 3 * units f) < 2 ^ 140.
Proof.
  intros Hraw Hf Hle. rewrite filter_binary32.
  destruct (quarter_exact raw ltac:(lia)) as [Ha Hua].
  remember (B32.mul (S754_finite false 8388608 (-25)) (B32.of_int raw)) as a eqn:Ea.
  clear Ea.
  pose proof (units_nonneg f) as Hf0.
  (* three quarters of the old value *)
  pose proof (faithful_error (B32.mul (S754_finite false 12582912 (-24)) f)
                (3 * units f) 4 (-12) ltac:(lia) ltac:(lia) ltac:(lia)) as Hb.
  change (2 ^ (-12 + 149)) with (2 ^ 137) in Hb.
  specialize (Hb ltac:(change (2 ^ 24 * 2 ^ 137) with (4096 * 2 ^ 149); lia)).
  assert (Hbf : forall U, nonneg_valid U -> 3 * units f <= units U * 4 ->
            nonneg_valid (B32.mul (S754_finite false 12582912 (-24)) f) /\
            units (B32.mul (S754_finite false 12582912 (-24)) f) <= units U /\
            (forall L, nonneg_valid L -> units L * 4 <= 3 * units f ->
               units L <= units (B32.mul (S754_finite false 12582912 (-24)) f))).
  { intros U HU HXU.
    destruct (three_quarters_faithful f U Hf HU ltac:(lia)) as (H1 & H2 & H3).
    split; [exact H1 |]. split; [exact H2 |].
    intros L HL HLX. apply H3; [exact HL | lia]. }
  specialize (Hb Hbf). clear Hbf.
  destruct (representable 12285 (-2) ltac:(lia) ltac:(lia)) as (Ub & HUb & HuUb).
  change (-2 + 149) with 147 in HuUb.
  destruct (three_quarters_faithful f Ub Hf HUb ltac:(rewrite HuUb, pow2_149 in *; lia))
    as (Hbv & Hbu & _).
  rewrite HuUb in Hbu.
  remember (B32.mul (S754_finite false 12582912 (-24)) f) as b eqn:Eb. clear Eb.
  pose proof (units_nonneg b) as Hb0.
  (* the sum *)
  pose proof (faithful_error (B32.add a b) (units a + units b) 1 (-12)
                ltac:(lia) ltac:(lia) ltac:(lia)) as Hs.
  change (2 ^ (-12 + 149)) with (2 ^ 137) in Hs.
  specialize (Hs ltac:(change (2 ^ 24 * 2 ^ 137) with (4096 * 2 ^ 149);
                       rewrite Hua, pow2_149 in *; lia)).
  assert (Hsf : forall U, nonneg_valid U -> units a + units b <= units U * 1 ->
            nonneg_valid (B32.add a b) /\ units (B32.add a b) <= units U /\
            (forall L, nonneg_valid L -> units L * 1 <= units a + units b ->
               units L <= units (B32.add a b))).
  { intros U HU HXU.
    destruct (add_faithful a b U Ha Hbv HU ltac:(lia)) as (H1 & H2 & H3).
    split; [exact H1 |]. split; [exact H2 |].
    intros L HL HLX. apply H3; [exact HL | lia]. }
  specialize (Hs Hsf). clear Hsf.
  rewrite Hua in Hs.
  change (2 ^ 140) with (8 * 2 ^ 137). rewrite pow2_149 in *.
  lia.
Qed.

(** The value computed is the integer part of a binary32 number within
    [2 ^ -16] of [filtered_value / 4095 * 127]. *)
Lemma to_midi_error (f : spec_float) :
  nonneg_valid f -> units f <= 4095 * 2 ^ 149 ->
  4095 * (to_midi f * 2 ^ 149) - 4095 * 2 ^ 133 < 127 * units f
    < 4095 * ((to_midi f + 1) * 2 ^ 149) + 4095 * 2 ^ 133.
Proof.
  intros Hf Hle. destruct (to_midi_in_range f Hf Hle) as [_ ->].
  destruct constants_valid as (_ & _ & H4095 & H127 & H1).
  destruct constants_units as (_ & _ & E4095 & E127 & E1).
  pose proof (units_nonneg f) as Hf0.
  assert (Hy0 : 0 < units (S754_finite false 16773120 (-12))) by (rewrite E4095; lia).
  (* the quotient *)
  destruct (div_faithful f _ _ Hf H4095 Hy0 H1) as (Hy1 & Hu1 & _).
  { rewrite E4095, E1. nia. }
  rewrite E1 in Hu1.
  pose proof (faithful_error (B32.div f (S754_finite false 16773120 (-12)))
                (units f * 2 ^ 149) (units (S754_finite false 16773120 (-12))) (-24)
                Hy0 ltac:(lia) ltac:(lia)) as Hq.
  change (2 ^ (-24 + 149)) with (2 ^ 125) in Hq.
  specialize (Hq ltac:(rewrite E4095; change (2 ^ 24 * 2 ^ 125) with (2 ^ 149); nia)).
  specialize (Hq (fun U HU HXU => div_faithful f _ U Hf H4095 Hy0 HU HXU)).
  rewrite E4095 in Hq.
  remember (B32.div f (S754_finite false 16773120 (-12))) as y1 eqn:Ey1. clear Ey1.
  pose proof (units_nonneg y1) as Hy10.
  (* the product *)
  destruct (mul_faithful y1 _ _ Hy1 H127 H127) as (Hy2 & _ & _).
  { rewrite E127. nia. }
  pose proof (faithful_error (B32.mul y1 (S754_finite false 16646144 (-17)))
                (units y1 * units (S754_finite false 16646144 (-17))) (2 ^ 149) (-17)
                ltac:(lia) ltac:(rewrite E127; lia) ltac:(lia)) as Hp.
  change (2 ^ (-17 + 149)) with (2 ^ 132) in Hp.
  specialize (Hp ltac:(rewrite E127; change (2 ^ 24 * 2 ^ 132) with (128 * 2 ^ 149); nia)).
  specialize (Hp (fun U HU HXU => mul_faithful y1 _ U Hy1 H127 HU HXU)).
  rewrite E127 in Hp.
  pose proof (trunc_units _ Hy2) as Ht.
  remember (B32.mul y1 (S754_finite false 16646144 (-17))) as y2 eqn:Ey2. clear Ey2.
  remember (B32.trunc y2) as q eqn:Eq. clear Eq.
  change (2 ^ 133) with (256 * 2 ^ 125). change (2 ^ 132) with (128 * 2 ^ 125) in Hp.
  assert (Hq' : units f - 4095 * 2 ^ 125 < 4095 * units y1 < units f + 4095 * 2 ^ 125).
  { pose proof (pow2_pos 149 ltac:(lia)). split; nia. }
  assert (Hp' : units y1 * 127 - 128 * 2 ^ 125 < units y2 < units y1 * 127 + 128 * 2 ^ 125).
  { pose proof (pow2_pos 149 ltac:(lia)). split; nia. }
  lia.
Qed.

(** * One update step *)

Lemma units_inject x :
  nonneg_valid x -> (inject_Z (units x) == B2Q x * inject_Z (2 ^ 149))%Q.
Proof.
  intros Hx. rewrite (B2Q_units x Hx). unfold Qeq, Qmult, inject_Z; cbn [Qnum Qden].
  rewrite Pos.mul_1_r. change (Zpos (2 ^ 149)%positive) with (2 ^ 149). ring.
Qed.

Ltac push_inject_Z H :=
  unfold Z.sub in H;
  repeat (rewrite inject_Z_plus in H || rewrite inject_Z_mult in H
          || rewrite inject_Z_opp in H).

Lemma filter_error_Q raw (f : spec_float) :
  0 <= raw <= 4095 -> nonneg_valid f -> (B2Q f <= 4095)%Q ->
  nonneg_valid (filter raw f) /\
  (Qabs (B2Q (filter raw f) - ((1 # 4) * inject_Z raw + (3 # 4) * B2Q f)) < 1 # 2048)%Q.
Proof.
  intros Hraw Hf HleQ.
  assert (Hle : units f <= 4095 * 2 ^ 149) by (apply (B2Q_le_Z f 4095 Hf); exact HleQ).
  destruct (filter_in_range raw f Hraw Hf Hle) as [Hf' _].
  split; [exact Hf' |].
  destruct (filter_error raw f Hraw Hf Hle) as [Hlo Hhi].
  apply Qabs_Qlt_condition.
  rewrite Zlt_Qlt in Hlo, Hhi.
  push_inject_Z Hlo. push_inject_Z Hhi.
  rewrite (units_inject f Hf), (units_inject _ Hf') in Hlo, Hhi.
  remember (B2Q (filter raw f)) as x'. remember (B2Q f) as x.
  remember (inject_Z raw) as r.
  let c := eval vm_compute in (2 ^ 149) in change (2 ^ 149) with c in Hlo, Hhi.
  let c := eval vm_compute in (2 ^ 140) in change (2 ^ 140) with c in Hlo, Hhi.
  unfold inject_Z in Hlo, Hhi.
  split; lra.
Qed.

Lemma to_midi_error_Q (f : spec_float) :
  nonneg_valid f -> (B2Q f <= 4095)%Q ->
  0 <= to_midi f <= 127 /\
  (inject_Z (to_midi f) - (1 # 65536) < B2Q f / 4095 * 127
     < inject_Z (to_midi f) + 1 + (1 # 65536))%Q.
Proof.
  intros Hf HleQ.
  assert (Hle : units f <= 4095 * 2 ^ 149) by (apply (B2Q_le_Z f 4095 Hf); exact HleQ).
  split; [exact (proj1 (to_midi_in_range f Hf Hle)) |].
  destruct (to_midi_error f Hf Hle) as [Hlo Hhi].
  rewrite Zlt_Qlt in Hlo, Hhi.
  push_inject_Z Hlo. push_inject_Z Hhi.
  rewrite (units_inject f Hf) in Hlo, Hhi.
  remember (B2Q f) as x. remember (inject_Z (to_midi f)) as q.
  let c := eval vm_compute in (2 ^ 149) in change (2 ^ 149) with c in Hlo, Hhi.
  let c := eval vm_compute in (2 ^ 133) in change (2 ^ 133) with c in Hlo, Hhi.
  unfold inject_Z in Hlo, Hhi.
  unfold Qdiv. change (/ 4095)%Q with (1 # 4095)%Q.
  split; lra.
Qed.





(** * A constant reading *)

Lemma run_input_constant {F : Type} `{FloatOps F} raw ws (a : analog_input_t F) :
  Forall (fun w => adc1_get_raw w (channel a) = raw) ws ->
  filtered_value (fst (run_input ws a))
    = filter_run (repeat raw (length ws)) (filtered_value a) /\
  channel (fst (run_input ws a)) = channel a /\
  (ws <> [] ->
   last_midi_value (fst (run_input ws a))
     = to_midi (filter_run (repeat raw (length ws)) (filtered_value a))).
Proof.
  revert a. induction ws as [| w ws IH]; intros a Hws.
  - cbn. repeat split; auto. intros Hne. now contradict Hne.
  - inversion Hws as [| w' ws' Hw Hws']; subst.
    rewrite run_input_cons; cbn [fst length repeat].
    destruct (process_input_fields w a) as (Ec & _ & Ef & El).
    destruct (IH (fst (process_input w a))) as (IHf & IHc & IHl).
    { rewrite Ec. exact Hws'. }
    assert (Erun : forall l, filter_run l (filter (adc1_get_raw w (channel a)) (filtered_value a))
                   = filter_run (adc1_get_raw w (channel a) :: l) (filtered_value a))
      by reflexivity.
    rewrite IHf, IHc, Ef, Ec, Erun.
    split; [reflexivity |]. split; [reflexivity |].
    intros _. destruct ws as [| w2 ws].
    + cbn [run_input fst length repeat]. rewrite El. unfold midi_value_of. reflexivity.
    + rewrite IHl by discriminate. now rewrite Ef, Erun.
Qed.

(** Under a constant reading the filter keeps to its side of the sample
    and to the range. *)
Lemma filter_run_toward v n (f : spec_float) :
  0 <= v <= 4095 -> nonneg_valid f -> units f <= 4095 * 2 ^ 149 ->
  nonneg_valid (filter_run (repeat v n) f) /\
  units (filter_run (repeat v n) f) <= 4095 * 2 ^ 149 /\
  (units f <= v * 2 ^ 149 ->
     units (filter_run (repeat v n) f) <= units (filter_run (repeat v (S n)) f)
       <= v * 2 ^ 149) /\
  (v * 2 ^ 149 <= units f ->
     v * 2 ^ 149 <= units (filter_run (repeat v (S n)) f)
       <= units (filter_run (repeat v n) f)).
Proof.
  intros Hv Hf Hle.
  assert (Hall : Forall (fun raw => 0 <= raw <= 4095) (repeat v n)).
  { apply List.Forall_forall. intros x Hx. apply repeat_spec in Hx. now subst. }
  destruct (filter_run_in_range _ f Hall Hf Hle) as [Hfn Hlen].
  split; [exact Hfn |]. split; [exact Hlen |].
  rewrite filter_run_snoc.
  induction n as [| n IH].
  - cbn [repeat filter_run fold_left] in *.
    destruct (filter_toward v f Hv Hf Hle) as [Hup Hdown]. split; assumption.
  - assert (Hall' : Forall (fun raw => 0 <= raw <= 4095) (repeat v n)).
    { apply List.Forall_forall. intros x Hx. apply repeat_spec in Hx. now subst. }
    destruct (filter_run_in_range _ f Hall' Hf Hle) as [Hfn' Hlen'].
    destruct (IH Hall' Hfn' Hlen') as [IHup IHdown].
    rewrite <- filter_run_snoc in IHup, IHdown.
    destruct (filter_toward v _ Hv Hfn Hlen) as [Hup Hdown].
    split.
    + intros H0. apply Hup. apply IHup. exact H0.
    + intros H0. apply Hdown. apply IHdown. exact H0.
Qed.

(** Under a constant reading the filter stops changing after finitely
    many steps. *)
Lemma filter_settles v (f : spec_float) :
  0 <= v <= 4095 -> nonneg_valid f -> units f <= 4095 * 2 ^ 149 ->
  exists N, forall n, (N <= n)%nat ->
    filter_run (repeat v n) f = filter_run (repeat v N) f.
Proof.
  intros Hv.
  assert (Hind : forall d : nat, forall g : spec_float,
            nonneg_valid g -> units g <= 4095 * 2 ^ 149 ->
            Z.abs (v * 2 ^ 149 - units g) < Z.of_nat d ->
            exists N, forall n, (N <= n)%nat ->
              filter_run (repeat v n) g = filter_run (repeat v N) g).
  { induction d as [| d IH]; intros g Hg Hle Hd; [lia |].
    destruct (filter_toward v g Hv Hg Hle) as [Hup Hdown].
    destruct (filter_in_range v g Hv Hg Hle) as [Hg' Hle'].
    destruct (Z.eq_dec (units (filter v g)) (units g)) as [Efix | Hmove].
    - (* the filter has settled *)
      pose proof (nonneg_valid_unique _ _ Hg' Hg Efix) as Hfix.
      exists 0%nat. intros n _. cbn [repeat filter_run fold_left].
      apply filter_run_fixed. exact Hfix.
    - destruct (IH (filter v g) Hg' Hle') as (N & HN).
      { destruct (Z_le_gt_dec (units g) (v * 2 ^ 149)) as [Hlo | Hhi].
        - specialize (Hup Hlo). lia.
        - specialize (Hdown ltac:(lia)). lia. }
      exists (S N). intros n Hn. destruct n as [| n]; [lia |].
      cbn [repeat]. change (filter_run (v :: repeat v n) g)
        with (filter_run (repeat v n) (filter v g)).
      change (filter_run (v :: repeat v N) g) with (filter_run (repeat v N) (filter v g)).
      apply HN. lia. }
  intros Hf Hle.
  apply (Hind (Z.to_nat (Z.abs (v * 2 ^ 149 - units f) + 1)) f Hf Hle). lia.
Qed.

(** Where the filter has settled it is less than [2 ^ -9] from the
    sample. *)
Lemma settled_near v (f : spec_float) :
  0 <= v <= 4095 -> nonneg_valid f -> units f <= 4095 * 2 ^ 149 ->
  filter v f = f ->
  (Qabs (B2Q f - inject_Z v) < 1 # 512)%Q.
Proof.
  intros Hv Hf Hle Hfix.
  destruct (filter_error v f Hv Hf Hle) as [Hlo Hhi]. rewrite Hfix in Hlo, Hhi.
  assert (Hlo' : v * 2 ^ 149 - 2 ^ 140 < units f) by lia.
  assert (Hhi' : units f < v * 2 ^ 149 + 2 ^ 140) by lia.
  clear Hlo Hhi.
  apply Qabs_Qlt_condition.
  rewrite Zlt_Qlt in Hlo', Hhi'.
  push_inject_Z Hlo'. push_inject_Z Hhi'.
  rewrite (units_inject f Hf) in Hlo', Hhi'.
  remember (B2Q f) as x. remember (inject_Z v) as r.
  let c := eval vm_compute in (2 ^ 149) in change (2 ^ 149) with c in Hlo', Hhi'.
  let c := eval vm_compute in (2 ^ 140) in change (2 ^ 140) with c in Hlo', Hhi'.
  unfold inject_Z in Hlo', Hhi'.
  split; lra.
Qed.

(** C7, as the code has it.  An entry holding a binary32 number in
    [0, 4095] reads the constant [v] in [0, 4095].  Its [filtered_value]
    moves toward [v] and never past it: step by step it does not
    decrease while it starts at or below [v], and does not increase while
    it starts at or above [v].  After finitely many steps it stops
    changing, less than [2 ^ -9] from [v]; from then on the value
    computed is fixed and the entry writes nothing more. *)
Theorem C7_constant_reading_settles
    (v : Z) (a : analog_input_t spec_float) (n : nat) :
  0 <= v <= 4095 ->
  nonneg_valid (filtered_value a) ->
  (B2Q (filtered_value a) <= 4095)%Q ->
  ((B2Q (filtered_value a) <= inject_Z v)%Q ->
     (B2Q (filter_run (repeat v n) (filtered_value a))
        <= B2Q (filter_run (repeat v (S n)) (filtered_value a)) <= inject_Z v)%Q) /\
  ((inject_Z v <= B2Q (filtered_value a))%Q ->
     (inject_Z v <= B2Q (filter_run (repeat v (S n)) (filtered_value a))
        <= B2Q (filter_run (repeat v n) (filtered_value a)))%Q) /\
  exists N, forall k, (N <= k)%nat ->
    filter_run (repeat v k) (filtered_value a)
      = filter_run (repeat v N) (filtered_value a) /\
    (Qabs (B2Q (filter_run (repeat v k) (filtered_value a)) - inject_Z v) < 1 # 512)%Q /\
    (forall ws w,
       Forall (fun w' => adc1_get_raw w' (channel a) = v) (w :: ws) ->
       length ws = k -> ws <> [] ->
       midi_value_of w (fst (run_input ws a))
         = to_midi (filter_run (repeat v N) (filtered_value a)) /\
       snd (process_input w (fst (run_input ws a))) = []).
Proof.
  intros Hv Hf HleQ.
  assert (Hle : units (filtered_value a) <= 4095 * 2 ^ 149)
    by (apply (B2Q_le_Z _ 4095 Hf); exact HleQ).
  destruct (filter_run_toward v n _ Hv Hf Hle) as (Hfn & _ & Hup & Hdown).
  destruct (filter_run_toward v (S n) _ Hv Hf Hle) as (Hfn' & _ & _ & _).
  split; [| split].
  - intros H0. apply (B2Q_le_Z _ v Hf) in H0. destruct (Hup H0) as [H1 H2].
    split; [apply (B2Q_le _ _ Hfn Hfn'); exact H1 | apply (B2Q_le_Z _ v Hfn'); exact H2].
  - intros H0. apply (B2Q_ge_Z _ v Hf) in H0. destruct (Hdown H0) as [H1 H2].
    split; [apply (B2Q_ge_Z _ v Hfn'); exact H1 | apply (B2Q_le _ _ Hfn' Hfn); exact H2].
  - destruct (filter_settles v _ Hv Hf Hle) as (N & HN).
    exists N. intros k Hk.
    pose proof (HN k Hk) as Ek.
    assert (Efix : filter v (filter_run (repeat v N) (filtered_value a))
                   = filter_run (repeat v N) (filtered_value a)).
    { rewrite <- filter_run_snoc. apply HN. lia. }
    destruct (filter_run_toward v N _ Hv Hf Hle) as (HfN & HleN & _ & _).
    split; [exact Ek |]. split.
    { rewrite Ek. exact (settled_near v _ Hv HfN HleN Efix). }
    intros ws w Hall Hlen Hne.
    inversion Hall as [| w' ws' Hw Hws]; subst.
    destruct (run_input_constant (adc1_get_raw w (channel a)) ws a Hws) as (Ef & Ec & El).
    specialize (El Hne).
    assert (Em : midi_value_of w (fst (run_input ws a))
                 = to_midi (filter_run (repeat (adc1_get_raw w (channel a)) N)
                              (filtered_value a))).
    { unfold midi_value_of. rewrite Ec, Ef, Ek, Efix. reflexivity. }
    split; [exact Em |].
    rewrite process_input_writes, Em, El, Ek, Z.eqb_refl. reflexivity.
Qed.

Lemma C7_witness :
  0 <= 100 <= 4095 /\
  nonneg_valid (filtered_value (@analog_inputs spec_float _ !!! 0%fin)) /\
  Qle (B2Q (filtered_value (@analog_inputs spec_float _ !!! 0%fin))) (inject_Z 4095) /\
  (Qle (B2Q (filtered_value (@analog_inputs spec_float _ !!! 0%fin))) (inject_Z 100) ->
   Qle (B2Q (filter_run (repeat 100 3)
               (filtered_value (@analog_inputs spec_float _ !!! 0%fin))))
       (B2Q (filter_run (repeat 100 4)
               (filtered_value (@analog_inputs spec_float _ !!! 0%fin)))) /\
   Qle (B2Q (filter_run (repeat 100 4)
               (filtered_value (@analog_inputs spec_float _ !!! 0%fin))))
       (inject_Z 100)).
Proof.
  assert (H1 : 0 <= 100 <= 4095) by lia.
  assert (H2 : nonneg_valid (filtered_value (@analog_inputs spec_float _ !!! 0%fin)))
    by (vm_compute; reflexivity).
  assert (H3 : Qle (B2Q (filtered_value (@analog_inputs spec_float _ !!! 0%fin)))
                   (inject_Z 4095))
    by (vm_compute; discriminate).
  split; [exact H1 |]. split; [exact H2 |]. split; [exact H3 |].
  exact (proj1 (C7_constant_reading_settles 100 (analog_inputs !!! 0%fin) 3 H1 H2 H3)).
Defined.

(** C7, as the specification has it, fails.  Reading 4095 from a cold
    start, [filtered_value] is below 4095 after 55 passes and the next
    pass does not increase it. *)
Lemma C7_counterexample :
  (B2Q (cold_start 4095 55) < 4095)%Q /\
  ~ (B2Q (cold_start 4095 55) < B2Q (cold_start 4095 56))%Q /\
  (cold_start 4095 56 : spec_float) = cold_start 4095 55.
Proof.
  split; [vm_compute; reflexivity |].
  split; [vm_compute; discriminate |].
  vm_compute; reflexivity.
Qed.

(** * The pipeline in exact arithmetic *)

Lemma filter_rational raw (f : Q) :
  (filter raw f == (1 # 4) * inject_Z raw + (3 # 4) * f)%Q.
Proof.
  unfold filter, ALPHA; cbn [fl_add fl_mul fl_sub fl_lit fl_of_int rational].
  ring.
Qed.

Lemma to_midi_rational (f : Q) :
  (0 <= f <= 4095)%Q ->
  to_midi f = Qfloor (f / 4095 * 127) /\ 0 <= to_midi f <= 127.
Proof.
  intros Hf.
  unfold to_midi; cbn [fl_to_u8 fl_mul fl_div fl_lit rational].
  remember (f / 4095 * 127)%Q as y eqn:Ey.
  assert (Hy : (0 <= y <= 127)%Q).
  { subst y. unfold Qdiv. change (/ 4095)%Q with (1 # 4095)%Q. lra. }
  assert (Hnum : 0 <= Qnum y).
  { destruct Hy as [Hy0 _]. unfold Qle in Hy0. cbn in Hy0. lia. }
  assert (Equot : Z.quot (Qnum y) (Zpos (Qden y)) = Qfloor y).
  { destruct y as [ny dy]. cbn [Qnum Qden Qfloor] in *.
    apply Z.quot_div_nonneg; lia. }
  rewrite Equot.
  assert (Hfl : 0 <= Qfloor y <= 127).
  { split.
    - change 0 with (Qfloor 0). apply Qfloor_resp_le. apply Hy.
    - change 127 with (Qfloor 127). apply Qfloor_resp_le. apply Hy. }
  rewrite Z.mod_small by lia. split; [reflexivity | exact Hfl].
Qed.

Lemma cold_start_rational_range n :
  (0 <= cold_start 4095 n < 4095)%Q.
Proof.
  induction n as [| n IH].
  - unfold cold_start; cbn. lra.
  - rewrite cold_start_succ, filter_rational. change (inject_Z 4095) with 4095%Q. lra.
Qed.

(** C10. In exact arithmetic the value computed is 127 only for
    [filtered_value = 4095]; reading 4095 from [filtered_value = 0] gives
    [4095 * (1 - 0.75 ^ n)] after [n] passes, which is below 4095, so the
    value computed never exceeds 126. *)
Theorem C10_exact_never_full_scale (f : Q) (n : nat) :
  (0 <= f <= 4095)%Q ->
  (to_midi f = 127 <-> (f == 4095)%Q) /\
  (cold_start 4095 n == 4095 * (1 - (3 # 4) ^ Z.of_nat n))%Q /\
  (cold_start 4095 n < 4095)%Q /\
  to_midi (cold_start 4095 n : Q) <= 126.
Proof.
  intros Hf.
  assert (Hiff : forall g : Q, (0 <= g <= 4095)%Q -> to_midi g = 127 <-> (g == 4095)%Q).
  { intros g Hg. destruct (to_midi_rational g Hg) as [-> _].
    pose proof (Qfloor_le (g / 4095 * 127)) as Hlo.
    pose proof (Qlt_floor (g / 4095 * 127)) as Hhi.
    unfold Qdiv in *. change (/ 4095)%Q with (1 # 4095)%Q in *.
    split.
    - intros E. rewrite E in Hlo. change (inject_Z 127) with 127%Q in Hlo. lra.
    - intros E.
      assert (E127 : (g * (1 # 4095) * 127 == 127)%Q) by (rewrite E; reflexivity).
      rewrite E127. reflexivity. }
  split; [exact (Hiff f Hf) |].
  pose proof (cold_start_rational_range n) as Hrange.
  split.
  { clear Hrange. induction n as [| n IH].
    - unfold cold_start; cbn. reflexivity.
    - rewrite cold_start_succ, filter_rational, IH.
      replace (Z.of_nat (S n)) with (Z.of_nat n + 1)%Z by lia.
      rewrite Qpower_plus by discriminate.
      change ((3 # 4) ^ 1)%Q with (3 # 4)%Q. change (inject_Z 4095) with 4095%Q. ring. }
  split; [apply Hrange |].
  destruct (to_midi_rational (cold_start 4095 n)) as [_ Hle]; [lra |].
  assert (Hne : to_midi (cold_start 4095 n : Q) <> 127).
  { intros E. apply (Hiff (cold_start 4095 n)) in E; lra. }
  lia.
Qed.

Lemma C10_witness :
  (0 <= 2048 <= 4095)%Q /\ (cold_start 4095 3 < 4095)%Q.
Proof.
  assert (Hf : (0 <= 2048 <= 4095)%Q) by (split; discriminate).
  split; [exact Hf |].
  exact (proj1 (proj2 (proj2 (C10_exact_never_full_scale 2048 3 Hf)))).
Defined.
(** * Runs of the task: what the state and the writes depend on *)

Lemma process_input_agree {F : Type} `{FloatOps F} w w' (a : analog_input_t F) :
  adc1_get_raw w (channel a) = adc1_get_raw w' (channel a) ->
  fst (process_input w a) = fst (process_input w' a) /\
  midi_value_of w a = midi_value_of w' a /\
  (tud_midi_mounted w = tud_midi_mounted w' -> process_input w a = process_input w' a).
Proof.
  intros Hraw. unfold midi_value_of, process_input, send_midi_cc. cbn.
  rewrite Hraw.
  destruct (negb _); cbn; (split; [reflexivity |]); (split; [reflexivity |]).
  - intros ->. reflexivity.
  - reflexivity.
Qed.

Lemma run_input_fields {F : Type} `{FloatOps F} ws (a : analog_input_t F) :
  channel (fst (run_input ws a)) = channel a /\
  cc_number (fst (run_input ws a)) = cc_number a.
Proof.
  revert a. induction ws as [| w ws IH]; intros a; [split; reflexivity |].
  rewrite run_input_cons. cbn [fst].
  destruct (IH (fst (process_input w a))) as [-> ->].
  destruct (process_input_fields w a) as (Hc & Hn & _). split; assumption.
Qed.

Lemma run_input_agree {F : Type} `{FloatOps F} ws ws' (a : analog_input_t F) :
  Forall2 (fun w w' => adc1_get_raw w (channel a) = adc1_get_raw w' (channel a)) ws ws' ->
  fst (run_input ws a) = fst (run_input ws' a) /\
  map fst (snd (run_input ws a)) = map fst (snd (run_input ws' a)) /\
  (Forall2 (fun w w' => tud_midi_mounted w = tud_midi_mounted w') ws ws' ->
   run_input ws a = run_input ws' a).
Proof.
  revert a ws'.
  induction ws as [| w ws IH]; intros a ws0 Hall;
    inversion Hall as [| ? w' ? ws'' Hw Hws]; subst.
  - repeat split; reflexivity.
  - rewrite !run_input_cons. cbn [fst snd map].
    destruct (process_input_agree w w' a Hw) as (Ea & Ev & Ep).
    assert (Hc : channel (fst (process_input w a)) = channel a)
      by exact (proj1 (process_input_fields w a)).
    destruct (IH (fst (process_input w a)) ws'') as (E1 & E2 & E3).
    { rewrite Hc. exact Hws. }
    rewrite <- Ea. split; [exact E1 |]. split; [rewrite Ev, E2; reflexivity |].
    intros Hm. inversion Hm as [| ? ? ? ? Hm1 Hm2]; subst.
    rewrite Ev, (E3 Hm2), (Ep Hm1). reflexivity.
Qed.

Lemma process_analog_inputs_fields {F : Type} `{FloatOps F} w
    (inputs : vec (analog_input_t F) 3) i :
  channel (fst (process_analog_inputs w inputs) !!! i) = channel (inputs !!! i) /\
  cc_number (fst (process_analog_inputs w inputs) !!! i) = cc_number (inputs !!! i).
Proof.
  rewrite process_analog_inputs_entry.
  destruct (process_input_fields w (inputs !!! i)) as (Hc & Hn & _). split; assumption.
Qed.

Lemma process_analog_inputs_agree {F : Type} `{FloatOps F} w w'
    (inputs : vec (analog_input_t F) 3) :
  (forall i, adc1_get_raw w (channel (inputs !!! i))
             = adc1_get_raw w' (channel (inputs !!! i))) ->
  fst (process_analog_inputs w inputs) = fst (process_analog_inputs w' inputs) /\
  (tud_midi_mounted w = tud_midi_mounted w' ->
   process_analog_inputs w inputs = process_analog_inputs w' inputs).
Proof.
  intros Hraw.
  assert (Hst : fst (process_analog_inputs w inputs)
                = fst (process_analog_inputs w' inputs)).
  { apply vec_eq. intros i. rewrite !process_analog_inputs_entry.
    exact (proj1 (process_input_agree w w' _ (Hraw i))). }
  split; [exact Hst |]. intros Hm.
  rewrite !process_analog_inputs_unfold. unfold sent_by.
  rewrite !process_analog_inputs_unfold in Hst. cbn [fst] in Hst. rewrite Hst.
  rewrite !(proj2 (proj2 (process_input_agree w w' _ (Hraw _))) Hm). reflexivity.
Qed.

Lemma midi_controller_task_agree {F : Type} `{FloatOps F} ws ws'
    (inputs : vec (analog_input_t F) 3) :
  Forall2 (fun w w' => forall i, adc1_get_raw w (channel (inputs !!! i))
                                 = adc1_get_raw w' (channel (inputs !!! i))) ws ws' ->
  fst (midi_controller_task ws inputs) = fst (midi_controller_task ws' inputs) /\
  (Forall2 (fun w w' => tud_midi_mounted w = tud_midi_mounted w') ws ws' ->
   midi_controller_task ws inputs = midi_controller_task ws' inputs).
Proof.
  revert inputs ws'.
  induction ws as [| w ws IH]; intros inputs ws0 Hall;
    inversion Hall as [| ? w' ? ws' Hw Hws]; subst.
  - split; reflexivity.
  - rewrite !midi_controller_task_cons. cbn [fst].
    destruct (process_analog_inputs_agree w w' inputs Hw) as [Est Eall].
    destruct (IH (fst (process_analog_inputs w inputs)) ws') as [E1 E2].
    { eapply Forall2_impl; [exact Hws |]. intros v v' Hv i. cbv beta in Hv.
      rewrite (proj1 (process_analog_inputs_fields w inputs i)). exact (Hv i). }
    rewrite <- Est. split; [exact E1 |].
    intros Hm. inversion Hm as [| ? ? ? ? Hm1 Hm2]; subst.
    rewrite (E2 Hm2), (Eall Hm1). reflexivity.
Qed.

(** The writes of pass [k] of a run are those of the three entries in
    that pass, in the order of the array. *)
Lemma task_writes_by_entry {F : Type} `{FloatOps F} ws
    (inputs : vec (analog_input_t F) 3) k :
  nth k (snd (midi_controller_task ws inputs)) []
  = snd (nth k (snd (run_input ws (inputs !!! 0%fin))) (0, []))
    ++ snd (nth k (snd (run_input ws (inputs !!! 1%fin))) (0, []))
    ++ snd (nth k (snd (run_input ws (inputs !!! 2%fin))) (0, [])).
Proof.
  revert inputs k. induction ws as [| w ws IH]; intros inputs k.
  - destruct k; reflexivity.
  - rewrite midi_controller_task_cons, !run_input_cons. cbn [snd].
    destruct k as [| k]; cbn [nth snd].
    + rewrite process_analog_inputs_unfold. reflexivity.
    + rewrite IH, !process_analog_inputs_entry. reflexivity.
Qed.

Lemma last_cons_default {A} (l : list A) a d d' :
  List.last (a :: l) d = List.last (a :: l) d'.
Proof.
  revert a. induction l as [| b l IH]; intros a; [reflexivity |].
  change (List.last (b :: l) d = List.last (b :: l) d'). apply IH.
Qed.

Lemma last_app_default {A} (l1 l2 : list A) d :
  List.last (l1 ++ l2) d = List.last l2 (List.last l1 d).
Proof.
  revert d. induction l1 as [| x l1 IH]; intros d; [reflexivity |].
  destruct l1 as [| y l1].
  - destruct l2 as [| z l2]; [reflexivity |].
    change (List.last (z :: l2) d = List.last (z :: l2) x). apply last_cons_default.
  - change (List.last ((y :: l1) ++ l2) d = List.last l2 (List.last (y :: l1) d)).
    apply IH.
Qed.

(** X1. The state of the program does not depend on whether the USB
    interface is mounted.  Two runs whose passes read the same raw
    values leave the same array and compute, entry by entry and pass by
    pass, the same values, whatever [tud_midi_mounted] answers in
    either. *)
Theorem X1_state_independent_of_mount {F : Type} `{FloatOps F}
    (ws ws' : list world) (inputs : vec (analog_input_t F) 3) :
  Forall2 (fun w w' => forall c, adc1_get_raw w c = adc1_get_raw w' c) ws ws' ->
  fst (midi_controller_task ws inputs) = fst (midi_controller_task ws' inputs) /\
  (forall i, map fst (snd (run_input ws (inputs !!! i)))
             = map fst (snd (run_input ws' (inputs !!! i)))).
Proof.
  intros Hall. split.
  - apply midi_controller_task_agree.
    eapply Forall2_impl; [exact Hall |]. intros w w' Hw i. apply Hw.
  - intros i. apply run_input_agree.
    eapply Forall2_impl; [exact Hall |]. intros w w' Hw. apply Hw.
Qed.

Lemma X1_witness :
  Forall2 (fun w w' => forall c, adc1_get_raw w c = adc1_get_raw w' c)
    [steady 4095 true; steady 100 true] [steady 4095 false; steady 100 true] /\
  fst (midi_controller_task [steady 4095 true; steady 100 true]
         (@analog_inputs spec_float _))
  = fst (midi_controller_task [steady 4095 false; steady 100 true] analog_inputs).
Proof.
  assert (Hall : Forall2 (fun w w' => forall c, adc1_get_raw w c = adc1_get_raw w' c)
                   [steady 4095 true; steady 100 true]
                   [steady 4095 false; steady 100 true])
    by (repeat constructor).
  split; [exact Hall |].
  exact (proj1 (X1_state_independent_of_mount _ _ analog_inputs Hall)).
Defined.

(** X2. The loop never changes which ADC channel or which controller
    number an entry stands for: after any run every entry of the array
    has the [channel] and the [cc_number] it started with. *)
Theorem X2_channel_and_controller_fixed {F : Type} `{FloatOps F}
    (ws : list world) (inputs : vec (analog_input_t F) 3) (i : fin 3) :
  channel (fst (midi_controller_task ws inputs) !!! i) = channel (inputs !!! i) /\
  cc_number (fst (midi_controller_task ws inputs) !!! i) = cc_number (inputs !!! i).
Proof.
  rewrite midi_controller_task_entry. apply run_input_fields.
Qed.

(** X3. [init_adc] sets the width to 12 bits, then the attenuation of
    the channel of each entry of the array, in order, then characterises
    the converter; the channels it configures are the only ones the task
    ever reads: after any run every entry still names a channel that was
    configured, and two runs that agree on the readings of the configured
    channels, and on whether the interface is mounted, leave the same
    array and make the same writes. *)
Theorem X3_init_adc_covers_reads {F : Type} `{FloatOps F}
    (ws ws' : list world) (inputs : vec (analog_input_t F) 3) :
  Forall2 (fun w w' =>
             tud_midi_mounted w = tud_midi_mounted w' /\
             forall c a, In (adc1_config_channel_atten c a) (init_adc inputs) ->
                         adc1_get_raw w c = adc1_get_raw w' c) ws ws' ->
  init_adc inputs
    = [ adc1_config_width ADC_WIDTH_BIT_12;
        adc1_config_channel_atten (channel (inputs !!! 0%fin)) ADC_ATTEN_DB_11;
        adc1_config_channel_atten (channel (inputs !!! 1%fin)) ADC_ATTEN_DB_11;
        adc1_config_channel_atten (channel (inputs !!! 2%fin)) ADC_ATTEN_DB_11;
        esp_adc_cal_characterize ADC_UNIT_1 ADC_ATTEN_DB_11 ADC_WIDTH_BIT_12 1100 ] /\
  (forall i, In (adc1_config_channel_atten
                   (channel (fst (midi_controller_task ws inputs) !!! i)) ADC_ATTEN_DB_11)
                (init_adc inputs)) /\
  midi_controller_task ws inputs = midi_controller_task ws' inputs.
Proof.
  intros Hall.
  assert (Hin : forall i, In (adc1_config_channel_atten (channel (inputs !!! i))
                                ADC_ATTEN_DB_11) (init_adc inputs)).
  { intros i. unfold init_adc. cbn.
    inv_fin i; [tauto |]. intros i; inv_fin i; [tauto |].
    intros i; inv_fin i; [tauto |]. intros i; inv_fin i. }
  split; [reflexivity |]. split.
  - intros i. rewrite midi_controller_task_entry, (proj1 (run_input_fields ws _)).
    apply Hin.
  - apply midi_controller_task_agree.
    + eapply Forall2_impl; [exact Hall |]. intros w w' [_ Hw] i.
      exact (Hw _ _ (Hin i)).
    + eapply Forall2_impl; [exact Hall |]. intros w w' [Hm _]. exact Hm.
Qed.

Lemma X3_witness :
  Forall2 (fun w w' =>
             tud_midi_mounted w = tud_midi_mounted w' /\
             forall c a, In (adc1_config_channel_atten c a)
                            (init_adc (@analog_inputs spec_float _)) ->
                         adc1_get_raw w c = adc1_get_raw w' c)
    [ {| adc1_get_raw := fun c => match c with ADC_CHANNEL_0 => 7 | _ => 100 end;
         tud_midi_mounted := true |} ]
    [ steady 100 true ] /\
  init_adc (@analog_inputs spec_float _)
    = [ adc1_config_width ADC_WIDTH_BIT_12;
        adc1_config_channel_atten ADC_CHANNEL_9 ADC_ATTEN_DB_11;
        adc1_config_channel_atten ADC_CHANNEL_8 ADC_ATTEN_DB_11;
        adc1_config_channel_atten ADC_CHANNEL_2 ADC_ATTEN_DB_11;
        esp_adc_cal_characterize ADC_UNIT_1 ADC_ATTEN_DB_11 ADC_WIDTH_BIT_12 1100 ].
Proof.
  assert (Hall :
    Forall2 (fun w w' =>
               tud_midi_mounted w = tud_midi_mounted w' /\
               forall c a, In (adc1_config_channel_atten c a)
                              (init_adc (@analog_inputs spec_float _)) ->
                           adc1_get_raw w c = adc1_get_raw w' c)
      [ {| adc1_get_raw := fun c => match c with ADC_CHANNEL_0 => 7 | _ => 100 end;
           tud_midi_mounted := true |} ]
      [ steady 100 true ]).
  { constructor; [| constructor]. split; [reflexivity |].
    intros c a Hin. cbn in Hin.
    destruct Hin as [Hin | [Hin | [Hin | [Hin | [Hin | []]]]]];
      try discriminate Hin; injection Hin as <- _; reflexivity. }
  split; [exact Hall |].
  exact (proj1 (X3_init_adc_covers_reads _ _ analog_inputs Hall)).
Defined.

(** X4. What the task does with one entry depends on the readings of
    that entry's channel only (and on whether the interface is mounted):
    two runs that agree on them put the entry through the same states,
    compute the same values for it and make the same writes for it,
    whatever the other channels read. *)
Theorem X4_entry_depends_on_own_channel {F : Type} `{FloatOps F}
    (ws ws' : list world) (inputs : vec (analog_input_t F) 3) (i : fin 3) :
  Forall2 (fun w w' =>
             adc1_get_raw w (channel (inputs !!! i))
               = adc1_get_raw w' (channel (inputs !!! i)) /\
             tud_midi_mounted w = tud_midi_mounted w') ws ws' ->
  fst (midi_controller_task ws inputs) !!! i
    = fst (midi_controller_task ws' inputs) !!! i /\
  run_input ws (inputs !!! i) = run_input ws' (inputs !!! i).
Proof.
  intros Hall.
  assert (E : run_input ws (inputs !!! i) = run_input ws' (inputs !!! i)).
  { apply run_input_agree.
    - eapply Forall2_impl; [exact Hall |]. intros w w' [Hw _]. exact Hw.
    - eapply Forall2_impl; [exact Hall |]. intros w w' [_ Hm]. exact Hm. }
  split; [rewrite !midi_controller_task_entry, E; reflexivity | exact E].
Qed.

Lemma X4_witness :
  Forall2 (fun w w' =>
             adc1_get_raw w (channel (@analog_inputs spec_float _ !!! 0%fin))
               = adc1_get_raw w' (channel (@analog_inputs spec_float _ !!! 0%fin)) /\
             tud_midi_mounted w = tud_midi_mounted w')
    [ {| adc1_get_raw := fun c => match c with ADC_CHANNEL_9 => 100 | _ => 4095 end;
         tud_midi_mounted := true |} ]
    [ steady 100 true ] /\
  fst (midi_controller_task
         [ {| adc1_get_raw := fun c => match c with ADC_CHANNEL_9 => 100 | _ => 4095 end;
              tud_midi_mounted := true |} ] (@analog_inputs spec_float _)) !!! 0%fin
  = fst (midi_controller_task [ steady 100 true ] analog_inputs) !!! 0%fin.
Proof.
  assert (Hall :
    Forall2 (fun w w' =>
               adc1_get_raw w (channel (@analog_inputs spec_float _ !!! 0%fin))
                 = adc1_get_raw w' (channel (@analog_inputs spec_float _ !!! 0%fin)) /\
               tud_midi_mounted w = tud_midi_mounted w')
      [ {| adc1_get_raw := fun c => match c with ADC_CHANNEL_9 => 100 | _ => 4095 end;
           tud_midi_mounted := true |} ]
      [ steady 100 true ])
    by (constructor; [split; reflexivity | constructor]).
  split; [exact Hall |].
  exact (proj1 (X4_entry_depends_on_own_channel _ _ analog_inputs 0%fin Hall)).
Defined.
(** * What a host that is mounted throughout sees *)

Lemma process_input_mounted {F : Type} `{FloatOps F} w (a : analog_input_t F) :
  tud_midi_mounted w = true ->
  (snd (process_input w a) = [] /\
   last_midi_value (fst (process_input w a)) = last_midi_value a) \/
  (snd (process_input w a)
     = [ {| cable_num := 0;
            buffer := [u8 (Z.lor CC_MESSAGE MIDI_CC_CHANNEL); cc_number a;
                       last_midi_value (fst (process_input w a))] |} ] /\
   last_midi_value (fst (process_input w a)) <> last_midi_value a).
Proof.
  intros Hm. unfold process_input, send_midi_cc. cbn. rewrite Hm.
  destruct (Z.eqb_spec
              (to_midi (filter (adc1_get_raw w (channel a)) (filtered_value a)))
              (last_midi_value a)) as [E | E]; cbn.
  - left. split; reflexivity.
  - right. split; [reflexivity | exact E].
Qed.

Lemma values_written_cons {F : Type} `{FloatOps F} w ws (a : analog_input_t F) :
  concat (map snd (snd (run_input (w :: ws) a)))
  = snd (process_input w a)
    ++ concat (map snd (snd (run_input ws (fst (process_input w a))))).
Proof. rewrite run_input_cons. reflexivity. Qed.

Lemma adjacent_cons {A} (d : A) (l : list A) :
  (forall l1 x y l2, l = l1 ++ x :: y :: l2 -> x <> y) ->
  (forall y l', l = y :: l' -> d <> y) ->
  forall l1 x y l2, d :: l = l1 ++ x :: y :: l2 -> x <> y.
Proof.
  intros Hl Hd l1 x y l2 E. destruct l1 as [| z l1].
  - injection E as <- E. exact (Hd _ _ E).
  - injection E as _ E. exact (Hl _ _ _ _ E).
Qed.

(** X5. While the interface is mounted in every pass, the host is kept
    in step with the program: the value byte of the last message written
    for an entry is the entry's [last_midi_value] (which is still the
    initial one when nothing was written), and the writes of each pass
    of the task are those of the three entries in the order of the
    array. *)
Theorem X5_host_in_step_when_mounted {F : Type} `{FloatOps F}
    (ws : list world) (inputs : vec (analog_input_t F) 3) (i : fin 3) :
  Forall (fun w => tud_midi_mounted w = true) ws ->
  List.last (map (fun m => nth 2 (buffer m) 0)
               (concat (map snd (snd (run_input ws (inputs !!! i))))))
            (last_midi_value (inputs !!! i))
    = last_midi_value (fst (midi_controller_task ws inputs) !!! i) /\
  (forall k, nth k (snd (midi_controller_task ws inputs)) []
     = snd (nth k (snd (run_input ws (inputs !!! 0%fin))) (0, []))
       ++ snd (nth k (snd (run_input ws (inputs !!! 1%fin))) (0, []))
       ++ snd (nth k (snd (run_input ws (inputs !!! 2%fin))) (0, []))).
Proof.
  intros Hall. split; [| intros k; apply task_writes_by_entry].
  rewrite midi_controller_task_entry.
  generalize (inputs !!! i) as a. clear inputs i.
  induction ws as [| w ws IH]; intros a; [reflexivity |].
  inversion Hall as [| ? ? Hw Hws]; subst.
  rewrite values_written_cons, map_app, last_app_default, run_input_cons. cbn [fst].
  rewrite <- (IH Hws). f_equal.
  destruct (process_input_mounted w a Hw) as [[-> E] | [-> _]].
  - cbn. symmetry. exact E.
  - reflexivity.
Qed.

Lemma X5_witness :
  Forall (fun w => tud_midi_mounted w = true) [steady 4095 true; steady 4095 true] /\
  List.last (map (fun m => nth 2 (buffer m) 0)
               (concat (map snd (snd (run_input [steady 4095 true; steady 4095 true]
                                        (@analog_inputs spec_float _ !!! 0%fin))))))
            (last_midi_value (@analog_inputs spec_float _ !!! 0%fin))
    = last_midi_value
        (fst (midi_controller_task [steady 4095 true; steady 4095 true]
                (@analog_inputs spec_float _)) !!! 0%fin).
Proof.
  assert (Hall : Forall (fun w => tud_midi_mounted w = true)
                   [steady 4095 true; steady 4095 true])
    by (repeat constructor).
  split; [exact Hall |].
  exact (proj1 (X5_host_in_step_when_mounted _ analog_inputs 0%fin Hall)).
Defined.

(** X6. While the interface is mounted in every pass, no value is sent
    twice in a row for an entry: in the sequence made of the entry's
    initial [last_midi_value] followed by the value bytes of the
    messages written for it, any two neighbours differ. *)
Theorem X6_no_value_repeated_when_mounted {F : Type} `{FloatOps F}
    (ws : list world) (a : analog_input_t F) :
  Forall (fun w => tud_midi_mounted w = true) ws ->
  forall l1 x y l2,
    last_midi_value a
      :: map (fun m => nth 2 (buffer m) 0) (concat (map snd (snd (run_input ws a))))
    = l1 ++ x :: y :: l2 ->
    x <> y.
Proof.
  intros Hall. revert a.
  induction ws as [| w ws IH]; intros a.
  - intros l1 x y l2 E. cbn in E.
    destruct l1 as [| z [| z' l1]]; discriminate E.
  - inversion Hall as [| ? ? Hw Hws]; subst.
    rewrite values_written_cons, map_app.
    destruct (process_input_mounted w a Hw) as [[-> E] | [-> E]].
    + cbn [map app]. rewrite <- E. apply (IH Hws).
    + cbn [map app buffer nth]. apply adjacent_cons.
      * apply (IH Hws).
      * intros y l' Ey. injection Ey as <- _. intros E'. apply E. symmetry. exact E'.
Qed.

Lemma X6_witness :
  Forall (fun w => tud_midi_mounted w = true) [steady 4095 true; steady 4095 true] /\
  last_midi_value (@analog_inputs spec_float _ !!! 0%fin)
    :: map (fun m => nth 2 (buffer m) 0)
         (concat (map snd (snd (run_input [steady 4095 true; steady 4095 true]
                                  (@analog_inputs spec_float _ !!! 0%fin)))))
  = [0] ++ 31 :: 55 :: [] /\
  (31 : Z) <> 55.
Proof.
  assert (Hall : Forall (fun w => tud_midi_mounted w = true)
                   [steady 4095 true; steady 4095 true])
    by (repeat constructor).
  assert (E : last_midi_value (@analog_inputs spec_float _ !!! 0%fin)
                :: map (fun m => nth 2 (buffer m) 0)
                     (concat (map snd (snd (run_input [steady 4095 true; steady 4095 true]
                                              (@analog_inputs spec_float _ !!! 0%fin)))))
              = [0] ++ 31 :: 55 :: [])
    by (vm_compute; reflexivity).
  split; [exact Hall |]. split; [exact E |].
  exact (X6_no_value_repeated_when_mounted [steady 4095 true; steady 4095 true]
           (@analog_inputs spec_float _ !!! 0%fin) Hall [0] 31 55 [] E).
Defined.
(** * The largest value the program computes *)

(** Binary32 numbers of magnitude at least [2 ^ k] are multiples of
    [2 ^ (k - 23)]. *)
Lemma valid_spacing x k :
  nonneg_valid x -> -126 <= k -> 2 ^ (k + 149) <= units x ->
  exists n, units x = n * 2 ^ (k + 126).
Proof.
  intros Hx Hk Hle.
  destruct (nonneg_valid_cases x Hx) as [-> | (m & e & -> & Hfexp & He)].
  - cbn in Hle. pose proof (pow2_pos (k + 149)). lia.
  - change (units (S754_finite false m e)) with (Zpos m * 2 ^ (e + 149)) in *.
    rewrite fexp_eq in Hfexp.
    destruct (Zdigits2_bounds (Zpos m)) as (Hd & _ & Hm); [lia |].
    assert (Hlt : 2 ^ (k + 149) < 2 ^ (Zdigits2 (Zpos m) + (e + 149))).
    { rewrite (pow2_add (Zdigits2 (Zpos m))) by lia.
      pose proof (pow2_pos (e + 149)). nia. }
    apply pow2_le_inv in Hlt; [| lia | lia].
    exists (Zpos m * 2 ^ (e - k + 23)).
    rewrite <- Z.mul_assoc, <- pow2_add by lia. f_equal. f_equal. lia.
Qed.

Lemma pow2_137 : 2 ^ 149 = 4096 * 2 ^ 137 /\ 2 ^ 147 = 1024 * 2 ^ 137 /\ 0 < 2 ^ 137.
Proof. split; [reflexivity |]. split; reflexivity. Qed.

Lemma pow2_125 : 2 ^ 149 = 16777216 * 2 ^ 125 /\ 2 ^ 137 = 4096 * 2 ^ 125 /\ 0 < 2 ^ 125.
Proof. split; [reflexivity |]. split; reflexivity. Qed.

(** The binary32 number just below 4095, and what the program computes
    from it. *)
Lemma below_4095_facts :
  nonneg_valid (S754_finite false 16773119 (-12)) /\
  units (S754_finite false 16773119 (-12)) = 16773119 * 2 ^ 137 /\
  nonneg_valid (S754_finite false 12579839 (-12)) /\
  units (S754_finite false 12579839 (-12)) = 12579839 * 2 ^ 137 /\
  B32.mul (S754_finite false 12582912 (-24)) (S754_finite false 16773119 (-12))
    = S754_finite false 12579839 (-12) /\
  nonneg_valid (S754_finite false 16777215 (-24)) /\
  units (S754_finite false 16777215 (-24)) = 16777215 * 2 ^ 125 /\
  nonneg_valid (S754_finite false 16646143 (-17)) /\
  units (S754_finite false 16646143 (-17)) = 16646143 * 2 ^ 132 /\
  B32.mul (S754_finite false 16777215 (-24)) (S754_finite false 16646144 (-17))
    = S754_finite false 16646143 (-17).
Proof.
  repeat split; vm_compute; reflexivity.
Qed.

(** A binary32 number in [0, 4095] other than 4095 is at most
    [4095 - 2 ^ -12]. *)
Lemma below_4095 (f : spec_float) :
  nonneg_valid f -> units f <= 4095 * 2 ^ 149 ->
  f = S754_finite false 16773120 (-12) \/ units f <= 16773119 * 2 ^ 137.
Proof.
  intros Hf Hle.
  destruct pow2_137 as (E149 & _ & Hpos).
  destruct (Z_le_gt_dec (units f) (16773119 * 2 ^ 137)) as [Hs | Hs]; [right; exact Hs |].
  left.
  destruct (valid_spacing f 11 Hf) as [n Hn]; [lia | |].
  { change (11 + 149) with 160. replace (2 ^ 160) with (2048 * 2 ^ 149) by reflexivity.
    rewrite E149. lia. }
  change (11 + 126) with 137 in Hn.
  apply nonneg_valid_unique; [exact Hf | exact (proj1 (proj2 (proj2 constants_valid))) |].
  rewrite (proj1 (proj2 (proj2 constants_units))).
  rewrite E149 in Hle |- *. rewrite Hn in Hs, Hle |- *.
  assert (n = 16773120) by nia. subst n. lia.
Qed.

(** Below 4095 the filter stays below 4095. *)
Lemma filter_below_4095 raw (f : spec_float) :
  0 <= raw <= 4095 -> nonneg_valid f -> units f <= 16773119 * 2 ^ 137 ->
  nonneg_valid (filter raw f) /\ units (filter raw f) <= 16773119 * 2 ^ 137.
Proof.
  intros Hraw Hf Hle.
  destruct pow2_137 as (E149 & E147 & Hpos).
  destruct below_4095_facts as (HP & EP & HM & EM & Emul & _).
  rewrite filter_binary32.
  destruct (quarter_exact raw) as [Hq Eq]; [lia |].
  assert (Hm : nonneg_valid (B32.mul (S754_finite false 12582912 (-24)) f) /\
               units (B32.mul (S754_finite false 12582912 (-24)) f) <= 12579839 * 2 ^ 137).
  { destruct (Z.eq_dec (units f) (16773119 * 2 ^ 137)) as [E | Hne].
    - assert (f = S754_finite false 16773119 (-12))
        by (apply nonneg_valid_unique; [exact Hf | exact HP | rewrite EP; exact E]).
      subst f. rewrite Emul. split; [exact HM | rewrite EM; lia].
    - assert (Hs : units f <= 16773118 * 2 ^ 137).
      { destruct (Z_le_gt_dec (units f) (16773118 * 2 ^ 137)) as [Hs | Hs]; [exact Hs |].
        destruct (valid_spacing f 11 Hf) as [n Hn]; [lia | |].
        { change (11 + 149) with 160. replace (2 ^ 160) with (2048 * 2 ^ 149) by reflexivity.
          rewrite E149. lia. }
        change (11 + 126) with 137 in Hn. rewrite Hn in *. nia. }
      destruct (three_quarters_faithful f (S754_finite false 12579839 (-12)) Hf HM)
        as (Hv & Hu & _); [rewrite EM; lia |].
      split; [exact Hv | rewrite EM in Hu; exact Hu]. }
  destruct Hm as [Hmv Hmu].
  destruct (add_faithful _ _ (S754_finite false 16773119 (-12)) Hq Hmv HP) as (Hv & Hu & _).
  { rewrite Eq, EP, E147. lia. }
  split; [exact Hv | rewrite EP in Hu; exact Hu].
Qed.

(** Below 4095 the value computed is at most 126. *)
Lemma to_midi_below_4095 (f : spec_float) :
  nonneg_valid f -> units f <= 16773119 * 2 ^ 137 -> to_midi f <= 126.
Proof.
  intros Hf Hle.
  destruct pow2_137 as (E149 & _ & Hpos).
  destruct pow2_125 as (E149' & E137 & Hpos').
  destruct below_4095_facts as (_ & _ & _ & _ & _ & HQ & EQ & HR & ER & Emul).
  destruct constants_valid as (_ & _ & H4095 & H127 & _).
  destruct constants_units as (_ & _ & E4095 & E127 & _).
  assert (Hle' : units f <= 4095 * 2 ^ 149) by (rewrite E149; lia).
  destruct (to_midi_in_range f Hf Hle') as [_ ->].
  destruct (div_faithful f _ (S754_finite false 16777215 (-24)) Hf H4095) as (Hqv & Hqu & _).
  { rewrite E4095. pose proof (pow2_pos 149). lia. }
  { exact HQ. }
  { rewrite EQ, E4095, Z.mul_assoc.
    apply Z.mul_le_mono_nonneg_r; [pose proof (pow2_pos 149); lia |].
    rewrite E137 in Hle. lia. }
  set (q := B32.div f (S754_finite false 16773120 (-12))) in *.
  assert (Hy : nonneg_valid (B32.mul q (S754_finite false 16646144 (-17))) /\
               units (B32.mul q (S754_finite false 16646144 (-17))) <= 16646143 * 2 ^ 132).
  { rewrite EQ in Hqu.
    destruct (Z.eq_dec (units q) (16777215 * 2 ^ 125)) as [E | Hne].
    - assert (Eq : q = S754_finite false 16777215 (-24))
        by (apply nonneg_valid_unique; [exact Hqv | exact HQ | rewrite EQ; exact E]).
      rewrite Eq, Emul. split; [exact HR | rewrite ER; lia].
    - assert (Hs : units q <= 16777214 * 2 ^ 125).
      { destruct (Z_le_gt_dec (units q) (16777214 * 2 ^ 125)) as [Hs | Hs]; [exact Hs |].
        destruct (valid_spacing q (-1) Hqv) as [n Hn]; [lia | |].
        { change (-1 + 149) with 148. replace (2 ^ 148) with (8388608 * 2 ^ 125) by reflexivity.
          lia. }
        change (-1 + 126) with 125 in Hn. rewrite Hn in *. nia. }
      destruct (mul_faithful q _ (S754_finite false 16646143 (-17)) Hqv H127 HR)
        as (Hv & Hu & _).
      { rewrite E127, ER.
        replace (2 ^ 132) with (128 * 2 ^ 125) by reflexivity.
        apply Z.le_trans with (16777214 * 2 ^ 125 * (127 * 2 ^ 149)).
        - apply Z.mul_le_mono_nonneg_r; [pose proof (pow2_pos 149); lia | exact Hs].
        - pose proof (pow2_pos 149). nia. }
      split; [exact Hv | rewrite ER in Hu; exact Hu]. }
  destruct Hy as [Hyv Hyu].
  pose proof (trunc_units _ Hyv) as [Hlo _].
  replace (2 ^ 149) with (131072 * 2 ^ 132) in Hlo by reflexivity.
  assert (0 < 2 ^ 132) by (apply pow2_pos; lia).
  nia.
Qed.

Lemma run_input_below_4095 ws (a : analog_input_t spec_float) :
  Forall in_range ws ->
  nonneg_valid (filtered_value a) -> units (filtered_value a) <= 16773119 * 2 ^ 137 ->
  nonneg_valid (filtered_value (fst (run_input ws a))) /\
  units (filtered_value (fst (run_input ws a))) <= 16773119 * 2 ^ 137.
Proof.
  intros Hws. revert a. induction Hws as [| w ws Hw Hws IH]; intros a Hf Hle.
  - split; assumption.
  - rewrite run_input_cons. cbn [fst].
    destruct (process_input_fields w a) as (_ & _ & Ef & _).
    destruct (filter_below_4095 (adc1_get_raw w (channel a)) _ (Hw _) Hf Hle) as [Hf' Hle'].
    apply IH; rewrite Ef; assumption.
Qed.

(** X7. The conversion to the MIDI range gives 127 for the binary32
    number 4095 and for no other number of the filter's range: every
    [filtered_value] in [0, 4095) gives at most 126. *)
Theorem X7_value_127_only_at_4095 (f : spec_float) :
  nonneg_valid f -> (B2Q f <= 4095)%Q ->
  (to_midi f = 127 <-> (B2Q f == 4095)%Q) /\
  ((B2Q f < 4095)%Q -> 0 <= to_midi f <= 126).
Proof.
  intros Hf HleQ.
  assert (Hle : units f <= 4095 * 2 ^ 149) by (apply (B2Q_le_Z f 4095 Hf); exact HleQ).
  destruct pow2_137 as (E149 & _ & Hpos).
  destruct (below_4095 f Hf Hle) as [-> | Hb].
  - split.
    + split; intros _; vm_compute; reflexivity.
    + intros Hlt. vm_compute in Hlt. discriminate Hlt.
  - pose proof (to_midi_below_4095 f Hf Hb) as Hm.
    pose proof (proj1 (to_midi_in_range f Hf Hle)) as Hr.
    split; [| intros _; lia].
    split; [intros E; lia |].
    intros E. exfalso.
    assert (Hge : (inject_Z 4095 <= B2Q f)%Q) by (rewrite E; apply Qle_refl).
    apply (B2Q_ge_Z f 4095 Hf) in Hge. rewrite E149 in Hge. lia.
Qed.

Lemma X7_witness :
  nonneg_valid (cold_start 4095 60 : spec_float) /\
  Qle (B2Q (cold_start 4095 60)) (inject_Z 4095) /\
  Qlt (B2Q (cold_start 4095 60)) (inject_Z 4095) /\
  0 <= to_midi (cold_start 4095 60 : spec_float) <= 126.
Proof.
  assert (H1 : nonneg_valid (cold_start 4095 60 : spec_float)) by (vm_compute; tauto).
  assert (H2 : Qle (B2Q (cold_start 4095 60)) (inject_Z 4095))
    by (vm_compute; discriminate).
  assert (H3 : Qlt (B2Q (cold_start 4095 60)) (inject_Z 4095))
    by (vm_compute; reflexivity).
  split; [exact H1 |]. split; [exact H2 |]. split; [exact H3 |].
  exact (proj2 (X7_value_127_only_at_4095 (cold_start 4095 60) H1 H2) H3).
Defined.

(** X8. The program never computes the controller value 127.  In any
    run from the initial state with readings in [0, 4095], every
    [filtered_value] stays below 4095, every value computed is in
    [0, 126], and so is the value byte of every message written. *)
Theorem X8_never_full_scale (ws : list world) (w : world) (i : fin 3) :
  Forall in_range ws -> in_range w ->
  let inputs := fst (midi_controller_task ws (@analog_inputs spec_float _)) in
  (B2Q (filtered_value (inputs !!! i)) < 4095)%Q /\
  0 <= midi_value_of w (inputs !!! i) <= 126 /\
  (forall m, In m (sent_by w inputs i) -> 0 <= nth 2 (buffer m) 0 <= 126).
Proof.
  intros Hws Hw inputs.
  destruct pow2_137 as (E149 & _ & Hpos).
  destruct (initial_entries i) as (E0 & _ & _).
  destruct (run_input_below_4095 ws (analog_inputs !!! i) Hws) as [Hf Hle].
  { rewrite E0. reflexivity. }
  { rewrite E0. cbn. lia. }
  rewrite <- midi_controller_task_entry in Hf, Hle. fold inputs in Hf, Hle.
  assert (Hle' : units (filtered_value (inputs !!! i)) <= 4095 * 2 ^ 149)
    by (rewrite E149; lia).
  assert (Hv : 0 <= midi_value_of w (inputs !!! i) <= 126).
  { unfold midi_value_of.
    destruct (filter_below_4095 (adc1_get_raw w (channel (inputs !!! i))) _ (Hw _) Hf Hle)
      as [Hf1 Hle1].
    split.
    - apply to_midi_in_range; [exact Hf1 | rewrite E149; lia].
    - apply to_midi_below_4095; assumption. }
  split; [apply (B2Q_lt_Z _ 4095 Hf); rewrite E149; lia |].
  split; [exact Hv |].
  intros m Hin.
  destruct (process_input_in_range w (inputs !!! i) Hw Hf Hle')
    as (_ & _ & _ & _ & [Hnone | Hone]); unfold sent_by in Hin.
  - rewrite Hnone in Hin. destruct Hin.
  - rewrite Hone in Hin. destruct Hin as [<- | []]. exact Hv.
Qed.

Lemma X8_witness :
  Forall in_range [steady 4095 true; steady 4095 true] /\ in_range (steady 4095 true) /\
  0 <= midi_value_of (steady 4095 true)
         (fst (midi_controller_task [steady 4095 true; steady 4095 true]
                 (@analog_inputs spec_float _)) !!! 0%fin) <= 126.
Proof.
  assert (Hw : in_range (steady 4095 true)) by (intros c; cbn; lia).
  assert (Hws : Forall in_range [steady 4095 true; steady 4095 true])
    by (constructor; [exact Hw | constructor; [exact Hw | constructor]]).
  split; [exact Hws |]. split; [exact Hw |].
  exact (proj1 (proj2 (X8_never_full_scale _ (steady 4095 true) 0%fin Hws Hw))).
Defined.
(** * Change gating *)

(** While the interface is mounted in every pass, the value an entry
    stores is the value byte of the last message written for it. *)
Lemma stored_is_last_written {F : Type} `{FloatOps F} ws (a : analog_input_t F) :
  Forall (fun w => tud_midi_mounted w = true) ws ->
  last_midi_value (fst (run_input ws a))
  = List.last (map (fun m => nth 2 (buffer m) 0)
                 (concat (map snd (snd (run_input ws a)))))
              (last_midi_value a).
Proof.
  intros Hall. revert a.
  induction Hall as [| w ws Hw Hws IH]; intros a; [reflexivity |].
  rewrite values_written_cons, map_app, last_app_default, run_input_cons. cbn [fst].
  rewrite IH. f_equal.
  destruct (process_input_mounted w a Hw) as [[-> E] | [-> _]].
  - cbn. exact E.
  - reflexivity.
Qed.

(** C4, as the code has it.  In every pass an entry writes at most one
    message, and a message only when the value just computed differs
    from [last_midi_value]; the pass then stores the value just computed
    in [last_midi_value], written or not, so the value compared against
    is the value computed in the pass before.  It is the value last
    transmitted as long as the interface was mounted in every pass so
    far.  When the next pass computes the same value for an entry, that
    pass writes nothing for it, so the two passes write at most one
    message for the entry. *)
Theorem C4_change_gating {F : Type} `{FloatOps F}
    (ws : list world) (w1 w2 : world) (inputs0 : vec (analog_input_t F) 3) (i : fin 3) :
  let inputs := fst (midi_controller_task ws inputs0) in
  let next := fst (process_analog_inputs w1 inputs) in
  snd (process_analog_inputs w1 inputs)
    = sent_by w1 inputs 0%fin ++ sent_by w1 inputs 1%fin ++ sent_by w1 inputs 2%fin /\
  (sent_by w1 inputs i <> [] ->
     midi_value_of w1 (inputs !!! i) <> last_midi_value (inputs !!! i)) /\
  (length (sent_by w1 inputs i) <= 1)%nat /\
  last_midi_value (next !!! i) = midi_value_of w1 (inputs !!! i) /\
  (Forall (fun w => tud_midi_mounted w = true) ws ->
     last_midi_value (inputs !!! i)
     = List.last (map (fun m => nth 2 (buffer m) 0)
                    (concat (map snd (snd (run_input ws (inputs0 !!! i))))))
                 (last_midi_value (inputs0 !!! i))) /\
  (midi_value_of w2 (next !!! i) = midi_value_of w1 (inputs !!! i) ->
     sent_by w2 next i = [] /\
     (length (sent_by w1 inputs i) + length (sent_by w2 next i) <= 1)%nat).
Proof.
  intros inputs next.
  split; [now rewrite process_analog_inputs_unfold |].
  assert (H1 : sent_by w1 inputs i <> [] ->
               midi_value_of w1 (inputs !!! i) <> last_midi_value (inputs !!! i)).
  { unfold sent_by. rewrite process_input_writes.
    destruct (Z.eqb_spec (midi_value_of w1 (inputs !!! i)) (last_midi_value (inputs !!! i)));
      cbn [negb]; [intros Hn; now contradict Hn | auto]. }
  assert (H3 : (length (sent_by w1 inputs i) <= 1)%nat).
  { unfold sent_by. rewrite process_input_writes. unfold send_midi_cc.
    destruct (negb _); [destruct (tud_midi_mounted w1) |]; cbn; lia. }
  split; [exact H1 |]. split; [exact H3 |]. split.
  { unfold next. rewrite process_analog_inputs_entry.
    exact (proj2 (proj2 (proj2 (process_input_fields w1 (inputs !!! i))))). }
  split.
  { intros Hall. unfold inputs. rewrite midi_controller_task_entry.
    apply stored_is_last_written. exact Hall. }
  intros Hsame.
  assert (H2 : sent_by w2 next i = []) by (apply same_value_sends_nothing; exact Hsame).
  split; [exact H2 |]. rewrite H2. cbn [length]. lia.
Qed.

Lemma C4_witness :
  midi_value_of (steady 100 true)
    (fst (process_analog_inputs (steady 100 true)
            (fst (midi_controller_task [steady 100 true] (@analog_inputs spec_float _))))
       !!! 0%fin)
  = midi_value_of (steady 100 true)
      (fst (midi_controller_task [steady 100 true] (@analog_inputs spec_float _))
         !!! 0%fin) /\
  sent_by (steady 100 true)
    (fst (midi_controller_task [steady 100 true] (@analog_inputs spec_float _))) 0%fin
  = [control_change 1 1] /\
  sent_by (steady 100 true)
    (fst (process_analog_inputs (steady 100 true)
            (fst (midi_controller_task [steady 100 true] (@analog_inputs spec_float _)))))
    0%fin = [].
Proof.
  assert (Hsame :
    midi_value_of (steady 100 true)
      (fst (process_analog_inputs (steady 100 true)
              (fst (midi_controller_task [steady 100 true] (@analog_inputs spec_float _))))
         !!! 0%fin)
    = midi_value_of (steady 100 true)
        (fst (midi_controller_task [steady 100 true] (@analog_inputs spec_float _))
           !!! 0%fin)) by (vm_compute; reflexivity).
  split; [exact Hsame |].
  split; [vm_compute; reflexivity |].
  exact (proj1 (proj2 (proj2 (proj2 (proj2 (proj2
           (C4_change_gating [steady 100 true] (steady 100 true) (steady 100 true)
              (@analog_inputs spec_float _) 0%fin))))) Hsame)).
Defined.

(** C4, as the specification has it, fails.  Every channel reads 4095
    with the interface mounted, then 0 with it not mounted, then 1760
    with it mounted.  The first pass writes the value 31; the second
    computes 23, writes nothing and stores 23; the third computes 31,
    which is the value last transmitted, and writes it again. *)
Lemma C4_counterexample :
  let ws := [steady 4095 true; steady 0 false] in
  let inputs := fst (midi_controller_task ws (@analog_inputs spec_float _)) in
  snd (midi_controller_task ws (@analog_inputs spec_float _))
    = [ [control_change 1 31; control_change 2 31; control_change 3 31]; [] ] /\
  concat (map snd (snd (run_input ws (@analog_inputs spec_float _ !!! 0%fin))))
    = [control_change 1 31] /\
  last_midi_value (inputs !!! 0%fin) = 23 /\
  tud_midi_mounted (steady 1760 true) = true /\
  midi_value_of (steady 1760 true) (inputs !!! 0%fin) = 31 /\
  sent_by (steady 1760 true) inputs 0%fin = [control_change 1 31] /\
  snd (midi_controller_task (ws ++ [steady 1760 true]) (@analog_inputs spec_float _))
    = [ [control_change 1 31; control_change 2 31; control_change 3 31];
        [];
        [control_change 1 31; control_change 2 31; control_change 3 31] ].
Proof.
  cbv zeta. repeat split; vm_compute; reflexivity.
Qed.
(** * The code against exact arithmetic *)

Lemma filter_run_cons {F : Type} `{FloatOps F} raw raws (f : F) :
  filter_run (raw :: raws) f = filter_run raws (filter raw f).
Proof. reflexivity. Qed.

Lemma B2Q_nonneg x : nonneg_valid x -> (0 <= B2Q x)%Q.
Proof.
  intros Hx. apply (B2Q_ge_Z x 0 Hx). pose proof (units_nonneg x). lia.
Qed.

Lemma filter_range_Q raw (f : spec_float) :
  0 <= raw <= 4095 -> nonneg_valid f -> (B2Q f <= 4095)%Q ->
  nonneg_valid (filter raw f) /\ (B2Q (filter raw f) <= 4095)%Q.
Proof.
  intros Hraw Hf Hle.
  apply (B2Q_le_Z f 4095 Hf) in Hle.
  destruct (filter_in_range raw f Hraw Hf Hle) as [Hv Hu].
  split; [exact Hv |]. apply (B2Q_le_Z _ 4095 Hv). exact Hu.
Qed.

(** One step keeps the code within [2 ^ -9] of the exact filter. *)
Lemma filter_track raw (f : spec_float) (g : Q) :
  0 <= raw <= 4095 -> nonneg_valid f -> (B2Q f <= 4095)%Q ->
  (Qabs (B2Q f - g) < 1 # 512)%Q ->
  (Qabs (B2Q (filter raw f) - filter raw g) < 1 # 512)%Q.
Proof.
  intros Hraw Hf Hle Hg.
  destruct (filter_error_Q raw f Hraw Hf Hle) as [_ He].
  pose proof (filter_rational raw g) as Eg.
  apply Qabs_Qlt_condition in Hg. apply Qabs_Qlt_condition in He.
  apply Qabs_Qlt_condition.
  set (x := B2Q (filter raw f)) in *. set (y := filter raw g) in *.
  set (r := inject_Z raw) in *. set (b := B2Q f) in *.
  lra.
Qed.

Lemma filter_run_track raws (f : spec_float) (g : Q) :
  Forall (fun raw => 0 <= raw <= 4095) raws ->
  nonneg_valid f -> (B2Q f <= 4095)%Q ->
  (Qabs (B2Q f - g) < 1 # 512)%Q ->
  (Qabs (B2Q (filter_run raws f) - filter_run raws g) < 1 # 512)%Q.
Proof.
  intros Hraws. revert f g.
  induction Hraws as [| raw raws Hraw Hraws IH]; intros f g Hf Hle Hg; [exact Hg |].
  rewrite !filter_run_cons.
  destruct (filter_range_Q raw f Hraw Hf Hle) as [Hf' Hle'].
  apply IH; [exact Hf' | exact Hle' |].
  exact (filter_track raw f g Hraw Hf Hle Hg).
Qed.

Lemma Qabs_self_small (x : Q) : (Qabs (x - x) < 1 # 512)%Q.
Proof. apply Qabs_Qlt_condition. lra. Qed.

Lemma filter_run_rational_range raws (g : Q) :
  Forall (fun raw => 0 <= raw <= 4095) raws ->
  (0 <= g <= 4095)%Q -> (0 <= filter_run raws g <= 4095)%Q.
Proof.
  intros Hraws. revert g.
  induction Hraws as [| raw raws Hraw Hraws IH]; intros g Hg; [exact Hg |].
  rewrite filter_run_cons. apply IH.
  rewrite filter_rational.
  assert (H0 : (inject_Z 0 <= inject_Z raw)%Q) by (rewrite <- Zle_Qle; lia).
  assert (H1 : (inject_Z raw <= inject_Z 4095)%Q) by (rewrite <- Zle_Qle; lia).
  change (inject_Z 0) with 0%Q in H0. change (inject_Z 4095) with 4095%Q in H1.
  set (r := inject_Z raw) in *. lra.
Qed.

Lemma filter_run_rational_constant v n (g : Q) :
  (filter_run (repeat v n) g
   == inject_Z v + (3 # 4) ^ Z.of_nat n * (g - inject_Z v))%Q.
Proof.
  induction n as [| n IH].
  - change (filter_run (repeat v 0) g) with g.
    change ((3 # 4) ^ Z.of_nat 0)%Q with 1%Q. ring.
  - rewrite filter_run_snoc, filter_rational, IH.
    replace (Z.of_nat (S n)) with (Z.of_nat n + 1)%Z by lia.
    rewrite Qpower_plus by discriminate.
    change ((3 # 4) ^ 1)%Q with (3 # 4)%Q. ring.
Qed.

(** X9. However long the run, rounding never moves the filter far from
    its exact value: fed any samples in [0, 4095], the binary32
    [filtered_value] stays within [2 ^ -9] of the value the same
    filter takes in exact arithmetic from the same start. *)
Theorem X9_filter_tracks_exact (raws : list Z) (f : spec_float) :
  Forall (fun raw => 0 <= raw <= 4095) raws ->
  nonneg_valid f -> (B2Q f <= 4095)%Q ->
  (Qabs (B2Q (filter_run raws f) - filter_run raws (B2Q f)) < 1 # 512)%Q.
Proof.
  intros Hraws Hf Hle.
  exact (filter_run_track raws f (B2Q f) Hraws Hf Hle (Qabs_self_small _)).
Qed.

Lemma X9_witness :
  Forall (fun raw => 0 <= raw <= 4095) [2174; 438; 1590; 2932] /\
  nonneg_valid (fl_lit 0 : spec_float) /\
  Qle (B2Q (fl_lit 0)) (inject_Z 4095) /\
  Qlt (Qabs (Qminus (B2Q (filter_run [2174; 438; 1590; 2932] (fl_lit 0)))
                    (filter_run [2174; 438; 1590; 2932] (B2Q (fl_lit 0)))))
      (1 # 512).
Proof.
  assert (H1 : Forall (fun raw => 0 <= raw <= 4095) [2174; 438; 1590; 2932])
    by (repeat constructor; lia).
  assert (H2 : nonneg_valid (fl_lit 0 : spec_float)) by reflexivity.
  assert (H3 : Qle (B2Q (fl_lit 0)) (inject_Z 4095)) by (vm_compute; discriminate).
  split; [exact H1 |]. split; [exact H2 |]. split; [exact H3 |].
  exact (X9_filter_tracks_exact [2174; 438; 1590; 2932] (fl_lit 0) H1 H2 H3).
Defined.

(** X10. Step response.  Reading the constant [v], after [n] passes the
    binary32 [filtered_value] is within [2 ^ -9] of
    [v + (3/4) ^ n * (f - v)], where [f] is the value it started from:
    the distance to [v] is multiplied by 3/4 at each pass, down to the
    rounding error. *)
Theorem X10_step_response (v : Z) (n : nat) (f : spec_float) :
  0 <= v <= 4095 -> nonneg_valid f -> (B2Q f <= 4095)%Q ->
  (Qabs (B2Q (filter_run (repeat v n) f)
         - (inject_Z v + (3 # 4) ^ Z.of_nat n * (B2Q f - inject_Z v))) < 1 # 512)%Q.
Proof.
  intros Hv Hf Hle.
  rewrite <- filter_run_rational_constant.
  apply filter_run_track; [| exact Hf | exact Hle | apply Qabs_self_small].
  apply List.Forall_forall. intros x Hx. apply repeat_spec in Hx. subst x. exact Hv.
Qed.

Lemma X10_witness :
  0 <= 4095 <= 4095 /\
  nonneg_valid (fl_lit 0 : spec_float) /\
  Qle (B2Q (fl_lit 0)) (inject_Z 4095) /\
  Qlt (Qabs (Qminus (B2Q (filter_run (repeat 4095 2) (fl_lit 0)))
                    (Qplus (inject_Z 4095)
                       (Qmult (Qpower (3 # 4) (Z.of_nat 2))
                              (Qminus (B2Q (fl_lit 0)) (inject_Z 4095))))))
      (1 # 512).
Proof.
  assert (H1 : 0 <= 4095 <= 4095) by lia.
  assert (H2 : nonneg_valid (fl_lit 0 : spec_float)) by reflexivity.
  assert (H3 : Qle (B2Q (fl_lit 0)) (inject_Z 4095)) by (vm_compute; discriminate).
  split; [exact H1 |]. split; [exact H2 |]. split; [exact H3 |].
  exact (X10_step_response 4095 2 (fl_lit 0) H1 H2 H3).
Defined.
(** * The value computed against exact arithmetic *)

Lemma inject_Z_lt a b : (inject_Z a < inject_Z b)%Q -> a < b.
Proof. intros Hlt. rewrite Zlt_Qlt. exact Hlt. Qed.

(** X11. Rounding changes the value computed by at most one step: fed
    any samples in [0, 4095] from the same start, the value the code
    computes and the value the same pipeline computes in exact
    arithmetic differ by at most 1. *)
Theorem X11_value_within_one_of_exact (raws : list Z) (f : spec_float) :
  Forall (fun raw => 0 <= raw <= 4095) raws ->
  nonneg_valid f -> (B2Q f <= 4095)%Q ->
  Z.abs (to_midi (filter_run raws f) - to_midi (filter_run raws (B2Q f))) <= 1.
Proof.
  intros Hraws Hf Hle.
  pose proof (filter_run_track raws f (B2Q f) Hraws Hf Hle (Qabs_self_small _)) as Ht.
  apply Qabs_Qlt_condition in Ht.
  assert (Hle' : units f <= 4095 * 2 ^ 149) by (apply (B2Q_le_Z f 4095 Hf); exact Hle).
  destruct (filter_run_in_range raws f Hraws Hf Hle') as [Hv Hu].
  apply (B2Q_le_Z _ 4095 Hv) in Hu.
  destruct (to_midi_error_Q _ Hv Hu) as [_ Hm].
  destruct (filter_run_rational_range raws (B2Q f) Hraws) as [Hg0 Hg1].
  { split; [apply B2Q_nonneg; exact Hf | exact Hle]. }
  destruct (to_midi_rational (filter_run raws (B2Q f))) as [Ek _]; [split; assumption |].
  rewrite Ek.
  pose proof (Qfloor_le (filter_run raws (B2Q f) / 4095 * 127)) as Hlo.
  pose proof (Qlt_floor (filter_run raws (B2Q f) / 4095 * 127)) as Hhi.
  rewrite inject_Z_plus in Hhi. change (inject_Z 1) with 1%Q in Hhi.
  set (k := Qfloor (filter_run raws (B2Q f) / 4095 * 127)) in *.
  set (m := to_midi (filter_run raws f)) in *.
  set (x := B2Q (filter_run raws f)) in *.
  set (y := filter_run raws (B2Q f)) in *.
  unfold Qdiv in *. change (/ 4095)%Q with (1 # 4095)%Q in *.
  assert (H1 : (inject_Z k < inject_Z (m + 2))%Q).
  { rewrite inject_Z_plus. change (inject_Z 2) with 2%Q. lra. }
  assert (H2 : (inject_Z m < inject_Z (k + 2))%Q).
  { rewrite inject_Z_plus. change (inject_Z 2) with 2%Q. lra. }
  apply inject_Z_lt in H1. apply inject_Z_lt in H2. lia.
Qed.

Lemma X11_witness :
  Forall (fun raw => 0 <= raw <= 4095) [2174; 438; 1590; 2932] /\
  nonneg_valid (fl_lit 0 : spec_float) /\
  Qle (B2Q (fl_lit 0)) (inject_Z 4095) /\
  Z.abs (to_midi (filter_run [2174; 438; 1590; 2932] (fl_lit 0 : spec_float))
         - to_midi (filter_run [2174; 438; 1590; 2932] (B2Q (fl_lit 0)))) <= 1.
Proof.
  assert (H1 : Forall (fun raw => 0 <= raw <= 4095) [2174; 438; 1590; 2932])
    by (repeat constructor; lia).
  assert (H2 : nonneg_valid (fl_lit 0 : spec_float)) by reflexivity.
  assert (H3 : Qle (B2Q (fl_lit 0)) (inject_Z 4095)) by (vm_compute; discriminate).
  split; [exact H1 |]. split; [exact H2 |]. split; [exact H3 |].
  exact (X11_value_within_one_of_exact [2174; 438; 1590; 2932] (fl_lit 0) H1 H2 H3).
Defined.

(** Within [2 ^ -9] of an integer [v] below 4095 the value computed is
    that of [v] itself. *)
Lemma to_midi_near v (f : spec_float) :
  0 <= v <= 4094 -> nonneg_valid f -> (B2Q f <= 4095)%Q ->
  (Qabs (B2Q f - inject_Z v) < 1 # 512)%Q ->
  to_midi f = 127 * v / 4095.
Proof.
  intros Hv Hf HleQ Hn.
  apply Qabs_Qlt_condition in Hn.
  destruct (to_midi_error_Q f Hf HleQ) as [Hr Hm].
  set (m := to_midi f) in *.
  set (x := B2Q f) in *.
  unfold Qdiv in *. change (/ 4095)%Q with (1 # 4095)%Q in *.
  assert (H1 : (inject_Z (4095 * m) < inject_Z (127 * v + 1))%Q).
  { rewrite inject_Z_plus, !inject_Z_mult.
    change (inject_Z 4095) with 4095%Q. change (inject_Z 127) with 127%Q.
    change (inject_Z 1) with 1%Q. lra. }
  assert (H2 : (inject_Z (127 * v) < inject_Z (4095 * (m + 1) + 1))%Q).
  { rewrite !inject_Z_plus, !inject_Z_mult, inject_Z_plus.
    change (inject_Z 4095) with 4095%Q. change (inject_Z 127) with 127%Q.
    change (inject_Z 1) with 1%Q. lra. }
  apply inject_Z_lt in H1. apply inject_Z_lt in H2.
  assert (Hne : 127 * v <> 4095 * (m + 1)).
  { intros E.
    assert (Hd : (4095 | v)).
    { apply Z.gauss with 127; [exists (m + 1); lia | reflexivity]. }
    destruct Hd as [c Hc]. lia. }
  apply Z.div_unique with (127 * v - 4095 * m); lia.
Qed.

(** The value computed from a filter that has settled on [v]. *)
Lemma settled_value v (f : spec_float) :
  0 <= v <= 4094 -> nonneg_valid f -> units f <= 4095 * 2 ^ 149 ->
  filter v f = f -> to_midi f = 127 * v / 4095.
Proof.
  intros Hv Hf Hle Efix.
  apply to_midi_near; [exact Hv | exact Hf | apply (B2Q_le_Z f 4095 Hf); exact Hle |].
  apply settled_near; [lia | exact Hf | exact Hle | exact Efix].
Qed.

(** X12. Steady state.  Reading a constant [v] in [0, 4094], after
    finitely many passes the value computed is the exact
    [floor (127 * v / 4095)] and stays so: rounding costs nothing once
    the filter has settled. *)
Theorem X12_steady_state_value (v : Z) (f : spec_float) :
  0 <= v <= 4094 -> nonneg_valid f -> (B2Q f <= 4095)%Q ->
  exists N, forall k, (N <= k)%nat ->
    to_midi (filter_run (repeat v k) f) = 127 * v / 4095.
Proof.
  intros Hv Hf HleQ.
  assert (Hle : units f <= 4095 * 2 ^ 149) by (apply (B2Q_le_Z f 4095 Hf); exact HleQ).
  destruct (filter_settles v f) as (N & HN); [lia | exact Hf | exact Hle |].
  exists N. intros k Hk. rewrite (HN k Hk).
  destruct (filter_run_toward v N f) as (HfN & HleN & _); [lia | exact Hf | exact Hle |].
  apply settled_value; [exact Hv | exact HfN | exact HleN |].
  rewrite <- filter_run_snoc. apply HN. lia.
Qed.

Lemma X12_witness :
  0 <= 100 <= 4094 /\
  nonneg_valid (fl_lit 0 : spec_float) /\
  Qle (B2Q (fl_lit 0)) (inject_Z 4095) /\
  exists N, forall k, (N <= k)%nat ->
    to_midi (filter_run (repeat 100 k) (fl_lit 0 : spec_float)) = 127 * 100 / 4095.
Proof.
  assert (H1 : 0 <= 100 <= 4094) by lia.
  assert (H2 : nonneg_valid (fl_lit 0 : spec_float)) by reflexivity.
  assert (H3 : Qle (B2Q (fl_lit 0)) (inject_Z 4095)) by (vm_compute; discriminate).
  split; [exact H1 |]. split; [exact H2 |]. split; [exact H3 |].
  exact (X12_steady_state_value 100 (fl_lit 0) H1 H2 H3).
Defined.

(** X13. One pass moves the value computed by at most 32 steps: for an
    entry holding a binary32 number in [0, 4095] and a reading in
    [0, 4095], the value computed after the update and the value
    computed from the [filtered_value] before it differ by at most 32. *)
Theorem X13_one_pass_moves_at_most_32 (w : world) (a : analog_input_t spec_float) :
  0 <= adc1_get_raw w (channel a) <= 4095 ->
  nonneg_valid (filtered_value a) -> (B2Q (filtered_value a) <= 4095)%Q ->
  Z.abs (midi_value_of w a - to_midi (filtered_value a)) <= 32.
Proof.
  intros Hraw Hf Hle. unfold midi_value_of.
  set (raw := adc1_get_raw w (channel a)) in *. set (f := filtered_value a) in *.
  destruct (filter_error_Q raw f Hraw Hf Hle) as [Hf' He].
  destruct (filter_range_Q raw f Hraw Hf Hle) as [_ Hle'].
  apply Qabs_Qlt_condition in He.
  destruct (to_midi_error_Q f Hf Hle) as [_ Hm].
  destruct (to_midi_error_Q _ Hf' Hle') as [_ Hm'].
  pose proof (B2Q_nonneg f Hf) as H0.
  assert (Hr0 : (inject_Z 0 <= inject_Z raw)%Q) by (rewrite <- Zle_Qle; lia).
  assert (Hr1 : (inject_Z raw <= inject_Z 4095)%Q) by (rewrite <- Zle_Qle; lia).
  change (inject_Z 0) with 0%Q in Hr0. change (inject_Z 4095) with 4095%Q in Hr1.
  set (m := to_midi f) in *. set (m' := to_midi (filter raw f)) in *.
  set (x := B2Q f) in *. set (x' := B2Q (filter raw f)) in *.
  set (r := inject_Z raw) in *.
  unfold Qdiv in *. change (/ 4095)%Q with (1 # 4095)%Q in *.
  assert (H1 : (inject_Z m' < inject_Z (m + 33))%Q).
  { rewrite inject_Z_plus. change (inject_Z 33) with 33%Q. lra. }
  assert (H2 : (inject_Z m < inject_Z (m' + 33))%Q).
  { rewrite inject_Z_plus. change (inject_Z 33) with 33%Q. lra. }
  apply inject_Z_lt in H1. apply inject_Z_lt in H2. lia.
Qed.

Lemma X13_witness :
  0 <= adc1_get_raw (steady 4095 true)
         (channel (@analog_inputs spec_float _ !!! 0%fin)) <= 4095 /\
  nonneg_valid (filtered_value (@analog_inputs spec_float _ !!! 0%fin)) /\
  Qle (B2Q (filtered_value (@analog_inputs spec_float _ !!! 0%fin))) (inject_Z 4095) /\
  Z.abs (midi_value_of (steady 4095 true) (@analog_inputs spec_float _ !!! 0%fin)
         - to_midi (filtered_value (@analog_inputs spec_float _ !!! 0%fin))) <= 32.
Proof.
  assert (H1 : 0 <= adc1_get_raw (steady 4095 true)
                      (channel (@analog_inputs spec_float _ !!! 0%fin)) <= 4095)
    by (cbn; lia).
  assert (H2 : nonneg_valid (filtered_value (@analog_inputs spec_float _ !!! 0%fin)))
    by (vm_compute; reflexivity).
  assert (H3 : Qle (B2Q (filtered_value (@analog_inputs spec_float _ !!! 0%fin)))
                   (inject_Z 4095))
    by (vm_compute; discriminate).
  split; [exact H1 |]. split; [exact H2 |]. split; [exact H3 |].
  exact (X13_one_pass_moves_at_most_32 (steady 4095 true) (analog_inputs !!! 0%fin)
           H1 H2 H3).
Defined.
(** * Rounding to nearest *)

Lemma shr_record_of_loc_exact N D :
  0 < D -> shr_exact N D (shr_record_of_loc (N / D) (loc_of N D)).
Proof.
  intros HD. unfold shr_exact, loc_of.
  pose proof (Z.mod_pos_bound N D HD) as Hmod.
  destruct (Z.eqb_spec (N mod D) 0) as [E | E].
  - cbn. rewrite E. split; [reflexivity |]. split; [| reflexivity].
    symmetry. apply Z.leb_gt. lia.
  - destruct (Z.compare_spec (2 * (N mod D)) D) as [Ec | Ec | Ec]; cbn;
      (split; [reflexivity |]); split.
    + symmetry. apply Z.leb_le. lia.
    + symmetry. rewrite Ec. rewrite Z.eqb_refl. reflexivity.
    + symmetry. apply Z.leb_gt. lia.
    + symmetry. destruct (Z.eqb_spec (2 * (N mod D)) D); [lia | reflexivity].
    + symmetry. apply Z.leb_le. lia.
    + symmetry. destruct (Z.eqb_spec (2 * (N mod D)) D); [lia | reflexivity].
Qed.

Lemma mod_double N D :
  0 <= N -> 0 < D ->
  N mod (D * 2) = N mod D + (if Z.odd (N / D) then D else 0) /\
  N / (D * 2) = N / D / 2.
Proof.
  intros HN HD.
  pose proof (Z.div_mod N D ltac:(lia)) as E1.
  pose proof (Z.mod_pos_bound N D HD) as B1.
  pose proof (Z.div_mod (N / D) 2 ltac:(lia)) as E2.
  pose proof (Z.mod_pos_bound (N / D) 2 ltac:(lia)) as B2.
  assert (Eodd : (if Z.odd (N / D) then D else 0) = D * ((N / D) mod 2)).
  { rewrite Zmod_odd. destruct (Z.odd (N / D)); lia. }
  rewrite Eodd.
  assert (Hq : N / (D * 2) = N / D / 2) by (symmetry; apply Z.div_div; lia).
  split; [| exact Hq].
  pose proof (Z.div_mod N (D * 2) ltac:(lia)) as E3.
  rewrite Hq in E3. nia.
Qed.

Lemma shr_1_exact N D r :
  0 <= N -> 0 < D -> shr_exact N D r -> shr_exact N (D * 2) (shr_1 r).
Proof.
  intros HN HD (Hm & Hr & Hs).
  assert (Hpos : 0 <= shr_m r) by (rewrite Hm; apply Z.div_pos; lia).
  destruct (shr_1_fields r Hpos) as (Em & Er & Es).
  destruct (mod_double N D HN HD) as [Emod Ediv].
  pose proof (Z.mod_pos_bound N D HD) as B1.
  unfold shr_exact. rewrite Em, Er, Es, Hm, Hr, Hs, Emod, Ediv.
  split; [reflexivity |].
  destruct (Z.odd (N / D)); split.
  - symmetry. apply Z.leb_le. lia.
  - destruct (Z.leb_spec D (2 * (N mod D))), (Z.eqb_spec (N mod D) 0),
      (Z.eqb_spec (2 * (N mod D)) D), (Z.eqb_spec (N mod D + D) 0),
      (Z.eqb_spec (2 * (N mod D + D)) (D * 2)); cbn; try reflexivity; lia.
  - symmetry. apply Z.leb_gt. lia.
  - destruct (Z.leb_spec D (2 * (N mod D))), (Z.eqb_spec (N mod D) 0),
      (Z.eqb_spec (2 * (N mod D)) D), (Z.eqb_spec (N mod D + 0) 0),
      (Z.eqb_spec (2 * (N mod D + 0)) (D * 2)); cbn; try reflexivity; lia.
Qed.

Lemma shr_exact_shr N D r e n :
  0 <= N -> 0 < D -> shr_exact N D r ->
  shr_exact N (D * 2 ^ Z.max 0 n) (fst (shr r e n)).
Proof.
  intros HN HD Hr. destruct n as [| p | p]; cbn [shr fst snd].
  - rewrite Z.max_l by lia. change (2 ^ 0) with 1. rewrite Z.mul_1_r. assumption.
  - rewrite Z.max_r by lia.
    pose proof (iter_pos_invariant shr_1
      (fun k x => shr_exact N (D * 2 ^ k) x)) as Hit.
    change (Zpos p) with (0 + Zpos p). apply Hit; [| lia |].
    + intros k x Hk Hx. rewrite pow2_succ by lia.
      replace (D * (2 * 2 ^ k)) with (D * 2 ^ k * 2) by lia.
      apply shr_1_exact; [lia | | assumption].
      pose proof (pow2_pos k Hk). nia.
    + change (2 ^ 0) with 1. rewrite Z.mul_1_r. assumption.
  - rewrite Z.max_l by lia. change (2 ^ 0) with 1. rewrite Z.mul_1_r. assumption.
Qed.

Lemma shr_exact_repr N D r : 0 < D -> shr_exact N D r -> shr_repr N D r.
Proof.
  intros HD (Hm & Hr & Hs). split; [exact Hm |].
  intros E. rewrite Hr, Hs, E. cbn. split; [apply Z.leb_gt; lia | reflexivity].
Qed.

(** The mantissa chosen is an integer nearest to [N / D]. *)
Lemma round_nearest_even_exact N D r :
  0 < D -> shr_exact N D r ->
  2 * Z.abs (round_nearest_even (shr_m r) (loc_of_shr_record r) * D - N) <= D.
Proof.
  intros HD (Hm & Hr & Hs). destruct r as [m rb sb]; cbn [shr_m shr_r shr_s] in *.
  subst m.
  pose proof (Z.div_mod N D ltac:(lia)) as E1.
  pose proof (Z.mod_pos_bound N D HD) as B1.
  destruct (Z.leb_spec D (2 * (N mod D))), (Z.eqb_spec (N mod D) 0),
    (Z.eqb_spec (2 * (N mod D)) D); subst rb sb; cbn;
    try destruct (Z.even (N / D)); lia.
Qed.

(** One rounding step, with the distance to the exact value. *)
Lemma binary_round_aux_near_char mx ex N D :
  0 <= N -> 0 < D -> mx = N / D ->
  ex <= fexp B32.prec B32.emax (Zdigits2 mx + ex) ->
  let e1 := Z.max ex (fexp B32.prec B32.emax (Zdigits2 mx + ex)) in
  let T := D * 2 ^ (e1 - ex) in
  exists m1 m2 e2,
    2 * Z.abs (m1 * T - N) <= T /\
    binary_round_aux B32.prec B32.emax false mx ex (loc_of N D) = mk_float m2 e2 /\
    (N / T <= m1 <= N / T + 1) /\ (N mod T = 0 -> m1 = N / T) /\
    e1 <= e2 /\ 0 <= m2 /\ m1 = m2 * 2 ^ (e2 - e1) /\
    fexp B32.prec B32.emax (Zdigits2 m2 + e2) <= e2 /\
    (ex <= fexp B32.prec B32.emax (Zdigits2 mx + ex) ->
     fexp B32.prec B32.emax (Zdigits2 m2 + e2) = e2).
Proof.
  intros HN HD Hmx Hn0. cbv zeta.
  assert (Hn : ex <= fexp B32.prec B32.emax (Zdigits2 mx + ex) \/ N mod D = 0)
    by (left; exact Hn0).
  assert (Hlx : N mod D = 0 -> loc_of N D = loc_Exact).
  { intros E. unfold loc_of. rewrite E. reflexivity. }
  remember (loc_of N D) as lx eqn:Elx.
  pose proof (fexp_eq (Zdigits2 mx + ex)) as Hfx.
  unfold binary_round_aux, shr_fexp.
  remember (fexp B32.prec B32.emax (Zdigits2 mx + ex)) as fx eqn:Efx. clear Efx.
  remember (Z.max ex fx) as e1 eqn:He1.
  remember (D * 2 ^ (e1 - ex)) as T eqn:ET.
  assert (Hmx0 : 0 <= mx) by (subst mx; apply Z.div_pos; lia).
  assert (Hs : 0 <= e1 - ex) by lia.
  pose proof (pow2_pos _ Hs) as Hps.
  pose proof (Zdigits2_nonneg mx) as Hdmx.
  (* first shift *)
  pose proof (shr_repr_shr N D (shr_record_of_loc mx lx) ex (fx - ex) HN HD) as H1.
  rewrite Hmx in H1 at 1. specialize (H1 (shr_record_of_loc_repr N D lx Hlx)).
  replace (Z.max 0 (fx - ex)) with (e1 - ex) in H1 by lia.
  rewrite <- ET in H1. destruct H1 as [Hr1 He1'].
  pose proof (shr_exact_shr N D (shr_record_of_loc mx lx) ex (fx - ex) HN HD) as H1x.
  rewrite Hmx, Elx in H1x at 1. specialize (H1x (shr_record_of_loc_exact N D HD)).
  replace (Z.max 0 (fx - ex)) with (e1 - ex) in H1x by lia.
  rewrite <- ET in H1x.
  destruct (shr (shr_record_of_loc mx lx) ex _) as [r1 e1'].
  cbn [fst snd] in Hr1, He1', H1x.
  assert (HTpos : 0 < T) by (rewrite ET; nia).
  assert (Hnear : exists t, t = T /\
            2 * Z.abs (round_nearest_even (shr_m r1) (loc_of_shr_record r1) * t - N) <= t).
  { exists T. split; [reflexivity |]. exact (round_nearest_even_exact N T r1 HTpos H1x). }
  clear HTpos H1x Hlx Elx Hn0.
  assert (Ee1 : e1' = e1) by lia. clear He1'. subst e1'.
  pose proof (round_nearest_even_repr _ _ _ Hr1) as Hrne. cbn zeta in Hrne.
  remember (round_nearest_even (shr_m r1) (loc_of_shr_record r1)) as m1 eqn:Em1.
  clear Em1. destruct Hrne as [Hbr Hexact].
  (* the floor mantissa and its digits *)
  assert (Efloor : N / T = mx / 2 ^ (e1 - ex)).
  { rewrite ET, Hmx. symmetry. apply Z.div_div; lia. }
  assert (Hfloor0 : 0 <= N / T) by (rewrite Efloor; apply Z.div_pos; lia).
  pose proof (Zdigits2_div_pow2 mx (e1 - ex) Hmx0 Hs) as Hdfl. rewrite <- Efloor in Hdfl.
  assert (Hm1 : m1 = N / T \/ m1 = N / T + 1 /\ N mod T <> 0).
  { destruct (Z.eq_dec (N mod T) 0) as [E | E]; [left; auto |].
    destruct (Z.eq_dec m1 (N / T)); [left; assumption | right; split; [lia | assumption]]. }
  assert (HnT : N mod T <> 0 -> ex <= fx).
  { intros HT. destruct (Z_le_gt_dec ex fx); [assumption | exfalso].
    destruct Hn as [Hn | Hn]; [lia |]. apply HT. rewrite ET.
    replace (e1 - ex) with 0 by lia. change (2 ^ 0) with 1. now rewrite Z.mul_1_r. }
  pose proof (Zdigits2_succ (N / T) Hfloor0) as [Hsucc1 Hsucc2].
  assert (Hm10 : 0 <= m1) by lia.
  (* second shift *)
  pose proof (fexp_eq (Zdigits2 m1 + e1)) as Hf1.
  remember (fexp B32.prec B32.emax (Zdigits2 m1 + e1)) as f1 eqn:Ef1. clear Ef1.
  pose proof (shr_repr_shr m1 1 (shr_record_of_loc m1 loc_Exact) e1
                (f1 - e1) Hm10 ltac:(lia)) as H2.
  assert (Hr0 : shr_repr m1 1 (shr_record_of_loc m1 loc_Exact)).
  { pose proof (shr_record_of_loc_repr m1 1 loc_Exact) as Hx.
    rewrite Z.div_1_r in Hx. apply Hx. reflexivity. }
  specialize (H2 Hr0). destruct H2 as [[Hm2 _] He2].
  destruct (shr (shr_record_of_loc m1 loc_Exact) e1 _) as [r2 e2].
  cbn [fst snd] in Hm2, He2. rewrite Z.mul_1_l in Hm2.
  remember (shr_m r2) as m2 eqn:Em2.
  assert (Hn2 : f1 - e1 <= 0 \/
                f1 - e1 = 1 /\ m1 = 2 ^ Zdigits2 (N / T) /\ 1 <= Zdigits2 (N / T)
                  /\ Zdigits2 m1 = Zdigits2 (N / T) + 1).
  { destruct Hm1 as [E | [E HT]].
    - left. rewrite E in Hf1. lia.
    - specialize (HnT HT). rewrite E in Hf1.
      destruct (Z.eq_dec (Zdigits2 (N / T + 1)) (Zdigits2 (N / T) + 1)) as [Ed | Ed].
      + destruct (Z_le_gt_dec (f1 - e1) 0); [left; assumption | right].
        rewrite E. rewrite (Hsucc2 Ed) at 1. rewrite Ed in Hf1. lia.
      + left.
        assert (Zdigits2 (N / T + 1) = Zdigits2 (N / T)) as Ed'.
        { pose proof (Zdigits2_mono (N / T) (N / T + 1)). lia. }
        rewrite Ed' in Hf1. lia. }
  exists m1, m2, e2.
  assert (Hd2 : f1 - e1 <= 0 /\ m2 = m1 /\ e2 = e1 \/
                f1 - e1 = 1 /\ m1 = m2 * 2 /\ 0 < m2 /\
                Zdigits2 m2 + 1 = Zdigits2 m1 /\ e2 = e1 + 1).
  { destruct Hn2 as [Hle | (E1 & Ep & Hk & Ed)].
    - left. rewrite Z.max_l in * by lia. change (2 ^ 0) with 1 in Hm2.
      rewrite Z.div_1_r in Hm2. lia.
    - right. rewrite E1 in *. rewrite Z.max_r in * by lia. change (2 ^ 1) with 2 in Hm2.
      replace (Zdigits2 (N / T)) with (Zdigits2 (N / T) - 1 + 1) in Ep by lia.
      rewrite pow2_succ in Ep by lia.
      pose proof (pow2_pos (Zdigits2 (N / T) - 1) ltac:(lia)) as Hpp.
      assert (Em : m2 = 2 ^ (Zdigits2 (N / T) - 1)).
      { rewrite Hm2, Ep, Z.mul_comm. apply Z.div_mul. lia. }
      split; [reflexivity |]. split; [lia |]. split; [lia |]. split; [| lia].
      rewrite Ed. assert (Zdigits2 m2 = Zdigits2 (N / T)); [| lia].
      apply Zdigits2_unique; [lia |].
      replace (Zdigits2 (N / T)) with (Zdigits2 (N / T) - 1 + 1) at 2 by lia.
      rewrite pow2_succ by lia. lia. }
  pose proof (fexp_eq (Zdigits2 m2 + e2)) as Hf2.
  remember (fexp B32.prec B32.emax (Zdigits2 m2 + e2)) as f2 eqn:Ef2. clear Ef2.
  split; [destruct Hnear as (t & -> & Hnear); exact Hnear |].
  clear Hnear.
  split; [| split; [assumption | split; [assumption |]]].
  { unfold mk_float. subst m2. destruct (shr_m r2); reflexivity. }
  clear He2 Hm2 Em2.
  destruct Hd2 as [(Hle & E2 & Ee) | (E1 & E2 & Hpos & Ed & Ee)].
  - subst m2 e2. replace (e1 - e1) with 0 by lia. change (2 ^ 0) with 1.
    split; [lia |]. split; [lia |]. split; [lia |]. split; [lia |].
    intros Hnn.
    assert (Zdigits2 (N / T) <= Zdigits2 m1).
    { destruct Hm1 as [E | [E _]]; rewrite E; [lia |].
      apply Zdigits2_mono; lia. }
    lia.
  - rewrite Ee. replace (e1 + 1 - e1) with 1 by lia. change (2 ^ 1) with 2.
    split; [lia |]. split; [lia |]. split; [lia |]. split; [lia |].
    intros _. lia.
Qed.

Lemma nearest_integer m1 k T N :
  0 < T -> 2 * Z.abs (m1 * T - N) <= T ->
  Z.abs (m1 * T - N) <= Z.abs (k * T - N).
Proof.
  intros HT Hn.
  destruct (Z.eq_dec k m1) as [-> | Hne]; [lia |].
  assert (Hk : k <= m1 - 1 \/ m1 + 1 <= k) by lia.
  destruct Hk as [Hk | Hk]; nia.
Qed.

(** The result of one rounding is at least as close to the exact value
    as any canonical number. *)
Lemma binary_round_aux_nearest mx ex N D :
  0 <= N -> 0 < D -> mx = N / D ->
  ex <= fexp B32.prec B32.emax (Zdigits2 mx + ex) ->
  exists m e,
    binary_round_aux B32.prec B32.emax false mx ex (loc_of N D) = mk_float m e /\
    0 <= m /\
    fexp B32.prec B32.emax (Zdigits2 m + e) = e /\
    (forall K E c,
        0 <= K -> (0 < K -> fexp B32.prec B32.emax (Zdigits2 K + E) = E) ->
        0 <= ex + c -> 0 <= E + c ->
        Z.abs (m * 2 ^ (e + c) * D - N * 2 ^ (ex + c))
          <= Z.abs (K * 2 ^ (E + c) * D - N * 2 ^ (ex + c))).
Proof.
  intros HN HD Hmx Hn.
  destruct (binary_round_aux_near_char mx ex N D HN HD Hmx Hn)
    as (m1 & m2 & e2 & Hnear & Hres & Hbr & Hexact & He12 & Hm20 & Hm12 & _ & Hcan).
  specialize (Hcan Hn).
  pose proof (fexp_eq (Zdigits2 mx + ex)) as Hfx.
  remember (fexp B32.prec B32.emax (Zdigits2 mx + ex)) as fx eqn:Efx. clear Efx.
  rewrite Z.max_r in * by lia.
  remember (D * 2 ^ (fx - ex)) as T eqn:ET.
  assert (Hmx0 : 0 <= mx) by (subst mx; apply Z.div_pos; lia).
  pose proof (Zdigits2_nonneg mx) as Hdmx.
  pose proof (pow2_pos (fx - ex) ltac:(lia)) as HpS.
  assert (HT : 0 < T) by nia.
  assert (Hval : forall c, 0 <= ex + c ->
            m2 * 2 ^ (e2 + c) * D - N * 2 ^ (ex + c) = (m1 * T - N) * 2 ^ (ex + c)).
  { intros c Hc. rewrite Hm12, ET.
    replace (e2 + c) with ((e2 - fx) + ((fx - ex) + (ex + c))) by lia.
    rewrite (pow2_add (e2 - fx)), (pow2_add (fx - ex)) by lia. ring. }
  pose proof (Z.div_mod N T ltac:(lia)) as Hdm.
  pose proof (Z.mod_pos_bound N T HT) as Hmod.
  exists m2, e2. split; [exact Hres |]. split; [exact Hm20 |]. split; [exact Hcan |].
  intros K E c HK CK Hc HEc. rewrite (Hval c Hc).
  pose proof (pow2_pos (ex + c) Hc) as HpA.
  rewrite Z.abs_mul, (Z.abs_eq (2 ^ (ex + c))) by lia.
  destruct (Z.eq_dec K 0) as [-> | HK0].
  { rewrite !Z.mul_0_l, Z.sub_0_l, Z.abs_opp, Z.abs_mul, (Z.abs_eq (2 ^ (ex + c))) by lia.
    apply Z.mul_le_mono_nonneg_r; [lia |].
    replace N with (- (0 * T - N)) at 2 by lia. rewrite Z.abs_opp.
    apply nearest_integer; assumption. }
  specialize (CK ltac:(lia)).
  destruct (Z_le_gt_dec fx E) as [HfE | HfE].
  - assert (EK : K * 2 ^ (E + c) * D - N * 2 ^ (ex + c)
                 = (K * 2 ^ (E - fx) * T - N) * 2 ^ (ex + c)).
    { rewrite ET. replace (E + c) with ((E - fx) + ((fx - ex) + (ex + c))) by lia.
      rewrite (pow2_add (E - fx)), (pow2_add (fx - ex)) by lia. ring. }
    rewrite EK, Z.abs_mul, (Z.abs_eq (2 ^ (ex + c))) by lia.
    apply Z.mul_le_mono_nonneg_r; [lia |].
    apply nearest_integer; assumption.
  - rewrite fexp_eq in CK.
    pose proof (Zdigits2_nonneg K).
    assert (Hmxp : 0 < mx).
    { destruct (Z.eq_dec mx 0) as [E0 | E0]; [| lia]. rewrite E0 in Hfx. cbn in Hfx. lia. }
    assert (Efl : N / T = mx / 2 ^ (fx - ex)).
    { rewrite ET, Hmx. symmetry. apply Z.div_div; lia. }
    pose proof (Zdigits2_div_pow2 mx (fx - ex) Hmx0 ltac:(lia)) as Hdfl.
    rewrite <- Efl in Hdfl.
    destruct (Zdigits2_bounds mx Hmxp) as (Hdp & _).
    rewrite Z.max_r in Hdfl by lia.
    assert (Hflp : 0 < N / T).
    { destruct (Z.eq_dec (N / T) 0) as [E0 | E0].
      - rewrite E0 in Hdfl. cbn in Hdfl. lia.
      - rewrite Efl in *. pose proof (Z.div_pos mx (2 ^ (fx - ex)) Hmx0 HpS). lia. }
    assert (Hlt : K * 2 ^ (E + c) < N / T * 2 ^ (fx + c)).
    { apply magnitude_lt; lia. }
    replace (fx + c) with ((fx - ex) + (ex + c)) in Hlt by lia.
    rewrite (pow2_add (fx - ex)) in Hlt by lia.
    assert (HG : K * 2 ^ (E + c) * D < N / T * T * 2 ^ (ex + c)).
    { rewrite ET.
      replace (N / (D * 2 ^ (fx - ex)) * (D * 2 ^ (fx - ex)) * 2 ^ (ex + c))
        with (N / (D * 2 ^ (fx - ex)) * (2 ^ (fx - ex) * 2 ^ (ex + c)) * D) by ring.
      rewrite <- ET. apply Z.mul_lt_mono_pos_r; [exact HD | exact Hlt]. }
    assert (Hrem : N mod T * 2 ^ (ex + c)
                   < Z.abs (K * 2 ^ (E + c) * D - N * 2 ^ (ex + c))).
    { assert (N * 2 ^ (ex + c) = N / T * T * 2 ^ (ex + c) + N mod T * 2 ^ (ex + c)).
      { rewrite Hdm at 1. ring. }
      pose proof (Z.mul_nonneg_nonneg (N mod T) (2 ^ (ex + c)) ltac:(lia) ltac:(lia)).
      lia. }
    apply Z.le_trans with (N mod T * 2 ^ (ex + c)); [| lia].
    apply Z.mul_le_mono_nonneg_r; [lia |].
    assert (Hm1 : m1 = N / T \/ m1 = N / T + 1) by lia.
    destruct Hm1 as [-> | ->]; nia.
Qed.

Lemma loc_of_exact N D : N mod D = 0 -> loc_of N D = loc_Exact.
Proof. intros E. unfold loc_of. rewrite E. reflexivity. Qed.

Lemma rounds_faithful r X Y U :
  rounds r X Y -> nonneg_valid U -> X <= units U * Y ->
  nonneg_valid r /\ units r <= units U /\
  (forall L, nonneg_valid L -> units L * Y <= X -> units L <= units r).
Proof.
  intros (mx & ex & N & D & c & -> & HN & HD & Hmx & Hn & Hc & Hexc & HY & HX & HXY) HU HXU.
  exact (round_faithful_units mx ex (loc_of N D) N D X Y c HN HD Hmx (loc_of_exact N D)
           Hn Hc Hexc HY HX HXY U HU HXU).
Qed.

Lemma abs_le_cancel a b F : 0 < F -> Z.abs (a * F) <= Z.abs (b * F) -> Z.abs a <= Z.abs b.
Proof.
  intros HF H. rewrite !Z.abs_mul, (Z.abs_eq F) in H by lia.
  apply Z.mul_le_mono_pos_r in H; assumption.
Qed.

(** The rounding of [X / Y] is at least as close to it as any binary32
    number. *)
Lemma rounds_nearest r X Y g :
  rounds r X Y -> nonneg_valid r -> nonneg_valid g ->
  Z.abs (units r * Y - X) <= Z.abs (units g * Y - X).
Proof.
  intros (mx & ex & N & D & c & Er & HN & HD & Hmx & Hn & Hc & Hexc & HY & HX & HXY) Hr Hg.
  destruct (binary_round_aux_nearest mx ex N D HN HD Hmx Hn)
    as (m & e & Hres & Hm0 & Hcan & Hnear).
  rewrite Hres in Er. clear Hres.
  assert (He : -149 <= e) by (rewrite fexp_eq in Hcan; lia).
  pose proof (pow2_pos (c - 149) ltac:(lia)) as HpC.
  assert (Hsplit : forall k z, -149 <= z ->
            k * 2 ^ (z + c) = k * 2 ^ (z + 149) * 2 ^ (c - 149)).
  { intros k z Hz. replace (z + c) with ((z + 149) + (c - 149)) by lia.
    rewrite (pow2_add (z + 149)) by lia. ring. }
  assert (Hur : units r = m * 2 ^ (e + 149)).
  { subst r. destruct m as [| p | p]; [reflexivity | | lia].
    unfold mk_float in *. destruct (e <=? B32.emax - B32.prec); [reflexivity |].
    destruct Hr. }
  assert (Hgu : exists K E, 0 <= K /\
            (0 < K -> fexp B32.prec B32.emax (Zdigits2 K + E) = E) /\
            -149 <= E /\ units g = K * 2 ^ (E + 149)).
  { destruct (nonneg_valid_cases g Hg) as [-> | (K & E & -> & CK & HE)].
    - exists 0, (-149). repeat split; try lia; reflexivity.
    - exists (Zpos K), E. split; [lia |]. split; [intros _; exact CK |].
      split; [lia | reflexivity]. }
  destruct Hgu as (K & E & HK & CK & HE & Hgu).
  specialize (Hnear K E c HK CK Hexc ltac:(lia)).
  apply (abs_le_cancel _ _ (D * 2 ^ (c - 149))); [nia |].
  replace ((units r * Y - X) * (D * 2 ^ (c - 149)))
    with ((m * 2 ^ (e + c) * D - N * 2 ^ (ex + c)) * Y).
  2:{ rewrite Hur, (Hsplit m e He). 
      replace (X * (D * 2 ^ (c - 149))) with (X * D * 2 ^ (c - 149)) by ring.
      replace ((m * 2 ^ (e + 149) * Y - X) * (D * 2 ^ (c - 149)))
        with (m * 2 ^ (e + 149) * 2 ^ (c - 149) * D * Y - X * D * 2 ^ (c - 149)) by ring.
      rewrite HXY. ring. }
  replace ((units g * Y - X) * (D * 2 ^ (c - 149)))
    with ((K * 2 ^ (E + c) * D - N * 2 ^ (ex + c)) * Y).
  2:{ rewrite Hgu, (Hsplit K E HE).
      replace ((K * 2 ^ (E + 149) * Y - X) * (D * 2 ^ (c - 149)))
        with (K * 2 ^ (E + 149) * 2 ^ (c - 149) * D * Y - X * D * 2 ^ (c - 149)) by ring.
      rewrite HXY. ring. }
  rewrite !Z.abs_mul, (Z.abs_eq Y) by lia.
  apply Z.mul_le_mono_nonneg_r; [lia | exact Hnear].
Qed.

(** Rounding is monotone: of two numbers over the same denominator the
    larger does not round to the smaller float. *)
Lemma rounds_mono r r' X X' Y U :
  rounds r X Y -> rounds r' X' Y -> nonneg_valid U -> X' <= units U * Y ->
  X < X' -> units r <= units r'.
Proof.
  intros Hr Hr' HU HXU Hlt.
  assert (HY : 0 < Y) by (destruct Hr as (? & ? & ? & ? & ? & H); tauto).
  destruct (rounds_faithful r X Y U Hr HU ltac:(lia)) as (Hv & _ & _).
  destruct (rounds_faithful r' X' Y U Hr' HU HXU) as (Hv' & _ & Hlow').
  destruct (Z_le_gt_dec (units r) (units r')) as [Hle | Hgt]; [exact Hle | exfalso].
  assert (H1 : X' < units r * Y).
  { destruct (Z_le_gt_dec (units r * Y) X') as [H | H]; [| lia].
    pose proof (Hlow' r Hv H). lia. }
  assert (H2 : units r' * Y < X).
  { destruct (Z_le_gt_dec X (units r' * Y)) as [H | H]; [| lia].
    destruct (rounds_faithful r X Y r' Hr Hv' H) as (_ & Hu & _). lia. }
  pose proof (rounds_nearest r X Y r' Hr Hv Hv') as N1.
  pose proof (rounds_nearest r' X' Y r Hr' Hv' Hv) as N2.
  lia.
Qed.
(** * The operations of the pipeline as roundings *)

Lemma mul_rounds mx ex my ey :
  nonneg_valid (S754_finite false mx ex) -> nonneg_valid (S754_finite false my ey) ->
  rounds (B32.mul (S754_finite false mx ex) (S754_finite false my ey))
         (units (S754_finite false mx ex) * units (S754_finite false my ey)) (2 ^ 149).
Proof.
  intros Hx Hy.
  apply nonneg_valid_finite in Hx. destruct Hx as [Cx Hex].
  apply nonneg_valid_finite in Hy. destruct Hy as [Cy Hey].
  assert (Hex' : -149 <= ex) by (rewrite fexp_eq in Cx; lia).
  assert (Hey' : -149 <= ey) by (rewrite fexp_eq in Cy; lia).
  pose proof (Zdigits2_mul_ge (Zpos mx) (Zpos my) ltac:(lia) ltac:(lia)) as Hdig.
  destruct (Zdigits2_bounds (Zpos mx) ltac:(lia)) as (Hdx & _).
  destruct (Zdigits2_bounds (Zpos my) ltac:(lia)) as (Hdy & _).
  pose proof (units_finite_pos mx ex ltac:(lia)) as Hux.
  pose proof (units_finite_pos my ey ltac:(lia)) as Huy.
  exists (Zpos (mx * my)), (ex + ey), (Zpos (mx * my)), 1, 298.
  split.
  { rewrite loc_of_exact by apply Z.mod_1_r. reflexivity. }
  split; [lia |]. split; [lia |]. split; [now rewrite Z.div_1_r |].
  split; [rewrite fexp_eq in *; rewrite Pos2Z.inj_mul; lia |].
  split; [lia |]. split; [lia |]. split; [apply pow2_pos; lia |].
  split; [apply Z.mul_pos_pos; assumption |].
  cbn [units]. rewrite Pos2Z.inj_mul. change (298 - 149) with 149.
  replace (ex + ey + 298) with ((ex + 149) + (ey + 149)) by lia.
  rewrite (pow2_add (ex + 149)) by lia. ring.
Qed.

Lemma binary_round_rounds m e :
  -149 <= e ->
  rounds (binary_round B32.prec B32.emax false m e) (Zpos m * 2 ^ (e + 149)) 1.
Proof.
  intros He. unfold binary_round.
  pose proof (fexp_eq (Zpos (digits2_pos m) + e)) as Hf.
  remember (fexp B32.prec B32.emax (Zpos (digits2_pos m) + e)) as f eqn:Ef. clear Ef.
  destruct (shl_align_spec m e f) as [Hez Hmz].
  destruct (shl_align m e f) as [mz ez]. cbn [fst snd] in Hez, Hmz.
  destruct (Zdigits2_bounds (Zpos m) ltac:(lia)) as (Hd & _).
  change (Zpos (digits2_pos m)) with (Zdigits2 (Zpos m)) in Hf.
  exists (Zpos mz), ez, (Zpos mz), 1, 149.
  split.
  { rewrite loc_of_exact by apply Z.mod_1_r. reflexivity. }
  split; [lia |]. split; [lia |]. split; [now rewrite Z.div_1_r |].
  split; [rewrite fexp_eq, Hmz, Zdigits2_mul_pow2 by lia; lia |].
  split; [lia |]. split; [lia |]. split; [lia |].
  split; [pose proof (pow2_pos (e + 149) ltac:(lia)); apply Z.mul_pos_pos; lia |].
  rewrite Hmz. change (2 ^ (149 - 149)) with 1.
  replace (e + 149) with ((e - Z.min e f) + (ez + 149)) by lia.
  rewrite (pow2_add (e - Z.min e f)) by lia. ring.
Qed.

Lemma add_rounds mx ex my ey :
  nonneg_valid (S754_finite false mx ex) -> nonneg_valid (S754_finite false my ey) ->
  rounds (B32.add (S754_finite false mx ex) (S754_finite false my ey))
         (units (S754_finite false mx ex) + units (S754_finite false my ey)) 1.
Proof.
  intros Hx Hy.
  apply nonneg_valid_finite in Hx. destruct Hx as [Cx Hex].
  apply nonneg_valid_finite in Hy. destruct Hy as [Cy Hey].
  assert (Hex' : -149 <= ex) by (rewrite fexp_eq in Cx; lia).
  assert (Hey' : -149 <= ey) by (rewrite fexp_eq in Cy; lia).
  unfold B32.add; cbn [SFadd cond_Zopp].
  destruct (shl_align_spec mx ex (Z.min ex ey)) as [_ Ha].
  destruct (shl_align_spec my ey (Z.min ex ey)) as [_ Hb].
  destruct (shl_align mx ex (Z.min ex ey)) as [a ea].
  destruct (shl_align my ey (Z.min ex ey)) as [b eb].
  cbn [fst snd] in *. cbn [Z.add binary_normalize].
  assert (Hsum : Zpos (a + b) * 2 ^ (Z.min ex ey + 149)
                 = units (S754_finite false mx ex) + units (S754_finite false my ey)).
  { cbn [units]. rewrite Pos2Z.inj_add, Ha, Hb.
    replace (Z.min ex (Z.min ex ey)) with (Z.min ex ey) by lia.
    replace (Z.min ey (Z.min ex ey)) with (Z.min ex ey) by lia.
    replace (ex + 149) with ((ex - Z.min ex ey) + (Z.min ex ey + 149)) by lia.
    replace (ey + 149) with ((ey - Z.min ex ey) + (Z.min ex ey + 149)) by lia.
    rewrite (pow2_add (ex - Z.min ex ey)), (pow2_add (ey - Z.min ex ey)) by lia.
    ring. }
  rewrite <- Hsum. apply binary_round_rounds. lia.
Qed.

Lemma new_location_loc_of N D :
  0 < D -> new_location D (N mod D) = loc_of N D.
Proof.
  intros HD. pose proof (Z.mod_pos_bound N D HD) as Hmod.
  unfold new_location, loc_of.
  destruct (Z.even D) eqn:Ev; unfold new_location_even, new_location_odd;
    destruct (Z.eqb_spec (N mod D) 0) as [E | E]; try reflexivity.
  f_equal.
  assert (Hodd : Z.odd D = true) by (rewrite <- Z.negb_even, Ev; reflexivity).
  apply Z.odd_spec in Hodd. destruct Hodd as [k Hk].
  destruct (Z.compare_spec (2 * (N mod D) + 1) D) as [Ec | Ec | Ec];
    destruct (Z.compare_spec (2 * (N mod D)) D) as [Ec' | Ec' | Ec'];
    try reflexivity; lia.
Qed.

Lemma div_rounds mx ex my ey :
  nonneg_valid (S754_finite false mx ex) -> nonneg_valid (S754_finite false my ey) ->
  rounds (B32.div (S754_finite false mx ex) (S754_finite false my ey))
         (units (S754_finite false mx ex) * 2 ^ 149) (units (S754_finite false my ey)).
Proof.
  intros Hx Hy.
  apply nonneg_valid_finite in Hx. destruct Hx as [Cx Hex].
  apply nonneg_valid_finite in Hy. destruct Hy as [Cy Hey].
  assert (Hex' : -149 <= ex) by (rewrite fexp_eq in Cx; lia).
  assert (Hey' : -149 <= ey) by (rewrite fexp_eq in Cy; lia).
  unfold B32.div; cbn [SFdiv xorb]. unfold SFdiv_core_binary.
  pose proof (fexp_eq (Zdigits2 (Zpos mx) + ex - (Zdigits2 (Zpos my) + ey))) as Hf.
  remember (fexp B32.prec B32.emax (Zdigits2 (Zpos mx) + ex - (Zdigits2 (Zpos my) + ey)))
    as f eqn:Ef. clear Ef.
  remember (Z.min f (ex - ey)) as e' eqn:Ee'.
  remember (ex - ey - e') as s eqn:Es.
  assert (Hs : 0 <= s) by lia.
  pose proof (pow2_pos s Hs) as Hps.
  assert (Hm' : match s with
                | Z0 => Zpos mx
                | Zpos _ => Z.shiftl (Zpos mx) s
                | Zneg _ => 0
                end = Zpos mx * 2 ^ s).
  { destruct s as [| p | p]; [change (2 ^ 0) with 1; lia | | lia].
    apply Z.shiftl_mul_pow2. lia. }
  rewrite Hm'.
  assert (Eq : fst (Z.div_eucl (Zpos mx * 2 ^ s) (Zpos my)) = Zpos mx * 2 ^ s / Zpos my)
    by reflexivity.
  assert (Er : snd (Z.div_eucl (Zpos mx * 2 ^ s) (Zpos my)) = (Zpos mx * 2 ^ s) mod Zpos my)
    by reflexivity.
  destruct (Z.div_eucl (Zpos mx * 2 ^ s) (Zpos my)) as [q r].
  cbn [fst snd] in Eq, Er.
  destruct (Zdigits2_bounds (Zpos mx) ltac:(lia)) as (Hdx & _).
  destruct (Zdigits2_bounds (Zpos my) ltac:(lia)) as (Hdy & _).
  pose proof (Zdigits2_div_ge (Zpos mx) (Zpos my) s ltac:(lia) ltac:(lia) Hs) as Hdq.
  rewrite <- Eq in Hdq.
  pose proof (units_finite_pos mx ex ltac:(lia)) as Hux.
  pose proof (units_finite_pos my ey ltac:(lia)) as Huy.
  exists q, e', (Zpos mx * 2 ^ s), (Zpos my), 253.
  split.
  { rewrite Er, new_location_loc_of by lia. reflexivity. }
  split; [nia |]. split; [lia |]. split; [exact Eq |].
  split; [rewrite fexp_eq; lia |].
  split; [lia |]. split; [lia |]. split; [exact Huy |].
  split; [apply Z.mul_pos_pos; [assumption | apply pow2_pos; lia] |].
  cbn [units]. change (253 - 149) with 104.
  transitivity (Zpos mx * Zpos my * 2 ^ (ex + 402)).
  - replace (ex + 402) with (((ex + 149) + 149) + 104) by lia.
    rewrite (pow2_add (ex + 149 + 149)), (pow2_add (ex + 149)) by lia. ring.
  - replace (ex + 402) with ((s + (e' + 253)) + (ey + 149)) by lia.
    rewrite (pow2_add (s + (e' + 253))), (pow2_add s) by lia. ring.
Qed.

(** * Monotonicity *)

Lemma mul_comm_valid x y :
  nonneg_valid x -> nonneg_valid y -> B32.mul x y = B32.mul y x.
Proof.
  intros Hx Hy.
  destruct (nonneg_valid_cases x Hx) as [-> | (mx & ex & -> & _)];
    destruct (nonneg_valid_cases y Hy) as [-> | (my & ey & -> & _)]; try reflexivity.
  unfold B32.mul; cbn [SFmul xorb]. rewrite Pos.mul_comm, Z.add_comm. reflexivity.
Qed.

Lemma finite_of_units x :
  nonneg_valid x -> 0 < units x ->
  exists m e, x = S754_finite false m e /\ -149 <= e.
Proof.
  intros Hx Hu.
  destruct (nonneg_valid_cases x Hx) as [-> | (m & e & -> & _ & He)];
    [cbn in Hu; lia |].
  exists m, e. split; [reflexivity | lia].
Qed.

Lemma mul_mono c y y' U :
  nonneg_valid c -> nonneg_valid y -> nonneg_valid y' -> nonneg_valid U ->
  units y <= units y' -> units c * units y' <= units U * 2 ^ 149 ->
  units (B32.mul c y) <= units (B32.mul c y').
Proof.
  intros Hc Hy Hy' HU Hle HleU.
  destruct (nonneg_valid_cases c Hc) as [-> | (mc & ec & -> & _ & Hec)].
  { destruct (nonneg_valid_cases y Hy) as [-> | (my & ey & -> & _)];
      destruct (nonneg_valid_cases y' Hy') as [-> | (my' & ey' & -> & _)]; cbn; lia. }
  destruct (nonneg_valid_cases y Hy) as [-> | (my & ey & -> & _ & Hey)].
  { cbn [B32.mul SFmul xorb units]. apply units_nonneg. }
  pose proof (units_finite_pos my ey ltac:(lia)) as Huy.
  destruct (finite_of_units y' Hy' ltac:(lia)) as (my' & ey' & -> & Hey').
  pose proof (units_finite_pos mc ec ltac:(lia)) as Huc.
  destruct (Z.eq_dec (units (S754_finite false my ey)) (units (S754_finite false my' ey')))
    as [E | Hne].
  - rewrite (nonneg_valid_unique _ _ Hy Hy' E). lia.
  - apply (rounds_mono _ _ _ _ (2 ^ 149) U (mul_rounds mc ec my ey Hc Hy)
             (mul_rounds mc ec my' ey' Hc Hy') HU HleU).
    apply Z.mul_lt_mono_pos_l; [exact Huc | lia].
Qed.

Lemma div_mono x x' d U :
  nonneg_valid x -> nonneg_valid x' -> nonneg_valid d -> 0 < units d -> nonneg_valid U ->
  units x <= units x' -> units x' * 2 ^ 149 <= units U * units d ->
  units (B32.div x d) <= units (B32.div x' d).
Proof.
  intros Hx Hx' Hd Hd0 HU Hle HleU.
  destruct (finite_of_units d Hd Hd0) as (md & ed & -> & Hed).
  destruct (nonneg_valid_cases x Hx) as [-> | (mx & ex & -> & _ & Hex)].
  { cbn [B32.div SFdiv xorb units]. apply units_nonneg. }
  pose proof (units_finite_pos mx ex ltac:(lia)) as Hux.
  destruct (finite_of_units x' Hx' ltac:(lia)) as (mx' & ex' & -> & Hex').
  destruct (Z.eq_dec (units (S754_finite false mx ex)) (units (S754_finite false mx' ex')))
    as [E | Hne].
  - rewrite (nonneg_valid_unique _ _ Hx Hx' E). lia.
  - apply (rounds_mono _ _ _ _ _ U (div_rounds mx ex md ed Hx Hd)
             (div_rounds mx' ex' md ed Hx' Hd) HU HleU).
    apply Z.mul_lt_mono_pos_r; [apply pow2_pos; lia | lia].
Qed.

Lemma add_exact_or_rounds x y :
  nonneg_valid x -> nonneg_valid y ->
  (nonneg_valid (B32.add x y) /\ units (B32.add x y) = units x + units y) \/
  rounds (B32.add x y) (units x + units y) 1.
Proof.
  intros Hx Hy.
  destruct (nonneg_valid_cases x Hx) as [-> | (mx & ex & -> & _)].
  { left. assert (E : B32.add (S754_zero false) y = y).
    { destruct (nonneg_valid_cases y Hy) as [-> | (my & ey & -> & _)]; reflexivity. }
    rewrite E. split; [exact Hy | reflexivity]. }
  destruct (nonneg_valid_cases y Hy) as [-> | (my & ey & -> & _)].
  { left. unfold B32.add; cbn [SFadd]. split; [exact Hx |]. cbn [units]. lia. }
  right. apply add_rounds; assumption.
Qed.

Lemma add_mono x y x' y' U :
  nonneg_valid x -> nonneg_valid y -> nonneg_valid x' -> nonneg_valid y' ->
  nonneg_valid U ->
  units x <= units x' -> units y <= units y' -> units x' + units y' <= units U ->
  units (B32.add x y) <= units (B32.add x' y').
Proof.
  intros Hx Hy Hx' Hy' HU Hlx Hly HleU.
  destruct (Z.eq_dec (units x + units y) (units x' + units y')) as [E | Hne].
  { rewrite (nonneg_valid_unique x x' Hx Hx'), (nonneg_valid_unique y y' Hy Hy') by lia.
    lia. }
  destruct (add_exact_or_rounds x y Hx Hy) as [[Hv Eu] | Hr];
    destruct (add_exact_or_rounds x' y' Hx' Hy') as [[Hv' Eu'] | Hr'].
  - lia.
  - destruct (rounds_faithful _ _ _ U Hr' HU ltac:(lia)) as (_ & _ & Hlow).
    apply Hlow; [exact Hv | lia].
  - destruct (rounds_faithful _ _ _ (B32.add x' y') Hr Hv' ltac:(lia)) as (_ & Hu & _).
    exact Hu.
  - apply (rounds_mono _ _ _ _ 1 U Hr Hr' HU); lia.
Qed.

Lemma trunc_mono y y' :
  nonneg_valid y -> nonneg_valid y' -> units y <= units y' ->
  B32.trunc y <= B32.trunc y'.
Proof.
  intros Hy Hy' Hle.
  pose proof (trunc_units y Hy) as [H1 _].
  pose proof (trunc_units y' Hy') as [_ H2].
  pose proof (pow2_pos 149 ltac:(lia)). nia.
Qed.

(** The filter is monotone in the sample and in the state. *)
Lemma filter_mono raw raw' (f f' : spec_float) :
  0 <= raw <= raw' -> raw' <= 4095 ->
  nonneg_valid f -> nonneg_valid f' ->
  units f <= units f' -> units f' <= 4095 * 2 ^ 149 ->
  units (filter raw f) <= units (filter raw' f').
Proof.
  intros Hraw Hraw' Hf Hf' Hle Hle'.
  rewrite !filter_binary32.
  destruct constants_valid as (_ & H34 & H4095 & _).
  destruct constants_units as (_ & E34 & E4095 & _).
  destruct (quarter_exact raw) as [Hq Eq]; [lia |].
  destruct (quarter_exact raw') as [Hq' Eq']; [lia |].
  destruct (representable 12285 (-2)) as (V & HV & EV); [lia | lia |].
  change (-2 + 149) with 147 in EV.
  destruct (three_quarters_faithful f V Hf HV) as (Hb & _ & _);
    [rewrite EV, pow2_149 in *; lia |].
  destruct (three_quarters_faithful f' V Hf' HV) as (Hb' & Hbu' & _);
    [rewrite EV, pow2_149 in *; lia |].
  apply (add_mono _ _ _ _ (S754_finite false 16773120 (-12)) Hq Hb Hq' Hb' H4095).
  - rewrite Eq, Eq'. apply Z.mul_le_mono_nonneg_r; [pose proof (pow2_pos 147); lia | lia].
  - apply (mul_mono _ f f' (S754_finite false 16773120 (-12)) H34 Hf Hf' H4095 Hle).
    rewrite E34, E4095. pose proof (pow2_pos 149 ltac:(lia)). 
    rewrite pow2_149 in *. nia.
  - rewrite Eq', E4095. rewrite EV in Hbu'. rewrite pow2_149.
    pose proof (pow2_pos 147 ltac:(lia)). nia.
Qed.

(** The conversion to the MIDI range is monotone. *)
Lemma to_midi_mono (f f' : spec_float) :
  nonneg_valid f -> nonneg_valid f' ->
  units f <= units f' -> units f' <= 4095 * 2 ^ 149 ->
  to_midi f <= to_midi f'.
Proof.
  intros Hf Hf' Hle Hle'.
  destruct (to_midi_in_range f Hf ltac:(lia)) as [_ ->].
  destruct (to_midi_in_range f' Hf' Hle') as [_ ->].
  destruct constants_valid as (_ & _ & H4095 & H127 & H1).
  destruct constants_units as (_ & _ & E4095 & E127 & E1).
  assert (Hp : 0 < 2 ^ 149) by (apply pow2_pos; lia).
  destruct (div_faithful f _ (S754_finite false 8388608 (-23)) Hf H4095) as (Hq & _ & _);
    [rewrite E4095; lia | exact H1 | rewrite E1, E4095; nia |].
  destruct (div_faithful f' _ (S754_finite false 8388608 (-23)) Hf' H4095) as (Hq' & Hqu' & _);
    [rewrite E4095; lia | exact H1 | rewrite E1, E4095; nia |].
  assert (Hqq : units (B32.div f (S754_finite false 16773120 (-12)))
                <= units (B32.div f' (S754_finite false 16773120 (-12)))).
  { apply (div_mono f f' _ (S754_finite false 8388608 (-23)) Hf Hf' H4095);
      [rewrite E4095; lia | exact H1 | exact Hle | rewrite E1, E4095; nia]. }
  rewrite E1 in Hqu'.
  destruct (mul_faithful _ _ (S754_finite false 16646144 (-17)) Hq H127 H127) as (Hy & _ & _);
    [rewrite E127; nia |].
  destruct (mul_faithful _ _ (S754_finite false 16646144 (-17)) Hq' H127 H127) as (Hy' & _ & _);
    [rewrite E127; nia |].
  apply trunc_mono; [exact Hy | exact Hy' |].
  rewrite (mul_comm_valid _ _ Hq H127), (mul_comm_valid _ _ Hq' H127).
  apply (mul_mono _ _ _ (S754_finite false 16646144 (-17)) H127 Hq Hq' H127 Hqq).
  rewrite E127. nia.
Qed.

Lemma run_input_mono ws ws' (a a' : analog_input_t spec_float) :
  channel a' = channel a ->
  Forall2 (fun w w' =>
             0 <= adc1_get_raw w (channel a) <= adc1_get_raw w' (channel a) /\
             adc1_get_raw w' (channel a) <= 4095) ws ws' ->
  nonneg_valid (filtered_value a) -> nonneg_valid (filtered_value a') ->
  units (filtered_value a) <= units (filtered_value a') ->
  units (filtered_value a') <= 4095 * 2 ^ 149 ->
  Forall2 Z.le (map fst (snd (run_input ws a))) (map fst (snd (run_input ws' a'))) /\
  nonneg_valid (filtered_value (fst (run_input ws a))) /\
  nonneg_valid (filtered_value (fst (run_input ws' a'))) /\
  units (filtered_value (fst (run_input ws a)))
    <= units (filtered_value (fst (run_input ws' a'))).
Proof.
  intros Hc Hall. revert ws' a a' Hc Hall.
  induction ws as [| w ws IH]; intros ws1 a a' Hc Hall Hf Hf' Hle Hle';
    inversion Hall as [| ? w' ? ws0 [Hw Hw'] Hws]; subst.
  - cbn. repeat split; try assumption. constructor.
  - rewrite !run_input_cons. cbn [fst snd map].
    destruct (process_input_fields w a) as (Ec & _ & Ef & _).
    destruct (process_input_fields w' a') as (Ec' & _ & Ef' & _).
    rewrite Hc in Ef', Ec'.
    set (raw := adc1_get_raw w (channel a)) in *.
    set (raw' := adc1_get_raw w' (channel a)) in *.
    destruct (filter_in_range raw _ ltac:(lia) Hf ltac:(lia)) as [Hv Hu].
    destruct (filter_in_range raw' _ ltac:(lia) Hf' Hle') as [Hv' Hu'].
    pose proof (filter_mono raw raw' _ _ Hw Hw' Hf Hf' Hle Hle') as Hm.
    destruct (IH ws0 (fst (process_input w a)) (fst (process_input w' a')))
      as (H1 & H2 & H3 & H4).
    + rewrite Ec, Ec'. reflexivity.
    + rewrite Ec. exact Hws.
    + rewrite Ef. exact Hv.
    + rewrite Ef'. exact Hv'.
    + rewrite Ef, Ef'. exact Hm.
    + rewrite Ef'. exact Hu'.
    + split; [| split; [exact H2 | split; [exact H3 | exact H4]]].
      constructor; [| exact H1].
      unfold midi_value_of. rewrite Hc. fold raw raw'.
      apply to_midi_mono; assumption.
Qed.

(** X14. Monotone response.  Of two runs that start an entry from the
    same state, if one reads at every pass at least what the other
    reads (all readings in [0, 4095]), then at every pass the value it
    computes is at least the value the other computes, and its
    [filtered_value] ends at least as high: rounding never lets a
    larger reading give a smaller controller value. *)
Theorem X14_monotone_response (ws ws' : list world) (a : analog_input_t spec_float) :
  Forall2 (fun w w' =>
             0 <= adc1_get_raw w (channel a) <= adc1_get_raw w' (channel a) /\
             adc1_get_raw w' (channel a) <= 4095) ws ws' ->
  nonneg_valid (filtered_value a) -> (B2Q (filtered_value a) <= 4095)%Q ->
  Forall2 Z.le (map fst (snd (run_input ws a))) (map fst (snd (run_input ws' a))) /\
  (B2Q (filtered_value (fst (run_input ws a)))
     <= B2Q (filtered_value (fst (run_input ws' a))))%Q.
Proof.
  intros Hall Hf HleQ.
  assert (Hle : units (filtered_value a) <= 4095 * 2 ^ 149)
    by (apply (B2Q_le_Z _ 4095 Hf); exact HleQ).
  destruct (run_input_mono ws ws' a a eq_refl Hall Hf Hf (Z.le_refl _) Hle)
    as (H1 & H2 & H3 & H4).
  split; [exact H1 |]. apply (B2Q_le _ _ H2 H3). exact H4.
Qed.

Lemma X14_witness :
  Forall2 (fun w w' =>
             0 <= adc1_get_raw w (channel (@analog_inputs spec_float _ !!! 0%fin))
               <= adc1_get_raw w' (channel (@analog_inputs spec_float _ !!! 0%fin)) /\
             adc1_get_raw w' (channel (@analog_inputs spec_float _ !!! 0%fin)) <= 4095)
    [steady 100 true; steady 2000 true] [steady 101 true; steady 4095 true] /\
  nonneg_valid (filtered_value (@analog_inputs spec_float _ !!! 0%fin)) /\
  Qle (B2Q (filtered_value (@analog_inputs spec_float _ !!! 0%fin))) (inject_Z 4095) /\
  Forall2 Z.le
    (map fst (snd (run_input [steady 100 true; steady 2000 true]
                     (@analog_inputs spec_float _ !!! 0%fin))))
    (map fst (snd (run_input [steady 101 true; steady 4095 true]
                     (@analog_inputs spec_float _ !!! 0%fin)))).
Proof.
  assert (H1 : Forall2 (fun w w' =>
             0 <= adc1_get_raw w (channel (@analog_inputs spec_float _ !!! 0%fin))
               <= adc1_get_raw w' (channel (@analog_inputs spec_float _ !!! 0%fin)) /\
             adc1_get_raw w' (channel (@analog_inputs spec_float _ !!! 0%fin)) <= 4095)
    [steady 100 true; steady 2000 true] [steady 101 true; steady 4095 true])
    by (repeat constructor; cbn; lia).
  assert (H2 : nonneg_valid (filtered_value (@analog_inputs spec_float _ !!! 0%fin)))
    by (vm_compute; reflexivity).
  assert (H3 : Qle (B2Q (filtered_value (@analog_inputs spec_float _ !!! 0%fin)))
                   (inject_Z 4095))
    by (vm_compute; discriminate).
  split; [exact H1 |]. split; [exact H2 |]. split; [exact H3 |].
  exact (proj1 (X14_monotone_response _ _ (analog_inputs !!! 0%fin) H1 H2 H3)).
Defined.

(** X15. Each step of the pipeline is monotone on the range of the
    filter: a larger sample or a larger [filtered_value] never gives a
    smaller new [filtered_value], and a larger [filtered_value] never
    gives a smaller controller value. *)
Theorem X15_steps_monotone (raw raw' : Z) (f f' : spec_float) :
  0 <= raw <= raw' -> raw' <= 4095 ->
  nonneg_valid f -> nonneg_valid f' ->
  (B2Q f <= B2Q f')%Q -> (B2Q f' <= 4095)%Q ->
  (B2Q (filter raw f) <= B2Q (filter raw' f'))%Q /\
  to_midi f <= to_midi f'.
Proof.
  intros Hraw Hraw' Hf Hf' HleQ HleQ'.
  assert (Hle : units f <= units f') by (apply (B2Q_le _ _ Hf Hf'); exact HleQ).
  assert (Hle' : units f' <= 4095 * 2 ^ 149)
    by (apply (B2Q_le_Z _ 4095 Hf'); exact HleQ').
  destruct (filter_in_range raw f ltac:(lia) Hf ltac:(lia)) as [Hv _].
  destruct (filter_in_range raw' f' ltac:(lia) Hf' Hle') as [Hv' _].
  split.
  - apply (B2Q_le _ _ Hv Hv'). apply filter_mono; assumption.
  - apply to_midi_mono; assumption.
Qed.

Lemma X15_witness :
  0 <= 100 <= 200 /\ 200 <= 4095 /\
  nonneg_valid (cold_start 4095 1 : spec_float) /\
  nonneg_valid (cold_start 4095 2 : spec_float) /\
  Qle (B2Q (cold_start 4095 1)) (B2Q (cold_start 4095 2)) /\
  Qle (B2Q (cold_start 4095 2)) (inject_Z 4095) /\
  to_midi (cold_start 4095 1 : spec_float) <= to_midi (cold_start 4095 2 : spec_float).
Proof.
  assert (H1 : 0 <= 100 <= 200) by lia.
  assert (H2 : 200 <= 4095) by lia.
  assert (H3 : nonneg_valid (cold_start 4095 1 : spec_float)) by (vm_compute; tauto).
  assert (H4 : nonneg_valid (cold_start 4095 2 : spec_float)) by (vm_compute; tauto).
  assert (H5 : Qle (B2Q (cold_start 4095 1)) (B2Q (cold_start 4095 2)))
    by (vm_compute; discriminate).
  assert (H6 : Qle (B2Q (cold_start 4095 2)) (inject_Z 4095))
    by (vm_compute; discriminate).
  split; [exact H1 |]. split; [exact H2 |]. split; [exact H3 |]. split; [exact H4 |].
  split; [exact H5 |]. split; [exact H6 |].
  exact (proj2 (X15_steps_monotone 100 200 _ _ H1 H2 H3 H4 H5 H6)).
Defined.
(** * No overshoot *)

Lemma of_int_value v :
  0 <= v <= 4095 ->
  nonneg_valid (B32.of_int v) /\ units (B32.of_int v) = v * 2 ^ 149 /\
  (B2Q (B32.of_int v) == inject_Z v)%Q.
Proof.
  intros Hv. destruct (of_int_exact v) as [Hval Eu]; [lia |].
  split; [exact Hval |]. split; [exact Eu |].
  apply Qle_antisym.
  - apply (B2Q_le_Z _ v Hval). lia.
  - apply (B2Q_ge_Z _ v Hval). lia.
Qed.

(** The value computed from a [filtered_value] that is the integer [v]. *)
Lemma to_midi_of_int v :
  0 <= v <= 4095 -> to_midi (B32.of_int v) = 127 * v / 4095.
Proof.
  intros Hv. destruct (Z.eq_dec v 4095) as [-> | Hne]; [vm_compute; reflexivity |].
  destruct (of_int_value v Hv) as (Hval & _ & EQ).
  apply to_midi_near; [lia | exact Hval | |].
  - rewrite EQ. change 4095%Q with (inject_Z 4095). rewrite <- Zle_Qle. lia.
  - rewrite EQ. apply Qabs_self_small.
Qed.

Lemma filter_band lo hi raw (f : spec_float) :
  0 <= lo -> hi <= 4095 -> lo <= raw <= hi ->
  nonneg_valid f -> lo * 2 ^ 149 <= units f <= hi * 2 ^ 149 ->
  nonneg_valid (filter raw f) /\
  lo * 2 ^ 149 <= units (filter raw f) <= hi * 2 ^ 149.
Proof.
  intros Hlo Hhi Hraw Hf Hb.
  assert (Hp : 0 < 2 ^ 149) by (apply pow2_pos; lia).
  assert (Hle : units f <= 4095 * 2 ^ 149) by nia.
  destruct (filter_in_range raw f ltac:(lia) Hf Hle) as [Hv _].
  split; [exact Hv |]. split.
  - destruct (filter_toward lo f ltac:(lia) Hf Hle) as [_ Hdown].
    pose proof (filter_mono lo raw f f ltac:(lia) ltac:(lia) Hf Hf (Z.le_refl _) Hle).
    specialize (Hdown ltac:(lia)). lia.
  - destruct (filter_toward hi f ltac:(lia) Hf Hle) as [Hup _].
    pose proof (filter_mono raw hi f f ltac:(lia) ltac:(lia) Hf Hf (Z.le_refl _) Hle).
    specialize (Hup ltac:(lia)). lia.
Qed.

Lemma filter_run_band lo hi raws (f : spec_float) :
  0 <= lo -> hi <= 4095 -> Forall (fun raw => lo <= raw <= hi) raws ->
  nonneg_valid f -> lo * 2 ^ 149 <= units f <= hi * 2 ^ 149 ->
  nonneg_valid (filter_run raws f) /\
  lo * 2 ^ 149 <= units (filter_run raws f) <= hi * 2 ^ 149.
Proof.
  intros Hlo Hhi Hraws. revert f.
  induction Hraws as [| raw raws Hraw Hraws IH]; intros f Hf Hb; [split; assumption |].
  rewrite filter_run_cons.
  destruct (filter_band lo hi raw f Hlo Hhi Hraw Hf Hb) as [Hv Hb'].
  apply IH; assumption.
Qed.

(** X16. No overshoot.  While the readings stay in a band [lo, hi]
    inside [0, 4095] and [filtered_value] starts in it, [filtered_value]
    stays in the band and the value computed stays between the values
    of its ends, [floor (127 * lo / 4095)] and
    [floor (127 * hi / 4095)]. *)
Theorem X16_stays_in_band (lo hi : Z) (raws : list Z) (f : spec_float) :
  0 <= lo -> hi <= 4095 -> Forall (fun raw => lo <= raw <= hi) raws ->
  nonneg_valid f -> (inject_Z lo <= B2Q f <= inject_Z hi)%Q ->
  (inject_Z lo <= B2Q (filter_run raws f) <= inject_Z hi)%Q /\
  127 * lo / 4095 <= to_midi (filter_run raws f) <= 127 * hi / 4095.
Proof.
  intros Hlo Hhi Hraws Hf [HloQ HhiQ].
  apply (B2Q_ge_Z f lo Hf) in HloQ. apply (B2Q_le_Z f hi Hf) in HhiQ.
  assert (Hp : 0 < 2 ^ 149) by (apply pow2_pos; lia).
  assert (Hlh : lo <= hi) by nia.
  destruct (filter_run_band lo hi raws f Hlo Hhi Hraws Hf (conj HloQ HhiQ)) as [Hv [Hb1 Hb2]].
  destruct (of_int_value lo ltac:(lia)) as (Hvlo & Eulo & _).
  destruct (of_int_value hi ltac:(lia)) as (Hvhi & Euhi & _).
  split; [split |]; [apply (B2Q_ge_Z _ lo Hv); exact Hb1
                    | apply (B2Q_le_Z _ hi Hv); exact Hb2 |].
  rewrite <- (to_midi_of_int lo), <- (to_midi_of_int hi) by lia.
  split; apply to_midi_mono; try assumption; rewrite ?Eulo, ?Euhi; try lia; nia.
Qed.

Lemma X16_witness :
  0 <= 1000 /\ 3000 <= 4095 /\
  Forall (fun raw => 1000 <= raw <= 3000) [2174; 1590; 2932] /\
  nonneg_valid (B32.of_int 2000) /\
  Qle (inject_Z 1000) (B2Q (B32.of_int 2000)) /\
  Qle (B2Q (B32.of_int 2000)) (inject_Z 3000) /\
  127 * 1000 / 4095 <= to_midi (filter_run [2174; 1590; 2932] (B32.of_int 2000))
    <= 127 * 3000 / 4095.
Proof.
  assert (H1 : 0 <= 1000) by lia.
  assert (H2 : 3000 <= 4095) by lia.
  assert (H3 : Forall (fun raw => 1000 <= raw <= 3000) [2174; 1590; 2932])
    by (repeat constructor; lia).
  assert (H4 : nonneg_valid (B32.of_int 2000)) by (vm_compute; tauto).
  assert (H5 : Qle (inject_Z 1000) (B2Q (B32.of_int 2000))) by (vm_compute; discriminate).
  assert (H6 : Qle (B2Q (B32.of_int 2000)) (inject_Z 3000)) by (vm_compute; discriminate).
  split; [exact H1 |]. split; [exact H2 |]. split; [exact H3 |]. split; [exact H4 |].
  split; [exact H5 |]. split; [exact H6 |].
  exact (proj2 (X16_stays_in_band 1000 3000 _ _ H1 H2 H3 H4 (conj H5 H6))).
Defined.
